(** * mosm.cloud control plane: enforcement gate, heartbeat, billing resolver,
      service registry, rollout orchestrator and event mirror.

    A shallow embedding of the TypeScript/JavaScript sources.  Module-level
    mutable stores (the enforcement log buffer, the last-seen map) and the
    relational tables reached through the Supabase client are threaded
    explicitly as state; readings of the wall clock ([new Date()],
    [Date.now()]) are arguments in milliseconds since the epoch.  JavaScript
    numbers that hold counts and limits are integers in [Z]; comparisons of
    numbers are exact, and the one sum the sources compute on a count,
    [device_count + 1], is rounded as a double is ([plus_one]). *)

From Stdlib Require Import ZArith Lia Bool.
From stdpp Require Import base option list gmap strings pretty.

Local Open Scope string_scope.
Local Open Scope list_scope.
Local Open Scope Z_scope.

(** [Array.prototype.includes] on an array of string literals. *)
Fixpoint includes (xs : list string) (x : string) : bool :=
  match xs with
  | [] => false
  | y :: ys => if String.eqb y x then true else includes ys x
  end.

(** [Number.MAX_SAFE_INTEGER], 2^53 - 1. *)
Definition MAX_SAFE_INTEGER : Z := 9007199254740991.

(** [n + 1] on a number that holds an integer.  The sum is rounded to the
    nearest double, ties to even.  Up to 2^53 in magnitude it is exact.
    From there to 2^54 the doubles are the even integers and [n + 1] lies
    halfway between [n] and [n + 2]: the one with the even significand,
    the multiple of 4, is taken (so 2^53 + 1 is 2^53).  Beyond 2^54 the
    doubles are 4 or more apart and [n + 1] rounds back to [n]. *)
Definition plus_one (n : Z) : Z :=
  if (-9007199254740992 <=? n) && (n <? 9007199254740992) then n + 1
  else if (-18014398509481984 <=? n) && (n <? 18014398509481984)
       then (if n mod 4 =? 0 then n else n + 2)
       else n.

(** ** src/heartbeat/handler.ts *)
Module Heartbeat.

Inductive DeviceStatus := online | idle | playing.

Record HeartbeatPayload := {
  device_id : string;
  status : DeviceStatus;
  uptime : Z;
  current_board : option string;
  last_seen : string
}.

Inductive CommandType := reload | switch_board | update | restart.

Record Command := {
  type : CommandType;
  payload : option (list (string * string))
}.

(** The optional second argument of [handleHeartbeat]. *)
Record AccountInfo := {
  billing_status : string;
  plan : string;
  device_count : Z
}.

Record HeartbeatResponse := {
  acknowledged : bool;
  server_time : Z;
  resp_billing_status : option string;
  resp_plan : option string;
  resp_device_count : option Z;
  commands : list Command
}.

Definition HEARTBEAT_INTERVAL_SECONDS : Z := 60.
Definition MISSED_BEATS_BEFORE_OFFLINE : Z := 3.

(** [deviceLastSeen] is the module-level [Map<string, Date>]; the two clock
    readings are the two [new Date()] of the body. *)
Definition handleHeartbeat (deviceLastSeen : gmap string Z) (t_seen t_reply : Z)
    (p : HeartbeatPayload) (accountInfo : option AccountInfo)
    : gmap string Z * HeartbeatResponse :=
  let deviceLastSeen' := <[device_id p := t_seen]> deviceLastSeen in
  let commands : list Command := [] in
  (deviceLastSeen',
   {| acknowledged := true;
      server_time := t_reply;
      resp_billing_status := billing_status <$> accountInfo;
      resp_plan := plan <$> accountInfo;
      resp_device_count := device_count <$> accountInfo;
      commands := commands |}).

(** Monitoring only: [diffSeconds > 180], the difference being in
    milliseconds before the division by 1000. *)
Definition checkDeviceOffline (deviceLastSeen : gmap string Z) (now : Z) (device_id : string)
    : bool :=
  match deviceLastSeen !! device_id with
  | None => true
  | Some lastSeen =>
      now - lastSeen >? HEARTBEAT_INTERVAL_SECONDS * MISSED_BEATS_BEFORE_OFFLINE * 1000
  end.

(** [{ ...accountInfo, billing_status: b }]: the same account under another
    billing status. *)
Definition with_billing_status (b : string) (a : AccountInfo) : AccountInfo :=
  {| billing_status := b; plan := plan a; device_count := device_count a |}.

(** The operational part of a response: what a device acts upon. *)
Definition operational (r : HeartbeatResponse) : bool * list Command :=
  (acknowledged r, commands r).

(** One heartbeat as it reaches the handler, with the clock readings of
    its handling and the account information the caller passes along. *)
Record Beat := {
  at_seen : Z;
  at_reply : Z;
  sent : HeartbeatPayload;
  account : option AccountInfo
}.

(** The handler serving successive heartbeats. *)
Fixpoint serve (deviceLastSeen : gmap string Z) (beats : list Beat)
    : gmap string Z * list HeartbeatResponse :=
  match beats with
  | [] => (deviceLastSeen, [])
  | b :: rest =>
      let '(seen, r) :=
        handleHeartbeat deviceLastSeen (at_seen b) (at_reply b) (sent b) (account b) in
      let '(seen, rs) := serve seen rest in
      (seen, r :: rs)
  end.

(** Two heartbeats alike in everything but the billing status of the
    account at the time. *)
Definition differ_in_billing_only (b1 b2 : Beat) : Prop :=
  at_seen b1 = at_seen b2 ∧ at_reply b1 = at_reply b2 ∧ sent b1 = sent b2
  ∧ plan <$> account b1 = plan <$> account b2
  ∧ device_count <$> account b1 = device_count <$> account b2.

End Heartbeat.

(** ** src/billing/enforce.ts *)
Module Enforce.

Definition ACTIVE_BILLING_STATUSES : list string := ["paid"; "trialing"].
Definition BLOCKED_BILLING_STATUSES : list string := ["unpaid"; "past_due"; "canceled"].

(** [number | 'unlimited'] *)
Inductive MaxDevices := Limit (n : Z) | unlimited.

Record Plan := { max_devices : MaxDevices }.

Record Account := {
  id : option string;
  plan : Plan;
  billing_status : string
}.

Inductive PlanTier := starter | pro | enterprise.

Record Location := {
  loc_id : string;
  organization_id : string;
  name : string;
  plan_tier : PlanTier;
  device_limit : Z;
  active : bool;
  setup_fee_paid : bool
}.

Inductive Result := ALLOWED | BLOCKED.

(** [Omit<EnforcementLog, 'type' | 'timestamp'>] *)
Record LogInput := {
  in_org_id : option string;
  in_location_id : option string;
  in_billing_status : string;
  in_action : string;
  in_result : Result;
  in_reason : option string;
  in_device_count : option Z;
  in_max_devices : option MaxDevices
}.

Record EnforcementLog := {
  type : string;
  timestamp : Z;
  org_id : option string;
  location_id : option string;
  log_billing_status : string;
  action : string;
  result : Result;
  reason : option string;
  log_device_count : option Z;
  log_max_devices : option MaxDevices
}.

(** The state the module owns: [enforcementLogs], an array only ever
    pushed to. *)
Definition Logs := list EnforcementLog.

Definition logEnforcementEvent (now : Z) (log : LogInput) (enforcementLogs : Logs) : Logs :=
  let entry :=
    {| type := "BILLING_ENFORCEMENT";
       timestamp := now;
       org_id := in_org_id log;
       location_id := in_location_id log;
       log_billing_status := in_billing_status log;
       action := in_action log;
       result := in_result log;
       reason := in_reason log;
       log_device_count := in_device_count log;
       log_max_devices := in_max_devices log |} in
  enforcementLogs ++ [entry].

(** [enforcementLogs.slice(-limit)]; [slice(-0)] is the whole array. *)
Definition getEnforcementLogs (limit : nat) (enforcementLogs : Logs) : Logs :=
  match limit with
  | O => enforcementLogs
  | _ => drop (length enforcementLogs - limit)%nat enforcementLogs
  end.

Definition isBillingActive (billing_status : string) : bool :=
  includes ACTIVE_BILLING_STATUSES billing_status.

(** The structured result of both gates. *)
Record Decision := {
  allowed : bool;
  error : option string;
  code : option string;
  message : option string
}.

Definition allow : Decision :=
  {| allowed := true; error := None; code := None; message := None |}.

Definition deny (c m : string) : Decision :=
  {| allowed := false; error := Some c; code := Some c; message := Some m |}.

Definition enforceBillingForPairing (now : Z) (account : Account) (logs : Logs)
    : Logs * Decision :=
  let isActive := isBillingActive (billing_status account) in
  let logs :=
    logEnforcementEvent now
      {| in_org_id := id account;
         in_location_id := None;
         in_billing_status := billing_status account;
         in_action := "PAIR_DEVICE";
         in_result := if isActive then ALLOWED else BLOCKED;
         in_reason :=
           if isActive then None
           else Some ("Billing status '" +:+ billing_status account
                      +:+ "' not in allowed list");
         in_device_count := None;
         in_max_devices := None |} logs in
  if negb isActive then
    (logs, deny "BILLING_INACTIVE"
        "Active subscription required to pair new devices. Please visit /billing to activate.")
  else (logs, allow).

(** [enforceDeviceLimit] returns nothing and throws an [Error]; the thrown
    message is the [inr] case.  Numbers in the message and in the log's
    reason are printed in decimal, as the source prints them below 1e21. *)
Definition enforceDeviceLimit (now : Z) (account : Account) (deviceCount : Z) (logs : Logs)
    : Logs * (unit + string) :=
  match max_devices (plan account) with
  | unlimited =>
      (logEnforcementEvent now
         {| in_org_id := id account;
            in_location_id := None;
            in_billing_status := billing_status account;
            in_action := "CHECK_DEVICE_LIMIT";
            in_result := ALLOWED;
            in_reason := Some "Enterprise plan - unlimited devices";
            in_device_count := Some deviceCount;
            in_max_devices := Some unlimited |} logs,
       inl ())
  | Limit maxDevices =>
      let allowed := deviceCount <=? maxDevices in
      let logs :=
        logEnforcementEvent now
          {| in_org_id := id account;
             in_location_id := None;
             in_billing_status := billing_status account;
             in_action := "CHECK_DEVICE_LIMIT";
             in_result := if allowed then ALLOWED else BLOCKED;
             in_reason :=
               if allowed then None
               else Some ("Limit " +:+ pretty maxDevices +:+ ", attempting "
                          +:+ pretty deviceCount);
             in_device_count := Some deviceCount;
             in_max_devices := Some (Limit maxDevices) |} logs in
      if negb allowed then
        (logs, inr ("Device limit exceeded. Plan allows " +:+ pretty maxDevices
                    +:+ " devices, attempting to add device #" +:+ pretty deviceCount))
      else (logs, inl ())
  end.

Definition canAddDevice (account : Account) (currentDeviceCount : Z) : bool :=
  match max_devices (plan account) with
  | unlimited => true
  | Limit maxDevices => currentDeviceCount <? maxDevices
  end.

(** The log record common to the five exits of [enforceLocationPairing]. *)
Definition location_log (account : Account) (location : Location) (r : Result)
    (why : option string) (count : option Z) (lim : option MaxDevices) : LogInput :=
  {| in_org_id := id account;
     in_location_id := Some (loc_id location);
     in_billing_status := billing_status account;
     in_action := "LOCATION_PAIR_DEVICE";
     in_result := r;
     in_reason := why;
     in_device_count := count;
     in_max_devices := lim |}.

Definition enforceLocationPairing (now : Z) (account : Account) (location : Location)
    (currentDeviceCount : Z) (logs : Logs) : Logs * Decision :=
  (* Check 1: account-level billing *)
  let billingActive := isBillingActive (billing_status account) in
  if negb billingActive then
    (logEnforcementEvent now
       (location_log account location BLOCKED
          (Some ("Account billing status '" +:+ billing_status account +:+ "' not active"))
          None None) logs,
     deny "BILLING_INACTIVE"
       "Active subscription required. Please visit /billing to activate.")
  (* Check 2: location must be active *)
  else if negb (active location) then
    (logEnforcementEvent now
       (location_log account location BLOCKED (Some "Location is not active") None None)
       logs,
     deny "LOCATION_INACTIVE" ("Location '" +:+ name location +:+ "' is not active."))
  (* Check 3: setup fee must be paid *)
  else if negb (setup_fee_paid location) then
    (logEnforcementEvent now
       (location_log account location BLOCKED (Some "Location setup fee not paid") None None)
       logs,
     deny "SETUP_FEE_NOT_PAID"
       ("Setup fee required for location '" +:+ name location
        +:+ "'. Please complete payment."))
  (* Check 4: device limit per location *)
  else if currentDeviceCount >=? device_limit location then
    (logEnforcementEvent now
       (location_log account location BLOCKED
          (Some ("Device limit reached: " +:+ pretty currentDeviceCount +:+ "/"
                 +:+ pretty (device_limit location)))
          (Some currentDeviceCount) (Some (Limit (device_limit location))))
       logs,
     deny "DEVICE_LIMIT_REACHED"
       ("Location '" +:+ name location +:+ "' has reached its device limit ("
        +:+ pretty (device_limit location)
        +:+ "). Upgrade plan or add another location."))
  (* All checks passed *)
  else
    (logEnforcementEvent now
       (location_log account location ALLOWED None
          (Some currentDeviceCount) (Some (Limit (device_limit location))))
       logs,
     allow).

Definition canLocationAddDevice (now : Z) (account : Account) (location : Location)
    (currentDeviceCount : Z) (logs : Logs) : Logs * bool :=
  let '(logs, result) := enforceLocationPairing now account location currentDeviceCount logs in
  (logs, allowed result).

Definition getLocationRemainingSlots (location : Location) (currentDeviceCount : Z) : Z :=
  Z.max 0 (device_limit location - currentDeviceCount).

(** *** The gate as the specification words it

    Four named checks in the fixed order billing, location-active,
    setup-fee, device-limit; each either passes or fails with its code. *)
Inductive Check := CheckBilling | CheckLocationActive | CheckSetupFee | CheckDeviceLimit.

Definition gate_order : list Check :=
  [CheckBilling; CheckLocationActive; CheckSetupFee; CheckDeviceLimit].

Definition check_fails (account : Account) (location : Location) (count : Z) (c : Check)
    : bool :=
  match c with
  | CheckBilling => negb (includes ["paid"; "trialing"] (billing_status account))
  | CheckLocationActive => negb (active location)
  | CheckSetupFee => negb (setup_fee_paid location)
  | CheckDeviceLimit => negb (count <? device_limit location)
  end.

Definition check_code (c : Check) : string :=
  match c with
  | CheckBilling => "BILLING_INACTIVE"
  | CheckLocationActive => "LOCATION_INACTIVE"
  | CheckSetupFee => "SETUP_FEE_NOT_PAID"
  | CheckDeviceLimit => "DEVICE_LIMIT_REACHED"
  end.

(** The first check of [gate_order] that fails, if any. *)
Definition first_failing (account : Account) (location : Location) (count : Z)
    : option Check :=
  find (check_fails account location count) gate_order.

(** How many of the four checks fail. *)
Definition failing_count (account : Account) (location : Location) (count : Z) : nat :=
  length (filter (λ c, check_fails account location count c = true) gate_order).

(** [number | 'unlimited'], never below zero. *)
Definition getRemainingDeviceSlots (account : Account) (currentDeviceCount : Z) : MaxDevices :=
  match max_devices (plan account) with
  | unlimited => unlimited
  | Limit maxDevices => Limit (Z.max 0 (maxDevices - currentDeviceCount))
  end.

End Enforce.

(** ** src/devices/pair.ts *)
Module Pair.

Record DevicePairingRequest := {
  device_id : string;
  account_id : string;
  pairing_code : option string;
  device_name : option string
}.

(** The [Account] of pair.ts: that of enforce.ts with a required [id] and
    the number of devices already paired. *)
Record Account := {
  id : string;
  billing_status : string;
  plan : Enforce.Plan;
  device_count : Z
}.

(** The same object seen through the [Account] interface of enforce.ts. *)
Definition as_enforce (a : Account) : Enforce.Account :=
  {| Enforce.id := Some (id a);
     Enforce.plan := plan a;
     Enforce.billing_status := billing_status a |}.

(** [DevicePairingResponse = DevicePairingSuccess | DevicePairingError] *)
Inductive DevicePairingResponse :=
| DevicePairingSuccess (device_id account_id : string) (paired_at : Z) (device_name : string)
| DevicePairingError (error code message : string)
    (billing_status : option string) (help : option string).

Definition success (r : DevicePairingResponse) : bool :=
  match r with DevicePairingSuccess _ _ _ _ => true | DevicePairingError _ _ _ _ _ => false end.

Definition response_code (r : DevicePairingResponse) : option string :=
  match r with
  | DevicePairingSuccess _ _ _ _ => None
  | DevicePairingError _ c _ _ _ => Some c
  end.

(** [s.slice(0, 8)].  The source counts UTF-16 units, [substring] bytes:
    the two agree on device ids written in ASCII, and differ elsewhere. *)
Definition slice_0_8 (s : string) : string := String.substring 0 8 s.

(** [x || d] on an optional string: the empty string is falsy too. *)
Definition or_default (x : option string) (d : string) : string :=
  match x with
  | Some s => if String.eqb s "" then d else s
  | None => d
  end.

(** [billingCheck.error!]: the field of a blocked decision, where it is
    never absent. *)
Definition bang (x : option string) : string := default "undefined" x.

(** The clock readings are, in order, those of the log entries written and
    of [paired_at]. *)
Definition pairDevice (t1 t2 t3 t4 : Z) (req : DevicePairingRequest) (account : Account)
    (logs : Enforce.Logs) : Enforce.Logs * DevicePairingResponse :=
  (* billing gate *)
  let '(logs, billingCheck) := Enforce.enforceBillingForPairing t1 (as_enforce account) logs in
  if negb (Enforce.allowed billingCheck) then
    (logs,
     DevicePairingError (bang (Enforce.error billingCheck)) (bang (Enforce.code billingCheck))
       (bang (Enforce.message billingCheck))
       (Some (billing_status account))
       (Some "Visit /billing to activate your subscription"))
  else
    (* device limit gate: try { enforceDeviceLimit } catch (limitError) *)
    match Enforce.enforceDeviceLimit t2 (as_enforce account) (plus_one (device_count account))
            logs with
    | (logs, inr limitError_message) =>
        (Enforce.logEnforcementEvent t3
           {| Enforce.in_org_id := Some (id account);
              Enforce.in_location_id := None;
              Enforce.in_billing_status := billing_status account;
              Enforce.in_action := "PAIR_DEVICE";
              Enforce.in_result := Enforce.BLOCKED;
              Enforce.in_reason := Some limitError_message;
              Enforce.in_device_count := Some (device_count account);
              Enforce.in_max_devices := Some (Enforce.max_devices (plan account)) |} logs,
         DevicePairingError "DEVICE_LIMIT_EXCEEDED" "DEVICE_LIMIT_EXCEEDED"
           limitError_message
           (Some (billing_status account))
           (Some "Upgrade your plan at /billing to add more devices"))
    | (logs, inl _) =>
        (Enforce.logEnforcementEvent t3
           {| Enforce.in_org_id := Some (id account);
              Enforce.in_location_id := None;
              Enforce.in_billing_status := billing_status account;
              Enforce.in_action := "PAIR_DEVICE";
              Enforce.in_result := Enforce.ALLOWED;
              Enforce.in_reason := None;
              Enforce.in_device_count := Some (plus_one (device_count account));
              Enforce.in_max_devices := Some (Enforce.max_devices (plan account)) |} logs,
         DevicePairingSuccess (device_id req) (account_id req) t4
           (or_default (device_name req) ("Device " +:+ slice_0_8 (device_id req))))
    end.

(** The pre-flight predicate: no log is written. *)
Record Preflight := {
  allowed : bool;
  reason : option string;
  code : option string;
  pre_billing_status : string
}.

Definition canPairDevice (account : Account) : Preflight :=
  if negb (includes Enforce.ACTIVE_BILLING_STATUSES (billing_status account)) then
    {| allowed := false;
       code := Some "BILLING_INACTIVE";
       reason := Some "Active subscription required to pair new devices";
       pre_billing_status := billing_status account |}
  else
    match Enforce.max_devices (plan account) with
    | Enforce.Limit maxDevices =>
        if device_count account >=? maxDevices then
          {| allowed := false;
             code := Some "DEVICE_LIMIT_EXCEEDED";
             reason := Some ("Device limit reached (" +:+ pretty maxDevices
                             +:+ " devices on current plan)");
             pre_billing_status := billing_status account |}
        else
          {| allowed := true; code := None; reason := None;
             pre_billing_status := billing_status account |}
    | Enforce.unlimited =>
        {| allowed := true; code := None; reason := None;
           pre_billing_status := billing_status account |}
    end.

(** The code set of the pairing interface as the specification lists it. *)
Definition documented_codes : list string :=
  ["BILLING_INACTIVE"; "DEVICE_LIMIT_EXCEEDED"; "LOCATION_INACTIVE"; "SETUP_FEE_NOT_PAID"].

End Pair.

(** ** The Stripe webhook handler, the subscription status check and
    netlify/functions/billing.js *)
Module Resolver.

(** [type BillingStatus = 'unpaid' | 'paid' | 'past_due' | 'canceled' | 'trialing'] *)
Inductive BillingStatus := unpaid | paid | past_due | canceled | trialing.

Definition to_string (b : BillingStatus) : string :=
  match b with
  | unpaid => "unpaid"
  | paid => "paid"
  | past_due => "past_due"
  | canceled => "canceled"
  | trialing => "trialing"
  end.

(** The webhook handler's mapping.  The argument is the provider's status as it
    arrives at run time, any string; the [switch] compares it with each
    [case] label in turn. *)
Definition mapSubscriptionStatus (stripeStatus : string) : BillingStatus :=
  if String.eqb stripeStatus "active" then paid
  else if String.eqb stripeStatus "trialing" then trialing
  else if String.eqb stripeStatus "past_due" then past_due
  else if String.eqb stripeStatus "canceled"
       || String.eqb stripeStatus "unpaid"
       || String.eqb stripeStatus "incomplete"
       || String.eqb stripeStatus "incomplete_expired"
       || String.eqb stripeStatus "paused" then unpaid
  else unpaid.

(** The same mapping in the billing function of netlify/functions. *)
Definition mapSubscriptionStatus_netlify (status : string) : BillingStatus :=
  if String.eqb status "active" then paid
  else if String.eqb status "trialing" then trialing
  else if String.eqb status "past_due" then past_due
  else unpaid.

(** What [stripe.subscriptions.list] can give [getAccountBillingStatus]:
    a failure, or the (at most one) subscription's status. *)
Inductive ListOutcome := ListThrows | ListData (statuses : list string).

(** The read-only subscription status check; its [BillingStatus] has no
    [trialing] and it reports a trial as [paid]. *)
Definition getAccountBillingStatus (subs : ListOutcome) : BillingStatus :=
  match subs with
  | ListThrows => unpaid
  | ListData [] => unpaid
  | ListData (sub_status :: _) =>
      if String.eqb sub_status "active" || String.eqb sub_status "trialing" then paid
      else if String.eqb sub_status "past_due" then past_due
      else if String.eqb sub_status "canceled" || String.eqb sub_status "unpaid" then unpaid
      else unpaid
  end.

(** The mapping table of the specification. *)
Definition contract : list (string * BillingStatus) :=
  [("active", paid); ("trialing", trialing); ("past_due", past_due);
   ("canceled", unpaid); ("unpaid", unpaid); ("incomplete", unpaid);
   ("incomplete_expired", unpaid); ("paused", unpaid)].

Definition recognized (s : string) : bool := includes (contract.*1) s.

End Resolver.

(** ** The MOSM heartbeat API (GET /api/mosm/health): the health summary *)
Module Registry.

(** The [status] column:
    [CHECK (status IN ('online', 'degraded', 'offline', 'unknown'))]. *)
Inductive Status := Online | Degraded | Offline | Unknown.

Global Instance Status_eq_dec : EqDecision Status.
Proof. solve_decision. Defined.

(** A row of [service_registry] joined with its location's name, as the
    query of GET /health selects it.  [last_heartbeat] is a nullable
    column. *)
Record Service := {
  service_id : string;
  location_id : string;
  status : Status;
  version : option string;
  last_heartbeat : option Z;
  locations_name : option string
}.

Definition HEARTBEAT_TIMEOUT_MS : Z := 120000.

(** The four counters, at the top of the summary and per service. *)
Record Counts := {
  online : nat;
  degraded : nat;
  offline : nat;
  unknown : nat
}.

Definition zero : Counts := {| online := 0; degraded := 0; offline := 0; unknown := 0 |}.

(** [counts[status]] *)
Definition get (st : Status) (c : Counts) : nat :=
  match st with
  | Online => online c
  | Degraded => degraded c
  | Offline => offline c
  | Unknown => unknown c
  end.

(** [counts[status]++] *)
Definition incr (st : Status) (c : Counts) : Counts :=
  match st with
  | Online => {| online := S (online c); degraded := degraded c;
                 offline := offline c; unknown := unknown c |}
  | Degraded => {| online := online c; degraded := S (degraded c);
                   offline := offline c; unknown := unknown c |}
  | Offline => {| online := online c; degraded := degraded c;
                  offline := S (offline c); unknown := unknown c |}
  | Unknown => {| online := online c; degraded := degraded c;
                  offline := offline c; unknown := S (unknown c) |}
  end.

Record ServiceView := {
  service : string;
  view_status : Status;
  view_version : option string;
  lastHeartbeat : option Z
}.

Record LocationHealth := {
  name : string;
  services : list ServiceView
}.

(** [summary]; its four top-level counters are the [counts] field.
    [byService] and [byLocation] are plain objects in the source and maps
    here: a service or location id that names an inherited property of an
    object ([constructor], [toString]) is read differently by the source;
    the four counters and [total] do not depend on them. *)
Record Summary := {
  total : nat;
  counts : Counts;
  byService : gmap string Counts;
  byLocation : gmap string LocationHealth
}.

(** [new Date(service.last_heartbeat).getTime()]; [new Date(null)] is the
    epoch. *)
Definition getTime (t : option Z) : Z := default 0 t.

Definition isStale (now : Z) (s : Service) : bool :=
  now - getTime (last_heartbeat s) >? HEARTBEAT_TIMEOUT_MS.

Definition effectiveStatus (now : Z) (s : Service) : Status :=
  if isStale now s then Offline else status s.

(** [x || 'Unknown'] *)
Definition or_unknown (x : option string) : string :=
  match x with
  | Some s => if String.eqb s "" then "Unknown" else s
  | None => "Unknown"
  end.

(** One turn of the [for ... of] loop. *)
Definition step (now : Z) (summary : Summary) (s : Service) : Summary :=
  let eff := effectiveStatus now s in
  let counts := incr eff (counts summary) in
  let byService :=
    match byService summary !! service_id s with
    | Some _ => byService summary
    | None => <[service_id s := zero]> (byService summary)
    end in
  let byService := alter (incr eff) (service_id s) byService in
  let locId := location_id s in
  let byLocation :=
    match byLocation summary !! locId with
    | Some _ => byLocation summary
    | None => <[locId := {| name := or_unknown (locations_name s); services := [] |}]>
                (byLocation summary)
    end in
  let byLocation :=
    alter (λ l, {| name := name l;
                   services := services l ++
                     [{| service := service_id s; view_status := eff;
                         view_version := version s;
                         lastHeartbeat := last_heartbeat s |}] |})
          locId byLocation in
  {| total := total summary; counts := counts;
     byService := byService; byLocation := byLocation |}.

(** The body of GET /health once the rows are read: [now = Date.now()]. *)
Definition getHealthSummary (now : Z) (services : list Service) : Summary :=
  foldl (step now)
    {| total := length services; counts := zero; byService := ∅; byLocation := ∅ |}
    services.

(** How many entries a group of counters accounts for. *)
Definition counted (c : Counts) : nat := (online c + degraded c + offline c + unknown c)%nat.

(** *** The rule as the specification words it *)
Definition STALENESS_THRESHOLD : Z := 2 * 60 * 1000.

(** How many entries are reported under [st]: an entry past the threshold
    counts as offline and nowhere else, any other under its stored
    status. *)
Definition reported_under (now : Z) (st : Status) (s : Service) : bool :=
  if bool_decide (now - default 0 (last_heartbeat s) > STALENESS_THRESHOLD)
  then bool_decide (st = Offline)
  else bool_decide (st = status s).

Definition expected_count (now : Z) (st : Status) (services : list Service) : nat :=
  length (filter (λ s, reported_under now st s = true) services).

End Registry.

(** ** services/rollouts/rolloutsService.js over the tables of
    supabase/control-plane-schema.sql

    Where the service reads the [error] of a statement and throws, the
    store is taken to be reachable: such a statement fails only through a
    [CHECK] constraint of a modelled column or through [.single()], which
    reports an error unless exactly one row comes back and then leaves the
    tables as they were (the request is rolled back).  Where the service
    does not read the [error], the store's answer is a parameter
    ([Faults]): a refused statement changes nothing and the service goes
    on. *)
Module Rollouts.

(** What an [async] function settles to. *)
Inductive Outcome (A : Type) := Returns (a : A) | Throws.
Arguments Returns {A} a.
Arguments Throws {A}.

(** A row of [rollouts]; [id] is the primary key. *)
Record Rollout := {
  id : Z;
  name : string;
  organization_id : string;
  rollout_type : string;
  target_locations : list string;
  payload : string;
  status : string;
  scheduled_at : option Z;
  started_at : option Z;
  completed_at : option Z;
  created_by : option string;
  created_at : Z;
  updated_at : Z
}.

(** A row of [rollout_executions]. *)
Record Execution := {
  exec_id : Z;
  rollout_id : Z;
  location_id : string;
  exec_status : string;
  exec_started_at : option Z;
  exec_completed_at : option Z;
  error_message : option string;
  exec_created_at : Z
}.

(** The two tables and the source of fresh keys ([uuid_generate_v4()]). *)
Record DB := {
  rollouts : gmap Z Rollout;
  rollout_executions : list Execution;
  next_id : Z
}.

(** The answers of the store to the three statements whose [error] the
    service never reads.  A flag set means the statement is refused (a
    foreign key of [rollout_executions.location_id], a lost connection):
    nothing is written, nothing is thrown. *)
Record Faults := {
  (* createRollout: [.from('rollout_executions').insert(executions)] *)
  executions_insert_refused : bool;
  (* checkRolloutCompletion: [.from('rollout_executions').select('status')]
     comes back with [data] null *)
  executions_select_fails : bool;
  (* checkRolloutCompletion, rollbackRollout: [.from('rollouts').update(...)] *)
  rollouts_update_refused : bool
}.

(** The store accepts every statement. *)
Definition no_faults : Faults :=
  {| executions_insert_refused := false; executions_select_fails := false;
     rollouts_update_refused := false |}.

Definition ROLLOUT_TYPES : list string := ["menu_activation"; "config_update"; "feature_toggle"].
Definition ROLLOUT_STATUSES : list string :=
  ["pending"; "scheduled"; "in_progress"; "completed"; "failed"; "rolled_back"].
Definition EXECUTION_STATUSES : list string := ["pending"; "in_progress"; "completed"; "failed"].

(** [.single()] *)
Definition single {A} (rows : list A) : Outcome A :=
  match rows with
  | [r] => Returns r
  | _ => Throws
  end.

Definition set_status (s : string) (started completed : option Z) (updated : Z) (r : Rollout)
    : Rollout :=
  {| id := id r; name := name r; organization_id := organization_id r;
     rollout_type := rollout_type r; target_locations := target_locations r;
     payload := payload r; status := s; scheduled_at := scheduled_at r;
     started_at := started; completed_at := completed;
     created_by := created_by r; created_at := created_at r; updated_at := updated |}.

(** [targetLocations.map(locId => ({ rollout_id, location_id: locId, status: 'pending' }))]
    inserted with fresh keys from [k] on. *)
Fixpoint new_executions (now : Z) (rid : Z) (k : Z) (targetLocations : list string)
    : list Execution :=
  match targetLocations with
  | [] => []
  | locId :: rest =>
      {| exec_id := k; rollout_id := rid; location_id := locId; exec_status := "pending";
         exec_started_at := None; exec_completed_at := None; error_message := None;
         exec_created_at := now |} :: new_executions now rid (k + 1) rest
  end.

Definition createRollout (f : Faults) (now : Z) (name organizationId rolloutType : string)
    (targetLocations : list string) (payload : string) (scheduledAt : option Z)
    (createdBy : option string) (db : DB) : DB * Outcome Rollout :=
  if negb (includes ROLLOUT_TYPES rolloutType) then (db, Throws)
  else
    let data :=
      {| id := next_id db; name := name; organization_id := organizationId;
         rollout_type := rolloutType; target_locations := targetLocations;
         payload := payload;
         status := match scheduledAt with Some _ => "scheduled" | None => "pending" end;
         scheduled_at := scheduledAt; started_at := None; completed_at := None;
         created_by := createdBy; created_at := now; updated_at := now |} in
    let db :=
      {| rollouts := <[id data := data]> (rollouts db);
         rollout_executions := rollout_executions db;
         next_id := next_id db + 1 |} in
    (* Create execution records for each location; the result of the
       insert is not read *)
    let db :=
      if (0 <? Z.of_nat (length targetLocations)) then
        if executions_insert_refused f then db
        else
          {| rollouts := rollouts db;
             rollout_executions :=
               rollout_executions db
               ++ new_executions now (id data) (next_id db) targetLocations;
             next_id := next_id db + Z.of_nat (length targetLocations) |}
      else db in
    (db, Returns data).

(** [.from('rollouts').select(...).eq('id', rolloutId).single()] with the
    embedded [rollout_executions]. *)
Definition executions_of (rolloutId : Z) (db : DB) : list Execution :=
  filter (λ e, rollout_id e = rolloutId) (rollout_executions db).

Definition getRollout (rolloutId : Z) (db : DB) : Outcome (Rollout * list Execution) :=
  match rollouts db !! rolloutId with
  | Some r => Returns (r, executions_of rolloutId db)
  | None => Throws
  end.

Definition startRollout (now : Z) (rolloutId : Z) (db : DB) : DB * Outcome Rollout :=
  (* .eq('id', rolloutId).eq('status', 'pending'): only start pending rollouts *)
  match rollouts db !! rolloutId with
  | Some r =>
      if String.eqb (status r) "pending" then
        let data := set_status "in_progress" (Some now) (completed_at r) now r in
        ({| rollouts := <[rolloutId := data]> (rollouts db);
            rollout_executions := rollout_executions db;
            next_id := next_id db |},
         Returns data)
      else (db, Throws)
  | None => (db, Throws)
  end.

(** The [updates] object applied to one execution row. *)
Definition apply_updates (now : Z) (new_status : string) (errorMessage : option string)
    (e : Execution) : Execution :=
  {| exec_id := exec_id e; rollout_id := rollout_id e; location_id := location_id e;
     exec_status := new_status;
     exec_started_at :=
       if String.eqb new_status "in_progress" then Some now else exec_started_at e;
     exec_completed_at :=
       if String.eqb new_status "in_progress" then exec_completed_at e
       else if String.eqb new_status "completed" || String.eqb new_status "failed"
       then Some now else exec_completed_at e;
     error_message := errorMessage;
     exec_created_at := exec_created_at e |}.

Definition targets (rolloutId : Z) (locationId : string) (e : Execution) : bool :=
  bool_decide (rollout_id e = rolloutId) && String.eqb (location_id e) locationId.

Definition is_terminal (e : Execution) : bool :=
  String.eqb (exec_status e) "completed" || String.eqb (exec_status e) "failed".

Definition is_failed (e : Execution) : bool := String.eqb (exec_status e) "failed".

(** [t_done] and [t_upd] are the two [new Date()] of the update.  Neither
    the [error] of the read nor that of the update is looked at. *)
Definition checkRolloutCompletion (f : Faults) (t_done t_upd : Z) (rolloutId : Z) (db : DB)
    : DB :=
  (* if (!executions) return; *)
  if executions_select_fails f then db
  else
    let executions := executions_of rolloutId db in
    let allComplete := forallb is_terminal executions in
    if allComplete then
      let hasFailure := existsb is_failed executions in
      let finalStatus := if hasFailure then "failed" else "completed" in
      if rollouts_update_refused f then db
      else
        {| rollouts :=
             alter (λ r, set_status finalStatus (started_at r) (Some t_done) t_upd r)
                   rolloutId (rollouts db);
           rollout_executions := rollout_executions db;
           next_id := next_id db |}
    else db.

Definition updateExecutionStatus (f : Faults) (now t_done t_upd : Z) (rolloutId : Z)
    (locationId : string) (new_status : string) (errorMessage : option string) (db : DB)
    : DB * Outcome Execution :=
  let matched := filter (λ e, targets rolloutId locationId e = true) (rollout_executions db) in
  if negb (includes EXECUTION_STATUSES new_status) then (db, Throws)
  else
    match single matched with
    | Throws => (db, Throws)
    | Returns e =>
        let data := apply_updates now new_status errorMessage e in
        let db :=
          {| rollouts := rollouts db;
             rollout_executions :=
               (λ e, if targets rolloutId locationId e
                     then apply_updates now new_status errorMessage e else e)
               <$> rollout_executions db;
             next_id := next_id db |} in
        (* Check if all executions are complete *)
        let db := checkRolloutCompletion f t_done t_upd rolloutId db in
        (db, Returns data)
    end.

Definition cancelRollout (now : Z) (rolloutId : Z) (db : DB) : DB * Outcome Rollout :=
  match rollouts db !! rolloutId with
  | Some r =>
      if includes ["pending"; "scheduled"] (status r) then
        let data := set_status "rolled_back" (started_at r) (completed_at r) now r in
        ({| rollouts := <[rolloutId := data]> (rollouts db);
            rollout_executions := rollout_executions db;
            next_id := next_id db |},
         Returns data)
      else (db, Throws)
  | None => (db, Throws)
  end.

(** [.eq('status', 'scheduled').lte('scheduled_at', now)]; a null
    [scheduled_at] satisfies no comparison. *)
Definition is_due (now : Z) (r : Rollout) : bool :=
  String.eqb (status r) "scheduled" &&
  match scheduled_at r with
  | Some t => t <=? now
  | None => false
  end.

Definition getDueScheduledRollouts (now : Z) (db : DB) : list Rollout :=
  filter (λ r, is_due now r = true) (map_to_list (rollouts db)).*2.

(** Keys handed out so far lie below [next_id]: each rollout is stored under
    its own [id], and no execution refers to a key not yet issued. *)
Definition well_keyed (db : DB) : Prop :=
  (∀ k r, rollouts db !! k = Some r → id r = k ∧ k < next_id db)
  ∧ (∀ e, e ∈ rollout_executions db → rollout_id e < next_id db).

(** Terminal rollout statuses of the state machine. *)
Definition terminal_status (s : string) : bool :=
  includes ["completed"; "failed"; "rolled_back"] s.

(** *** The aggregation rule as the specification words it *)
Definition Terminal (e : Execution) : Prop :=
  exec_status e = "completed" ∨ exec_status e = "failed".

Definition Failed (e : Execution) : Prop := exec_status e = "failed".

(** *** Sample data *)
Definition empty_db : DB := {| rollouts := ∅; rollout_executions := []; next_id := 1 |}.

(** A rollout over three locations, started. *)
Definition db3 : DB :=
  let '(db, _) := createRollout no_faults 1000 "Menu v2" "org-1" "menu_activation"
                    ["L1"; "L2"; "L3"] "{}" None None empty_db in
  fst (startRollout 1001 1 db).

(** A rollout created over no location at all. *)
Definition created_empty : DB * Outcome Rollout :=
  createRollout no_faults 1000 "Nowhere" "org-1" "menu_activation" [] "{}" None None empty_db.

(** A scheduled rollout, due at time 5000. *)
Definition db_sched : DB :=
  fst (createRollout no_faults 1000 "Night menu" "org-1" "menu_activation" ["L1"] "{}"
         (Some 5000) None empty_db).

Section Rollback.

(** [{ ...original.payload, is_rollback: true, original_rollout_id: rolloutId }].
    The payload is opaque JSON in this model, so the spread is a
    parameter. *)
Variable rollback_payload : string → Z → string.

(** [t_mark] is the clock of the update of the original, [t_create] the
    store's clock at the insertion of the new rollout.  The update that
    marks the original is awaited without its [error] being read. *)
Definition rollbackRollout (f : Faults) (t_mark t_create : Z) (rolloutId : Z)
    (createdBy : option string) (db : DB) : DB * Outcome Rollout :=
  match getRollout rolloutId db with
  | Throws => (db, Throws)
  | Returns (original, _) =>
      (* Mark original as rolled back *)
      let db :=
        if rollouts_update_refused f then db
        else
          {| rollouts :=
               alter (λ r, set_status "rolled_back" (started_at r) (completed_at r) t_mark r)
                     rolloutId (rollouts db);
             rollout_executions := rollout_executions db;
             next_id := next_id db |} in
      (* Create rollback rollout *)
      createRollout f t_create ("Rollback: " +:+ name original) (organization_id original)
        (rollout_type original) (target_locations original)
        (rollback_payload (payload original) rolloutId) None createdBy db
  end.

End Rollback.

(** An execution report: the location, the status reported for it, and
    the store's answers while the report is handled. *)
Record Report := {
  rep_location : string;
  rep_status : string;
  rep_faults : Faults
}.

(** Execution reports arriving one after the other, the first at clock
    [t], each a tick after the one before. *)
Fixpoint report_all (t : Z) (rolloutId : Z) (reports : list Report) (db : DB) : DB :=
  match reports with
  | [] => db
  | rep :: rest =>
      report_all (t + 1) rolloutId rest
        (updateExecutionStatus (rep_faults rep) t t t rolloutId (rep_location rep)
           (rep_status rep) None db).1
  end.

(** What one report does to an execution row of the rollout it names. *)
Definition reported (t : Z) (locationId new_status : string) (e : Execution) : Execution :=
  if String.eqb (location_id e) locationId then apply_updates t new_status None e else e.

(** The executions of a rollout after successive reports, the first at
    clock [t]. *)
Fixpoint apply_reports (t : Z) (reports : list Report) (es : list Execution)
    : list Execution :=
  match reports with
  | [] => es
  | rep :: rest =>
      apply_reports (t + 1) rest (reported t (rep_location rep) (rep_status rep) <$> es)
  end.

(** The store accepts every statement of the report. *)
Definition accepted (rep : Report) : Prop :=
  executions_select_fails (rep_faults rep) = false
  ∧ rollouts_update_refused (rep_faults rep) = false.

(** Reports that name executions of the rollout, with statuses the column
    admits. *)
Definition well_addressed (rid : Z) (db : DB) (reports : list Report) : Prop :=
  Forall (λ rep, rep_location rep ∈ location_id <$> executions_of rid db
                 ∧ includes EXECUTION_STATUSES (rep_status rep) = true) reports.

(** Every stored rollout has one of the three rollout types. *)
Definition typed (db : DB) : Prop :=
  ∀ k r, rollouts db !! k = Some r → rollout_type r ∈ ROLLOUT_TYPES.

(** The same with the executions of L1 and L2 completed. *)
Definition db3_two_done : DB :=
  let db := (updateExecutionStatus no_faults 1002 1002 1002 1 "L1" "completed" None db3).1 in
  (updateExecutionStatus no_faults 1003 1003 1003 1 "L2" "completed" None db).1.

End Rollouts.

(** ** netlify/functions/mosm-events.js: POST /events *)
Module Events.

(** JavaScript values as [JSON.parse] builds them, and [undefined], which
    reading an absent property yields.  An object lists its own properties,
    each key once. *)
#[warnings="-register-all"]
Inductive value :=
| VUndefined
| VNull
| VBool (b : bool)
| VNum (n : Z)
| VStr (s : string)
| VArr (items : list value)
| VObj (props : list (string * value)).

Fixpoint lookup_prop (k : string) (props : list (string * value)) : value :=
  match props with
  | [] => VUndefined
  | (k', v) :: rest => if String.eqb k' k then v else lookup_prop k rest
  end.

Definition nullish (e : value) : bool :=
  match e with
  | VUndefined | VNull => true
  | _ => false
  end.

(** [e.k] on a value that is neither [null] nor [undefined], for the
    property names this handler reads: only an object has them. *)
Definition prop (e : value) (k : string) : value :=
  match e with
  | VObj props => lookup_prop k props
  | _ => VUndefined
  end.

(** [e.k]; [None] is the [TypeError] of reading a property of [null] or
    [undefined]. *)
Definition get (e : value) (k : string) : option value :=
  if nullish e then None else Some (prop e k).

(** [!!v] *)
Definition truthy (v : value) : bool :=
  match v with
  | VUndefined | VNull => false
  | VBool b => b
  | VNum n => negb (n =? 0)
  | VStr s => negb (String.eqb s "")
  | VArr _ | VObj _ => true
  end.

(** [v || d] *)
Definition or_else (v d : value) : value := if truthy v then v else d.

(** [xs.includes(v)] for an array of strings. *)
Definition includes_value (xs : list string) (v : value) : bool :=
  match v with
  | VStr s => includes xs s
  | _ => false
  end.

Definition validServices : list string := ["modos-menus"; "pos-lite"; "kds"; "mosm-cloud"].

(** [xs.join(', ')] *)
Fixpoint join (xs : list string) : string :=
  match xs with
  | [] => ""
  | [x] => x
  | x :: rest => x +:+ ", " +:+ join rest
  end.

(** A row handed to [event_log]. *)
Record LoggedEvent := {
  event_type : value;
  source_service : value;
  location_id : value;
  organization_id : value;
  actor_id : value;
  resource_type : value;
  resource_id : value;
  payload : value;
  timestamp : value
}.

Record ItemError := {
  index : nat;
  error : string
}.

Definition MISSING_FIELDS : string :=
  "Missing required fields: event_type, source_service, location_id".

Definition INVALID_SERVICE : string :=
  "Invalid source_service. Must be one of: " +:+ join validServices.

(** The row built from an entry that passed both checks. *)
Definition to_row (now_iso : string) (e : value) : LoggedEvent :=
  {| event_type := prop e "event_type";
     source_service := prop e "source_service";
     location_id := prop e "location_id";
     organization_id := or_else (prop e "organization_id") VNull;
     actor_id := or_else (prop e "actor_id") VNull;
     resource_type := or_else (prop e "resource_type") VNull;
     resource_id := or_else (prop e "resource_id") VNull;
     payload := or_else (prop e "payload") (VObj []);
     timestamp := or_else (prop e "timestamp") (VStr now_iso) |}.

(** What one turn of the validation loop does with [events[i]]. *)
Inductive Verdict :=
| Crash
| Reject (err : ItemError)
| Accept (row : LoggedEvent).

Definition validate_one (now_iso : string) (i : nat) (e : value) : Verdict :=
  match get e "event_type" with
  | None => Crash
  | Some event_type =>
      if negb (truthy event_type)
         || negb (truthy (prop e "source_service"))
         || negb (truthy (prop e "location_id"))
      then Reject {| index := i; error := MISSING_FIELDS |}
      else if negb (includes_value validServices (prop e "source_service"))
      then Reject {| index := i; error := INVALID_SERVICE |}
      else Accept (to_row now_iso e)
  end.

(** The [for (let i = 0; i < events.length; i++)] loop from index [i] on,
    pushing to [validEvents] and [errors]; [None] when a turn throws. *)
Fixpoint validate (now_iso : string) (i : nat) (events : list value)
    (validEvents : list LoggedEvent) (errors : list ItemError)
    : option (list LoggedEvent * list ItemError) :=
  match events with
  | [] => Some (validEvents, errors)
  | e :: rest =>
      match validate_one now_iso i e with
      | Crash => None
      | Reject err => validate now_iso (S i) rest validEvents (errors ++ [err])
      | Accept row => validate now_iso (S i) rest (validEvents ++ [row]) errors
      end
  end.

Inductive Response :=
| InvalidServiceKey                                        (* 401 *)
| NoValidEvents (errors : list ItemError)                  (* 400 *)
| FailedToLogEvents                                        (* 500, the insert failed *)
| Logged (logged : nat) (errors : option (list ItemError)) (* 201 *)
| Thrown.                                                  (* 500, the outer catch *)

Definition statusCode (r : Response) : Z :=
  match r with
  | InvalidServiceKey => 401
  | NoValidEvents _ => 400
  | FailedToLogEvents => 500
  | Logged _ _ => 201
  | Thrown => 500
  end.

(** POST /events.  [service_key_ok] is [validateServiceKey(event)]; [body]
    is [JSON.parse(event.body || '{}')], [None] when it throws;
    [insert_error] tells whether the store refuses the insert; [event_log]
    is the table. *)
Definition post_events (service_key_ok : bool) (body : option value) (now_iso : string)
    (insert_error : bool) (event_log : list LoggedEvent)
    : list LoggedEvent * Response :=
  if negb service_key_ok then (event_log, InvalidServiceKey)
  else
    match body with
    | None => (event_log, Thrown)
    | Some body =>
        (* Support single event or batch *)
        let events := match body with VArr items => items | _ => [body] end in
        match validate now_iso 0 events [] [] with
        | None => (event_log, Thrown)
        | Some (validEvents, errors) =>
            if (length validEvents =? 0)%nat then (event_log, NoValidEvents errors)
            else if insert_error then (event_log, FailedToLogEvents)
            else
              (event_log ++ validEvents,
               Logged (length validEvents)
                 (if (0 <? length errors)%nat then Some errors else None))
        end
    end.

(** *** The validation rule as the specification words it *)

(** The entry has no field [k]. *)
Definition missing (k : string) (e : value) : Prop :=
  match e with
  | VObj props => k ∉ props.*1
  | _ => True
  end.

(** The entry's [source_service] is none of the recognized services. *)
Definition unrecognized_service (e : value) : Prop :=
  match e with
  | VObj props => ∀ s, lookup_prop "source_service" props = VStr s → s ∉ validServices
  | _ => True
  end.

Definition invalid_entry (e : value) : Prop :=
  missing "event_type" e ∨ missing "source_service" e ∨ missing "location_id" e
  ∨ unrecognized_service e.

(** An object whose three required fields hold something and whose
    [source_service] is a recognized service. *)
Definition valid_entry (e : value) : bool :=
  match e with
  | VObj props =>
      truthy (lookup_prop "event_type" props)
      && truthy (lookup_prop "location_id" props)
      && includes_value validServices (lookup_prop "source_service" props)
  | _ => false
  end.

(** *** Sample data *)
Definition good_event : value :=
  VObj [("event_type", VStr "order.created"); ("source_service", VStr "pos-lite");
        ("location_id", VStr "loc-01")].

Definition no_type_event : value :=
  VObj [("source_service", VStr "pos-lite"); ("location_id", VStr "loc-01")].

Definition bad_service_event : value :=
  VObj [("event_type", VStr "order.created"); ("source_service", VStr "printer");
        ("location_id", VStr "loc-01")].

(** A row of [event_log] as the ingestion accepts it: a type and a location
    that hold something, and a recognized source service. *)
Definition well_formed_row (r : LoggedEvent) : Prop :=
  truthy (event_type r) = true
  ∧ truthy (location_id r) = true
  ∧ ∃ s, source_service r = VStr s ∧ s ∈ validServices.

End Events.

(** ** Sample accounts and locations, after tests/enforcement-inline.test.js *)
Module Samples.

Definition starter_plan : Enforce.Plan := {| Enforce.max_devices := Enforce.Limit 3 |}.

Definition unpaidAccount : Enforce.Account :=
  {| Enforce.id := Some "org-unpaid-001"; Enforce.plan := starter_plan;
     Enforce.billing_status := "unpaid" |}.

Definition paidAccount : Enforce.Account :=
  {| Enforce.id := Some "org-paid-001"; Enforce.plan := starter_plan;
     Enforce.billing_status := "paid" |}.

(** An inactive location whose setup fee is unpaid and which is full. *)
Definition closedLocation : Enforce.Location :=
  {| Enforce.loc_id := "loc-closed"; Enforce.organization_id := "org-unpaid-001";
     Enforce.name := "Closed"; Enforce.plan_tier := Enforce.starter;
     Enforce.device_limit := 3; Enforce.active := false; Enforce.setup_fee_paid := false |}.

(** An active, paid-up location of three device slots. *)
Definition openLocation : Enforce.Location :=
  {| Enforce.loc_id := "loc-open"; Enforce.organization_id := "org-paid-001";
     Enforce.name := "Open"; Enforce.plan_tier := Enforce.starter;
     Enforce.device_limit := 3; Enforce.active := true; Enforce.setup_fee_paid := true |}.

Definition atLimitAccount : Pair.Account :=
  {| Pair.id := "org-limit-001"; Pair.billing_status := "paid";
     Pair.plan := starter_plan; Pair.device_count := 3 |}.

Definition request : Pair.DevicePairingRequest :=
  {| Pair.device_id := "device-0001-abcd"; Pair.account_id := "org-limit-001";
     Pair.pairing_code := None; Pair.device_name := None |}.

Definition beat : Heartbeat.HeartbeatPayload :=
  {| Heartbeat.device_id := "device-0001-abcd"; Heartbeat.status := Heartbeat.playing;
     Heartbeat.uptime := 3600; Heartbeat.current_board := None;
     Heartbeat.last_seen := "2026-01-01T00:00:00.000Z" |}.

Definition info : Heartbeat.AccountInfo :=
  {| Heartbeat.billing_status := "paid"; Heartbeat.plan := "starter";
     Heartbeat.device_count := 2 |}.

(** An entry stored as online whose last heartbeat is three minutes old at
    time [200000]. *)
Definition staleOnline : Registry.Service :=
  {| Registry.service_id := "modos-menus"; Registry.location_id := "L1";
     Registry.status := Registry.Online; Registry.version := Some "1.0.0";
     Registry.last_heartbeat := Some 20000; Registry.locations_name := Some "Main St" |}.

Definition freshDegraded : Registry.Service :=
  {| Registry.service_id := "kds"; Registry.location_id := "L1";
     Registry.status := Registry.Degraded; Registry.version := None;
     Registry.last_heartbeat := Some 190000; Registry.locations_name := Some "Main St" |}.

End Samples.

(** ** The Stripe webhook handler: provider events synced into
    [organizations] (columns of supabase/migrations/001_add_billing_columns.sql)

    Signature verification is the provider library's; it is a parameter
    here.  An update fails when the store is unreachable ([store_error]) or
    when a row it touches would break the [CHECK] on [current_plan]. *)
Module Webhook.

(** A row of [organizations], billing columns. *)
Record Organization := {
  id : string;
  stripe_customer_id : option string;
  subscription_id : option string;
  subscription_status : option string;
  billing_status : string;
  current_plan : string;
  current_period_end : option Z;
  updated_at : Z
}.

(** [CHECK (current_plan IN ('starter', 'pro', 'enterprise'))] *)
Definition PLANS : list string := ["starter"; "pro"; "enterprise"].

(** [string | object | null]: a Stripe reference, bare or expanded. *)
Inductive Expandable := Id (s : string) | Expanded (id : string) | Null.

(** [typeof x === 'string' ? x : x?.id] *)
Definition reference_id (x : Expandable) : option string :=
  match x with
  | Id s => Some s
  | Expanded i => Some i
  | Null => None
  end.

(** [metadata?.key] *)
Fixpoint assoc (k : string) (kvs : list (string * string)) : option string :=
  match kvs with
  | [] => None
  | (k', v) :: rest => if String.eqb k' k then Some v else assoc k rest
  end.

Definition metadata_get (metadata : option (list (string * string))) (k : string)
    : option string :=
  match metadata with
  | Some kvs => assoc k kvs
  | None => None
  end.

(** [x || d] on an optional string. *)
Definition or_string (x : option string) (d : string) : string :=
  match x with
  | Some s => if String.eqb s "" then d else s
  | None => d
  end.

(** [!x] on an optional string. *)
Definition falsy (x : option string) : bool :=
  match x with
  | Some s => String.eqb s ""
  | None => true
  end.

Record CheckoutSession := {
  session_metadata : option (list (string * string));
  session_customer : Expandable;
  session_subscription : Expandable
}.

Record Subscription := {
  sub_id : string;
  sub_customer : Expandable;
  sub_status : string;
  sub_metadata : option (list (string * string));
  (* seconds since the epoch; [None] when the object carries no such field *)
  sub_current_period_end : option Z
}.

Record Invoice := { invoice_customer : Expandable }.

(** [event.type] with [event.data.object]. *)
Inductive StripeEvent :=
| CheckoutSessionCompleted (session : CheckoutSession)
| SubscriptionCreated (subscription : Subscription)
| SubscriptionUpdated (subscription : Subscription)
| SubscriptionDeleted (subscription : Subscription)
| InvoicePaymentFailed (invoice : Invoice)
| Unhandled (type : string).

(** [.update(changes).eq(column, value)]: the rows matched are rewritten;
    [None] is the store's error. *)
Definition update_where (store_error : bool) (matches : Organization → bool)
    (change : Organization → Organization) (orgs : list Organization)
    : option (list Organization) :=
  if store_error then None
  else if forallb (λ o, negb (matches o) || includes PLANS (current_plan (change o))) orgs
  then Some ((λ o, if matches o then change o else o) <$> orgs)
  else None.

(** An [undefined] value is left out of the update. *)
Definition set_if {A} (new : option A) (old : option A) : option A :=
  match new with
  | Some v => Some v
  | None => old
  end.

(** Each handler returns the table, or throws ([None]). *)
Definition handleCheckoutCompleted (now : Z) (store_error : bool) (session : CheckoutSession)
    (orgs : list Organization) : option (list Organization) :=
  let organizationId := metadata_get (session_metadata session) "organization_id" in
  let plan := or_string (metadata_get (session_metadata session) "plan") "starter" in
  let customerId := reference_id (session_customer session) in
  let subscriptionId := reference_id (session_subscription session) in
  match organizationId with
  | Some organizationId =>
      if String.eqb organizationId "" then Some orgs
      else
        update_where store_error (λ o, String.eqb (id o) organizationId)
          (λ o, {| id := id o;
                   stripe_customer_id := set_if customerId (stripe_customer_id o);
                   subscription_id := set_if subscriptionId (subscription_id o);
                   subscription_status := subscription_status o;
                   billing_status := "paid";
                   current_plan := plan;
                   current_period_end := current_period_end o;
                   updated_at := now |}) orgs
  | None => Some orgs
  end.

(** The largest time value of a [Date], in milliseconds. *)
Definition MAX_TIME_VALUE : Z := 8640000000000000.

(** [new Date(seconds * 1000).toISOString()], the instant in milliseconds
    since the epoch.  [None] is the [RangeError] it throws when the time
    value is not a number (the field is absent) or is beyond
    [MAX_TIME_VALUE] in magnitude. *)
Definition toISOString (seconds : option Z) : option Z :=
  match seconds with
  | Some s =>
      if (- MAX_TIME_VALUE <=? s * 1000) && (s * 1000 <=? MAX_TIME_VALUE)
      then Some (s * 1000) else None
  | None => None
  end.

Definition of_customer (customerId : string) (o : Organization) : bool :=
  match stripe_customer_id o with
  | Some c => String.eqb c customerId
  | None => false
  end.

Definition handleSubscriptionChange (now : Z) (store_error : bool) (subscription : Subscription)
    (orgs : list Organization) : option (list Organization) :=
  match reference_id (sub_customer subscription) with
  | None => None (* subscription.customer.id of null *)
  | Some customerId =>
      let billingStatus :=
        Resolver.to_string (Resolver.mapSubscriptionStatus (sub_status subscription)) in
      let plan := or_string (metadata_get (sub_metadata subscription) "plan") "starter" in
      (* the object handed to [.update] is built first *)
      match toISOString (sub_current_period_end subscription) with
      | None => None (* RangeError: Invalid time value *)
      | Some periodEnd =>
          update_where store_error (of_customer customerId)
            (λ o, {| id := id o;
                     stripe_customer_id := stripe_customer_id o;
                     subscription_id := Some (sub_id subscription);
                     subscription_status := Some (sub_status subscription);
                     billing_status := billingStatus;
                     current_plan := plan;
                     current_period_end := Some periodEnd;
                     updated_at := now |}) orgs
      end
  end.

Definition handleSubscriptionDeleted (now : Z) (store_error : bool) (subscription : Subscription)
    (orgs : list Organization) : option (list Organization) :=
  match reference_id (sub_customer subscription) with
  | None => None
  | Some customerId =>
      update_where store_error (of_customer customerId)
        (λ o, {| id := id o;
                 stripe_customer_id := stripe_customer_id o;
                 subscription_id := subscription_id o;
                 subscription_status := Some "canceled";
                 billing_status := "unpaid";
                 current_plan := current_plan o;
                 current_period_end := current_period_end o;
                 updated_at := now |}) orgs
  end.

Definition handlePaymentFailed (now : Z) (store_error : bool) (invoice : Invoice)
    (orgs : list Organization) : option (list Organization) :=
  match reference_id (invoice_customer invoice) with
  | None => Some orgs
  | Some customerId =>
      if String.eqb customerId "" then Some orgs
      else
        update_where store_error (of_customer customerId)
          (λ o, {| id := id o;
                   stripe_customer_id := stripe_customer_id o;
                   subscription_id := subscription_id o;
                   subscription_status := subscription_status o;
                   billing_status := "past_due";
                   current_plan := current_plan o;
                   current_period_end := current_period_end o;
                   updated_at := now |}) orgs
  end.

(** The [switch (event.type)]. *)
Definition dispatch (now : Z) (store_error : bool) (event : StripeEvent)
    (orgs : list Organization) : option (list Organization) :=
  match event with
  | CheckoutSessionCompleted session => handleCheckoutCompleted now store_error session orgs
  | SubscriptionCreated subscription
  | SubscriptionUpdated subscription => handleSubscriptionChange now store_error subscription orgs
  | SubscriptionDeleted subscription => handleSubscriptionDeleted now store_error subscription orgs
  | InvoicePaymentFailed invoice => handlePaymentFailed now store_error invoice orgs
  | Unhandled _ => Some orgs
  end.

(** [STRIPE_MODE] and the two signing secrets of the environment. *)
Record Env := {
  live : bool;
  STRIPE_LIVE_WEBHOOK_SECRET : option string;
  STRIPE_WEBHOOK_SECRET : option string
}.

(** [None] when it throws: the secret of the mode is not configured. *)
Definition getWebhookSecret (env : Env) : option string :=
  let secret := if live env then STRIPE_LIVE_WEBHOOK_SECRET env else STRIPE_WEBHOOK_SECRET env in
  if falsy secret then None else secret.

Record WebhookRequest := {
  rawBody : string;
  stripe_signature : option string
}.

Inductive WebhookResponse :=
| Received           (* 200 { received: true } *)
| MissingSignature   (* 400 *)
| InvalidSignature   (* 400 *)
| HandlerFailed.     (* 500 *)

Definition status (r : WebhookResponse) : Z :=
  match r with
  | Received => 200
  | MissingSignature | InvalidSignature => 400
  | HandlerFailed => 500
  end.

Section Handler.

(** [Stripe.webhooks.constructEvent(rawBody, sig, secret)]; [None] when it
    throws.  The verifier reads the clock, its first argument here: it
    refuses a signature whose timestamp is older than its tolerance. *)
Variable constructEvent : Z → string → string → string → option StripeEvent.

(** [t_verify] is the clock the verifier reads, [now] that of the
    handlers. *)
Definition handleStripeWebhook (env : Env) (t_verify now : Z) (store_error : bool)
    (req : WebhookRequest) (orgs : list Organization)
    : list Organization * WebhookResponse :=
  match stripe_signature req with
  | None => (orgs, MissingSignature)
  | Some sig =>
      if String.eqb sig "" then (orgs, MissingSignature)
      else
        match getWebhookSecret env with
        | None => (orgs, InvalidSignature)
        | Some webhookSecret =>
            match constructEvent t_verify (rawBody req) sig webhookSecret with
            | None => (orgs, InvalidSignature)
            | Some event =>
                match dispatch now store_error event orgs with
                | Some orgs' => (orgs', Received)
                | None => (orgs, HandlerFailed)
                end
            end
        end
  end.

End Handler.

(** [CHECK (billing_status IN (...))] of the same migration. *)
Definition BILLING_STATUSES : list string :=
  ["unpaid"; "paid"; "past_due"; "canceled"; "trialing"].

(** The two [CHECK] constraints hold of every row. *)
Definition checked (orgs : list Organization) : Prop :=
  Forall (λ o, current_plan o ∈ PLANS ∧ billing_status o ∈ BILLING_STATUSES) orgs.

(** The account the gate sees for an organization's row. *)
Definition gate_account (o : Organization) (plan : Enforce.Plan) : Enforce.Account :=
  {| Enforce.id := Some (id o); Enforce.plan := plan;
     Enforce.billing_status := billing_status o |}.

End Webhook.

(** Sample provider traffic for the webhook. *)
Module WebhookSamples.
Import Webhook.

Definition testEnv : Env :=
  {| live := false; STRIPE_LIVE_WEBHOOK_SECRET := None;
     STRIPE_WEBHOOK_SECRET := Some "whsec_test" |}.

Definition acme : Organization :=
  {| id := "org-acme"; stripe_customer_id := Some "cus_acme"; subscription_id := Some "sub_1";
     subscription_status := Some "active"; billing_status := "paid";
     current_plan := "pro"; current_period_end := Some 1700000000000; updated_at := 10 |}.

Definition bistro : Organization :=
  {| id := "org-bistro"; stripe_customer_id := Some "cus_bistro"; subscription_id := None;
     subscription_status := None; billing_status := "trialing";
     current_plan := "starter"; current_period_end := None; updated_at := 11 |}.

Definition acme_subscription (status : string) : Subscription :=
  {| sub_id := "sub_1"; sub_customer := Id "cus_acme"; sub_status := status;
     sub_metadata := Some [("plan", "pro")]; sub_current_period_end := Some 1800000000 |}.

(** A verifier that accepts the signature ["t=1,v1=ok"], made at second 1,
    under the test secret for 300 seconds, and reads the event off the
    body. *)
Definition verifier (now : Z) (rawBody sig secret : string) : option StripeEvent :=
  if String.eqb sig "t=1,v1=ok" && String.eqb secret "whsec_test"
     && (now `div` 1000 - 1 <=? 300) then
    if String.eqb rawBody "past_due" then Some (SubscriptionUpdated (acme_subscription "past_due"))
    else if String.eqb rawBody "deleted" then Some (SubscriptionDeleted (acme_subscription "canceled"))
    else if String.eqb rawBody "failed"
         then Some (InvoicePaymentFailed {| invoice_customer := Expanded "cus_acme" |})
    else Some (Unhandled rawBody)
  else None.

Definition signed (body : string) : WebhookRequest :=
  {| rawBody := body; stripe_signature := Some "t=1,v1=ok" |}.

End WebhookSamples.

(** ** The service registry table: POST /api/mosm/heartbeat of the MOSM
    heartbeat API, and the maintenance operations of the registry service

    Request fields, when present, are strings, as the heartbeat clients send
    them.  The table carries [UNIQUE(service_id, location_id, instance_id)]
    and the [CHECK] on [status]. *)
Module ServiceRegistry.

(** A row of [service_registry]. *)
Record Row := {
  service_id : string;
  location_id : string;
  instance_id : string;
  base_url : option string;
  status : Registry.Status;
  version : option string;
  last_heartbeat : option Z;
  metadata : string;
  updated_at : Z
}.

Definition key (r : Row) : string * string * string :=
  (service_id r, location_id r, instance_id r).

Definition has_key (k : string * string * string) (r : Row) : bool := bool_decide (key r = k).

(** [.upsert(row, { onConflict: 'service_id,location_id,instance_id' })] *)
Fixpoint upsert (new : Row) (rows : list Row) : list Row :=
  match rows with
  | [] => [new]
  | r :: rest => if has_key (key new) r then new :: rest else r :: upsert new rest
  end.

(** The [UNIQUE] constraint. *)
Definition unique (rows : list Row) : Prop := NoDup (key <$> rows).

(** The parsed request body. *)
Record HeartbeatBody := {
  service : option string;
  body_location_id : option string;
  body_instance_id : option string;
  body_status : option string;
  body_version : option string;
  body_base_url : option string;
  body_metadata : option string
}.

(** [!x] *)
Definition falsy (x : option string) : bool :=
  match x with
  | Some s => String.eqb s ""
  | None => true
  end.

(** [x || d] *)
Definition or_string (x : option string) (d : string) : string :=
  if falsy x then d else default d x.

(** [x || null] *)
Definition or_null (x : option string) : option string :=
  if falsy x then None else x.

(** What the [CHECK] on [status] lets through. *)
Definition parse_status (s : string) : option Registry.Status :=
  if String.eqb s "online" then Some Registry.Online
  else if String.eqb s "degraded" then Some Registry.Degraded
  else if String.eqb s "offline" then Some Registry.Offline
  else if String.eqb s "unknown" then Some Registry.Unknown
  else None.

(** [serviceKey && serviceKey === process.env.MOSM_SERVICE_KEY] *)
Definition validateServiceKey (x_service_key MOSM_SERVICE_KEY : option string) : bool :=
  match x_service_key, MOSM_SERVICE_KEY with
  | Some k, Some valid => negb (String.eqb k "") && String.eqb k valid
  | _, _ => false
  end.

Definition validServices : list string := ["modos-menus"; "pos-lite"; "kds"].

Inductive Response :=
| InvalidServiceKey                       (* 401 *)
| MissingFields                           (* 400 *)
| InvalidServiceType                      (* 400 *)
| FailedToRecord                          (* 500, the upsert failed *)
| Recorded (row : Row) (timestamp : Z)    (* 200 *)
| Thrown.                                 (* 500, the outer catch *)

Definition statusCode (r : Response) : Z :=
  match r with
  | InvalidServiceKey => 401
  | MissingFields | InvalidServiceType => 400
  | FailedToRecord | Thrown => 500
  | Recorded _ _ => 200
  end.

(** POST /heartbeat.  [body] is [JSON.parse(event.body || '{}')], [None]
    when parsing or the destructuring of a [null] body throws; [store_error]
    tells whether the store refuses the upsert for a reason of its own. *)
Definition post_heartbeat (x_service_key MOSM_SERVICE_KEY : option string)
    (body : option HeartbeatBody) (now : Z) (store_error : bool) (rows : list Row)
    : list Row * Response :=
  if negb (validateServiceKey x_service_key MOSM_SERVICE_KEY) then (rows, InvalidServiceKey)
  else
    match body with
    | None => (rows, Thrown)
    | Some body =>
        if falsy (service body) || falsy (body_location_id body) then (rows, MissingFields)
        else
          let service := default "" (service body) in
          let location_id := default "" (body_location_id body) in
          if negb (includes validServices service) then (rows, InvalidServiceType)
          else
            match parse_status (or_string (body_status body) "online") with
            | None => (rows, FailedToRecord)
            | Some status =>
                if store_error then (rows, FailedToRecord)
                else
                  let row :=
                    {| service_id := service;
                       location_id := location_id;
                       instance_id :=
                         or_string (body_instance_id body) (service +:+ "-" +:+ location_id);
                       base_url := or_null (body_base_url body);
                       status := status;
                       version := or_null (body_version body);
                       last_heartbeat := Some now;
                       metadata := or_string (body_metadata body) "{}";
                       updated_at := now |} in
                  (upsert row rows, Recorded row now)
            end
    end.

(** [updateStaleServices]: [t_cutoff] is [Date.now()], [t_upd] the
    [new Date()] written to [updated_at].  A null [last_heartbeat] satisfies
    no comparison. *)
Definition sweepable (t_cutoff : Z) (r : Row) : bool :=
  negb (bool_decide (status r = Registry.Offline))
  && match last_heartbeat r with
     | Some t => t <? t_cutoff - Registry.HEARTBEAT_TIMEOUT_MS
     | None => false
     end.

Definition mark_offline (t_upd : Z) (r : Row) : Row :=
  {| service_id := service_id r; location_id := location_id r; instance_id := instance_id r;
     base_url := base_url r; status := Registry.Offline; version := version r;
     last_heartbeat := last_heartbeat r; metadata := metadata r; updated_at := t_upd |}.

(** The table after the update and the rows it returns. *)
Definition updateStaleServices (t_cutoff t_upd : Z) (rows : list Row) : list Row * list Row :=
  ((λ r, if sweepable t_cutoff r then mark_offline t_upd r else r) <$> rows,
   mark_offline t_upd <$> filter (λ r, sweepable t_cutoff r = true) rows).

Definition deregisterService (serviceId locationId instanceId : string) (rows : list Row)
    : list Row * bool :=
  (filter (λ r, has_key (serviceId, locationId, instanceId) r = false) rows, true).

(** [getService(serviceId, locationId, instanceId)] with an instance named:
    [data?.[0]]. *)
Definition getService (serviceId locationId instanceId : string) (rows : list Row)
    : option Row :=
  head (filter (λ r, has_key (serviceId, locationId, instanceId) r = true) rows).

(** The row as the health summary reads it, joined with its location's
    name. *)
Definition to_service (name_of : string → option string) (r : Row) : Registry.Service :=
  {| Registry.service_id := service_id r;
     Registry.location_id := location_id r;
     Registry.status := status r;
     Registry.version := version r;
     Registry.last_heartbeat := last_heartbeat r;
     Registry.locations_name := name_of (location_id r) |}.

(** *** Sample data *)
Definition kds_beat (status : option string) : HeartbeatBody :=
  {| service := Some "kds"; body_location_id := Some "loc-01"; body_instance_id := Some "inst-A";
     body_status := status; body_version := Some "2.1.0"; body_base_url := None;
     body_metadata := None |}.

(** A row stored as online whose last heartbeat was at time 20000. *)
Definition old_row : Row :=
  {| service_id := "modos-menus"; location_id := "loc-01"; instance_id := "modos-menus-loc-01";
     base_url := None; status := Registry.Online; version := None;
     last_heartbeat := Some 20000; metadata := "{}"; updated_at := 20000 |}.

(** The table after a first heartbeat of the sample KDS instance. *)
Definition after_first_beat : list Row * Response :=
  post_heartbeat (Some "s3cret") (Some "s3cret") (Some (kds_beat (Some "degraded"))) 1000 false
    [old_row].

End ServiceRegistry.

(** ** src/locations/index.ts: the location service

    The [locations] table is the one of
    supabase/migrations/002_add_locations.sql, keyed by [id]; [devices]
    carries the [location_id] column the same migration adds. *)
Module Locations.

(** A row of [locations]: the fields the gate reads, as [Enforce.Location]
    has them, and the rest of the TypeScript [Location]. *)
Record Row := {
  location : Enforce.Location;
  address : option string;
  created_at : Z;
  updated_at : Z
}.

Record Device := {
  device_id : string;
  device_location_id : option string
}.

Record DB := {
  locations : gmap string Row;
  devices : list Device
}.

Record CreateLocationInput := {
  in_organization_id : string;
  in_name : string;
  in_address : option string;
  in_plan_tier : option Enforce.PlanTier
}.

(** Device limits per plan tier. *)
Definition PLAN_DEVICE_LIMITS (planTier : Enforce.PlanTier) : Z :=
  match planTier with
  | Enforce.starter => 3
  | Enforce.pro => 25
  | Enforce.enterprise => 999
  end.

Definition with_fields (l : Enforce.Location) (tier : Enforce.PlanTier) (limit : Z)
    (act paid : bool) : Enforce.Location :=
  {| Enforce.loc_id := Enforce.loc_id l;
     Enforce.organization_id := Enforce.organization_id l;
     Enforce.name := Enforce.name l;
     Enforce.plan_tier := tier;
     Enforce.device_limit := limit;
     Enforce.active := act;
     Enforce.setup_fee_paid := paid |}.

(** [getLocation]: [null] when no row has the id. *)
Definition getLocation (locationId : string) (db : DB) : option Row :=
  locations db !! locationId.

(** [createLocation].  [new_id] is the key the store generates;
    [store_error] tells whether the store refuses the insert (a foreign key
    or a connection failing), and a key already present is refused by the
    primary key.  [None] is the thrown error. *)
Definition createLocation (now : Z) (new_id : string) (store_error : bool)
    (input : CreateLocationInput) (db : DB) : DB * option Row :=
  let planTier := default Enforce.starter (in_plan_tier input) in
  let deviceLimit := PLAN_DEVICE_LIMITS planTier in
  if store_error || bool_decide (is_Some (locations db !! new_id)) then (db, None)
  else
    let data :=
      {| location :=
           {| Enforce.loc_id := new_id;
              Enforce.organization_id := in_organization_id input;
              Enforce.name := in_name input;
              Enforce.plan_tier := planTier;
              Enforce.device_limit := deviceLimit;
              Enforce.active := false; (* Inactive until setup fee paid *)
              Enforce.setup_fee_paid := false |};
         address := in_address input;
         created_at := now;
         updated_at := now |} in
    ({| locations := <[new_id := data]> (locations db); devices := devices db |}, Some data).

(** [.update(change).eq('id', locationId).select().single()]: the error of
    [.single()] on no row is thrown. *)
Definition update_single (store_error : bool) (locationId : string) (change : Row → Row)
    (db : DB) : DB * option Row :=
  if store_error then (db, None)
  else
    match locations db !! locationId with
    | None => (db, None)
    | Some r =>
        ({| locations := <[locationId := change r]> (locations db); devices := devices db |},
         Some (change r))
    end.

Definition activateLocationAfterPayment (now : Z) (store_error : bool) (locationId : string)
    (db : DB) : DB * option Row :=
  update_single store_error locationId
    (λ r, {| location :=
               with_fields (location r) (Enforce.plan_tier (location r))
                 (Enforce.device_limit (location r)) true true;
             address := address r; created_at := created_at r; updated_at := now |}) db.

Definition updateLocationPlan (now : Z) (store_error : bool) (locationId : string)
    (planTier : Enforce.PlanTier) (db : DB) : DB * option Row :=
  let deviceLimit := PLAN_DEVICE_LIMITS planTier in
  update_single store_error locationId
    (λ r, {| location :=
               with_fields (location r) planTier deviceLimit
                 (Enforce.active (location r)) (Enforce.setup_fee_paid (location r));
             address := address r; created_at := created_at r; updated_at := now |}) db.

Definition deactivateLocation (now : Z) (store_error : bool) (locationId : string)
    (db : DB) : DB * option Row :=
  update_single store_error locationId
    (λ r, {| location :=
               with_fields (location r) (Enforce.plan_tier (location r))
                 (Enforce.device_limit (location r)) false
                 (Enforce.setup_fee_paid (location r));
             address := address r; created_at := created_at r; updated_at := now |}) db.

Definition getLocationDeviceCount (locationId : string) (db : DB) : Z :=
  Z.of_nat (length (filter (λ d, device_location_id d = Some locationId) (devices db))).

Record Answer := {
  allowed : bool;
  reason : option string
}.

Definition canAddDevice (locationId : string) (db : DB) : Answer :=
  match getLocation locationId db with
  | None => {| allowed := false; reason := Some "LOCATION_NOT_FOUND" |}
  | Some r =>
      if negb (Enforce.active (location r)) then
        {| allowed := false; reason := Some "LOCATION_INACTIVE" |}
      else if negb (Enforce.setup_fee_paid (location r)) then
        {| allowed := false; reason := Some "SETUP_FEE_NOT_PAID" |}
      else
        let deviceCount := getLocationDeviceCount locationId db in
        if deviceCount >=? Enforce.device_limit (location r) then
          {| allowed := false; reason := Some "DEVICE_LIMIT_REACHED" |}
        else {| allowed := true; reason := None |}
  end.

(** The writing operations of the service, with the clock and the store's
    answer at each. *)
Inductive Op :=
| Create (now : Z) (new_id : string) (store_error : bool) (input : CreateLocationInput)
| Activate (now : Z) (store_error : bool) (locationId : string)
| UpdatePlan (now : Z) (store_error : bool) (locationId : string)
    (planTier : Enforce.PlanTier)
| Deactivate (now : Z) (store_error : bool) (locationId : string).

Definition perform (op : Op) (db : DB) : DB :=
  match op with
  | Create now new_id err input => (createLocation now new_id err input db).1
  | Activate now err locationId => (activateLocationAfterPayment now err locationId db).1
  | UpdatePlan now err locationId planTier =>
      (updateLocationPlan now err locationId planTier db).1
  | Deactivate now err locationId => (deactivateLocation now err locationId db).1
  end.

Definition perform_all (ops : list Op) (db : DB) : DB := foldl (λ db op, perform op db) db ops.

(** What the service's writes keep true of every row: it is stored under
    its own id, it is active only with the setup fee paid, and its device
    limit is the one of its plan tier. *)
Definition consistent (db : DB) : Prop :=
  ∀ k r, locations db !! k = Some r →
    Enforce.loc_id (location r) = k
    ∧ (Enforce.active (location r) = true → Enforce.setup_fee_paid (location r) = true)
    ∧ Enforce.device_limit (location r) = PLAN_DEVICE_LIMITS (Enforce.plan_tier (location r)).

Definition no_locations : DB := {| locations := ∅; devices := [] |}.

Definition downtown : CreateLocationInput :=
  {| in_organization_id := "org-paid-001"; in_name := "Downtown"; in_address := None;
     in_plan_tier := None |}.

End Locations.

(** * Properties *)

Lemma includes_elem_of xs x : includes xs x = true ↔ x ∈ xs.
Proof.
  induction xs as [|y ys IH]; simpl.
  - split; [discriminate | by intros ?%elem_of_nil].
  - destruct (String.eqb_spec y x) as [->|Hne].
    + split; [intros _; left | done].
    + rewrite IH. split; [by right | ].
      intros [?|?]%elem_of_cons; [congruence | done].
Qed.

Lemma includes_false xs x : includes xs x = false ↔ x ∉ xs.
Proof.
  rewrite <- includes_elem_of. by destruct (includes xs x).
Qed.

(** ** Heartbeat *)
Section HeartbeatFacts.
Import Heartbeat.

Variables (deviceLastSeen : gmap string Z) (t_seen t_reply : Z) (p : HeartbeatPayload).

Lemma handleHeartbeat_acknowledges (accountInfo : option AccountInfo) :
  acknowledged (handleHeartbeat deviceLastSeen t_seen t_reply p accountInfo).2 = true.
Proof. reflexivity. Qed.

Lemma handleHeartbeat_last_seen (accountInfo : option AccountInfo) :
  (handleHeartbeat deviceLastSeen t_seen t_reply p accountInfo).1 !! device_id p = Some t_seen.
Proof. simpl. apply lookup_insert_eq. Qed.

(** C1. No-bricking: whatever the payload and the account information
    (absent, or present under any billing status), [handleHeartbeat]
    acknowledges; and two runs that differ only in the account's billing
    status give the same operational response (acknowledged, commands), the
    same plan, device count and server time, and leave the same last-seen
    map.  Only the informational [billing_status] echo differs. *)
Theorem handleHeartbeat_no_bricking (accountInfo : option AccountInfo)
    (a : AccountInfo) (b1 b2 : string) :
  let run x := handleHeartbeat deviceLastSeen t_seen t_reply p x in
  let r1 := run (Some (with_billing_status b1 a)) in
  let r2 := run (Some (with_billing_status b2 a)) in
  acknowledged (run accountInfo).2 = true
  ∧ commands (run accountInfo).2 = []
  ∧ acknowledged r1.2 = true ∧ acknowledged r2.2 = true
  ∧ operational r1.2 = operational r2.2
  ∧ resp_plan r1.2 = resp_plan r2.2
  ∧ resp_device_count r1.2 = resp_device_count r2.2
  ∧ server_time r1.2 = server_time r2.2
  ∧ r1.1 = r2.1
  ∧ resp_billing_status r1.2 = Some b1 ∧ resp_billing_status r2.2 = Some b2.
Proof. cbn. repeat split. Qed.

End HeartbeatFacts.

(** Over any history of heartbeats, whatever the billing status was at each
    of them: every heartbeat is acknowledged, and neither the operational
    responses nor the last-seen map depend on the billing statuses. *)
Lemma serve_ignores_billing (beats1 beats2 : list Heartbeat.Beat) :
  Forall2 Heartbeat.differ_in_billing_only beats1 beats2 →
  ∀ seen,
    (Heartbeat.serve seen beats1).1 = (Heartbeat.serve seen beats2).1
    ∧ Heartbeat.operational <$> (Heartbeat.serve seen beats1).2
      = Heartbeat.operational <$> (Heartbeat.serve seen beats2).2
    ∧ Forall (λ r, Heartbeat.acknowledged r = true) (Heartbeat.serve seen beats1).2.
Proof.
  induction 1 as [|b1 b2 rest1 rest2 (Hs & _ & Hp & _) _ IH]; intros seen.
  - repeat split. constructor.
  - simpl. rewrite Hs, Hp.
    specialize (IH (<[Heartbeat.device_id (Heartbeat.sent b2) := Heartbeat.at_seen b2]> seen)).
    destruct (Heartbeat.serve _ rest1) as [seen1 rs1], (Heartbeat.serve _ rest2) as [seen2 rs2].
    simpl in *. destruct IH as (-> & Hop & Hack).
    split; [done | ]. split; [ | by constructor].
    unfold Heartbeat.operational at 1 3. simpl. f_equal. exact Hop.
Qed.

(** The five exits of the gate, one case each. *)
Ltac gate_cases account location count :=
  unfold Enforce.enforceLocationPairing, Enforce.first_failing, Enforce.gate_order;
  cbn [find Enforce.check_fails];
  change (includes ["paid"; "trialing"] (Enforce.billing_status account))
    with (Enforce.isBillingActive (Enforce.billing_status account));
  destruct (Enforce.isBillingActive (Enforce.billing_status account)) eqn:Hbilling;
  destruct (Enforce.active location) eqn:Hactive;
  destruct (Enforce.setup_fee_paid location) eqn:Hfee;
  destruct (Z.geb_spec count (Enforce.device_limit location));
  destruct (Z.ltb_spec count (Enforce.device_limit location));
  try lia; cbn.

(** ** The enforcement gate *)
Section EnforceFacts.
Import Enforce.

Lemma isBillingActive_iff s : isBillingActive s = true ↔ s = "paid" ∨ s = "trialing".
Proof.
  unfold isBillingActive, ACTIVE_BILLING_STATUSES. rewrite includes_elem_of.
  rewrite !elem_of_cons, elem_of_nil. tauto.
Qed.

Lemma logEnforcementEvent_length now log logs :
  length (logEnforcementEvent now log logs) = S (length logs).
Proof. unfold logEnforcementEvent. rewrite length_app. simpl. lia. Qed.

(** C2. Gate ordering: the code [enforceLocationPairing] returns is that of
    the first check, in the order billing, location-active, setup-fee,
    device-limit, that fails; the pairing is allowed exactly when none
    fails.  This holds however many checks fail at once; in particular an
    account whose billing is not active gets [BILLING_INACTIVE] whatever the
    state of the location and the device count. *)
Theorem enforceLocationPairing_first_failing now account location count logs :
  let d := (enforceLocationPairing now account location count logs).2 in
  code d = check_code <$> first_failing account location count
  ∧ error d = code d
  ∧ allowed d = bool_decide (first_failing account location count = None)
  ∧ ((1 < failing_count account location count)%nat →
       ∃ c, first_failing account location count = Some c
            ∧ code d = Some (check_code c) ∧ allowed d = false)
  ∧ (isBillingActive (billing_status account) = false → code d = Some "BILLING_INACTIVE").
Proof.
  unfold failing_count, gate_order. rewrite !filter_cons, filter_nil.
  gate_cases account location count; repeat split; try done;
    (intros Hmany; by eexists) || (intros Hmany; simpl in Hmany; lia).
Qed.

(** The claim's instance: unpaid account, inactive location, unpaid setup
    fee, full capacity: all four checks fail and the code is the first. *)
Lemma enforceLocationPairing_first_failing_witness :
  failing_count Samples.unpaidAccount Samples.closedLocation 3 = 4%nat
  ∧ code (enforceLocationPairing 0 Samples.unpaidAccount Samples.closedLocation 3 []).2
    = Some "BILLING_INACTIVE".
Proof.
  split; [reflexivity | ].
  apply (enforceLocationPairing_first_failing 0 Samples.unpaidAccount Samples.closedLocation 3 []).
  reflexivity.
Defined.

(** What every exit of the gate does to the log. *)
Lemma enforceLocationPairing_pushes now account location count logs :
  ∃ entry,
    (enforceLocationPairing now account location count logs).1 = logs ++ [entry]
    ∧ type entry = "BILLING_ENFORCEMENT"
    ∧ action entry = "LOCATION_PAIR_DEVICE"
    ∧ timestamp entry = now
    ∧ log_billing_status entry = billing_status account
    ∧ result entry =
        (if allowed (enforceLocationPairing now account location count logs).2
         then ALLOWED else BLOCKED).
Proof. gate_cases account location count; eexists; repeat split. Qed.

(** C3. Audit completeness: every call of [enforceLocationPairing], allowed
    or blocked, pushes exactly one entry onto the enforcement log: the log
    after the call is the log before followed by one [LOCATION_PAIR_DEVICE]
    entry whose result tells the decision. *)
Theorem enforceLocationPairing_logs_exactly_one now account location count logs :
  let r := enforceLocationPairing now account location count logs in
  length r.1 = S (length logs)
  ∧ ∃ entry, r.1 = logs ++ [entry]
      ∧ type entry = "BILLING_ENFORCEMENT"
      ∧ action entry = "LOCATION_PAIR_DEVICE"
      ∧ timestamp entry = now
      ∧ log_billing_status entry = billing_status account
      ∧ result entry = (if allowed r.2 then ALLOWED else BLOCKED).
Proof.
  intros r. destruct (enforceLocationPairing_pushes now account location count logs)
    as (entry & Hlogs & H).
  split; [ | by exists entry].
  subst r. rewrite Hlogs, length_app. simpl. lia.
Qed.

(** The pre-flight predicate goes through the same gate and so logs too. *)
Lemma canLocationAddDevice_logs now account location count logs :
  length (canLocationAddDevice now account location count logs).1 = S (length logs).
Proof.
  unfold canLocationAddDevice.
  destruct (enforceLocationPairing_pushes now account location count logs)
    as (entry & Hlogs & _).
  destruct (enforceLocationPairing now account location count logs); simpl in *.
  rewrite Hlogs, length_app. simpl. lia.
Qed.

End EnforceFacts.

(** ** Pairing failure codes *)
Section PairFacts.
Import Enforce.

Lemma enforceBillingForPairing_decision now account logs :
  (enforceBillingForPairing now account logs).2 =
    if isBillingActive (billing_status account) then allow
    else deny "BILLING_INACTIVE"
      "Active subscription required to pair new devices. Please visit /billing to activate.".
Proof.
  unfold enforceBillingForPairing. by destruct (isBillingActive (billing_status account)).
Qed.

(** Within the safe integers [device_count + 1] is the exact sum. *)
Lemma plus_one_safe n :
  - MAX_SAFE_INTEGER <= n <= MAX_SAFE_INTEGER → plus_one n = n + 1.
Proof.
  unfold MAX_SAFE_INTEGER, plus_one. intros Hn.
  destruct (Z.leb_spec (-9007199254740992) n); [ | lia].
  destruct (Z.ltb_spec n 9007199254740992); [done | lia].
Qed.

(** [Pair.pairDevice] decides by billing first, then by the plan's limit on the
    count the new device would bring. *)
Lemma pairDevice_code t1 t2 t3 t4 req account logs :
  Pair.response_code (Pair.pairDevice t1 t2 t3 t4 req account logs).2 =
    if negb (isBillingActive (Pair.billing_status account)) then Some "BILLING_INACTIVE"
    else match max_devices (Pair.plan account) with
         | Limit m =>
             if plus_one (Pair.device_count account) <=? m then None
             else Some "DEVICE_LIMIT_EXCEEDED"
         | unlimited => None
         end.
Proof.
  unfold Pair.pairDevice, enforceBillingForPairing, enforceDeviceLimit.
  cbn [Pair.as_enforce billing_status plan id].
  destruct (isBillingActive (Pair.billing_status account)); cbn; [ | done].
  destruct (max_devices (Pair.plan account)) as [m|]; cbn; [ | done].
  by destruct (plus_one (Pair.device_count account) <=? m).
Qed.

Lemma pairDevice_success_iff t1 t2 t3 t4 req account logs :
  Pair.success (Pair.pairDevice t1 t2 t3 t4 req account logs).2 = true
  ↔ Pair.response_code (Pair.pairDevice t1 t2 t3 t4 req account logs).2 = None.
Proof. by destruct (Pair.pairDevice t1 t2 t3 t4 req account logs).2. Qed.

(** C9, as the code has it.  Every rejection is a structured result
    carrying a code, nothing is thrown to the caller.  The account-level
    gate [Pair.pairDevice] rejects with [BILLING_INACTIVE] or
    [DEVICE_LIMIT_EXCEEDED], the latter whenever billing is active and the
    plan's limit would be passed by [device_count + 1] as the code computes
    it, which is the exact sum for every safe integer.  The location-level
    gate
    [enforceLocationPairing] rejects with [BILLING_INACTIVE],
    [LOCATION_INACTIVE], [SETUP_FEE_NOT_PAID] or [DEVICE_LIMIT_REACHED]; its
    device-limit rejection carries [DEVICE_LIMIT_REACHED]. *)
Theorem pairing_rejection_codes :
  (∀ t1 t2 t3 t4 req account logs,
     let r := (Pair.pairDevice t1 t2 t3 t4 req account logs).2 in
     Pair.success r = false →
     Pair.response_code r = Some "BILLING_INACTIVE"
     ∨ Pair.response_code r = Some "DEVICE_LIMIT_EXCEEDED")
  ∧ (∀ t1 t2 t3 t4 req account logs m,
       isBillingActive (Pair.billing_status account) = true →
       max_devices (Pair.plan account) = Limit m →
       plus_one (Pair.device_count account) > m →
       Pair.response_code (Pair.pairDevice t1 t2 t3 t4 req account logs).2
       = Some "DEVICE_LIMIT_EXCEEDED")
  ∧ (∀ t1 t2 t3 t4 req account logs m,
       isBillingActive (Pair.billing_status account) = true →
       max_devices (Pair.plan account) = Limit m →
       - MAX_SAFE_INTEGER <= Pair.device_count account <= MAX_SAFE_INTEGER →
       Pair.device_count account + 1 > m →
       Pair.response_code (Pair.pairDevice t1 t2 t3 t4 req account logs).2
       = Some "DEVICE_LIMIT_EXCEEDED")
  ∧ (∀ now account location count logs,
       let d := (enforceLocationPairing now account location count logs).2 in
       allowed d = false →
       ∃ c, code d = Some c ∧ error d = Some c ∧ is_Some (message d)
            ∧ c ∈ ["BILLING_INACTIVE"; "LOCATION_INACTIVE"; "SETUP_FEE_NOT_PAID";
                   "DEVICE_LIMIT_REACHED"])
  ∧ (∀ now account location count logs,
       isBillingActive (Enforce.billing_status account) = true →
       active location = true →
       setup_fee_paid location = true →
       count >= device_limit location →
       code (enforceLocationPairing now account location count logs).2
       = Some "DEVICE_LIMIT_REACHED").
Proof.
  repeat split.
  - intros t1 t2 t3 t4 req account logs r Hr.
    assert (Pair.response_code r ≠ None) as Hne.
    { intros Hc. apply pairDevice_success_iff in Hc. subst r. congruence. }
    subst r. rewrite pairDevice_code in *.
    destruct (isBillingActive (Pair.billing_status account)); cbn in *; [ | by left].
    destruct (max_devices (Pair.plan account)) as [m|]; [ | done].
    destruct (plus_one (Pair.device_count account) <=? m); [done | by right].
  - intros t1 t2 t3 t4 req account logs m Hb Hm Hgt.
    rewrite pairDevice_code, Hb, Hm. cbn.
    destruct (Z.leb_spec (plus_one (Pair.device_count account)) m); [lia | done].
  - intros t1 t2 t3 t4 req account logs m Hb Hm Hsafe Hgt.
    rewrite pairDevice_code, Hb, Hm, plus_one_safe by done. cbn.
    destruct (Z.leb_spec (Pair.device_count account + 1) m); [lia | done].
  - intros now account location count logs.
    gate_cases account location count; intros; try discriminate;
      eexists; (split; [reflexivity | split; [reflexivity | split; [by eexists | ]]]);
      rewrite !elem_of_cons; tauto.
  - intros now account location count logs Hb Ha Hf Hc.
    unfold enforceLocationPairing. rewrite Hb, Ha, Hf. cbn.
    destruct (Z.geb_spec count (device_limit location)); [done | lia].
Qed.

Lemma pairing_rejection_codes_witness :
  Pair.response_code (Pair.pairDevice 1 2 3 4 Samples.request Samples.atLimitAccount []).2
  = Some "DEVICE_LIMIT_EXCEEDED"
  ∧ code (enforceLocationPairing 0 Samples.paidAccount Samples.openLocation 3 []).2
    = Some "DEVICE_LIMIT_REACHED".
Proof.
  split.
  - apply (proj1 (proj2 pairing_rejection_codes) 1 2 3 4 Samples.request
             Samples.atLimitAccount [] 3); [reflexivity | reflexivity | reflexivity].
  - apply (proj2 (proj2 (proj2 (proj2 pairing_rejection_codes))) 0 Samples.paidAccount
             Samples.openLocation 3 []); [reflexivity | reflexivity | reflexivity | cbn; lia].
Defined.

(** The claim as stated fails: the location gate's device-limit rejection
    carries [DEVICE_LIMIT_REACHED], which is not among the four documented
    codes. *)
Lemma location_gate_code_not_documented :
  let d := (enforceLocationPairing 0 Samples.paidAccount Samples.openLocation 3 []).2 in
  allowed d = false
  ∧ code d = Some "DEVICE_LIMIT_REACHED"
  ∧ code d ≠ Some "DEVICE_LIMIT_EXCEEDED"
  ∧ ¬ (∃ c, code d = Some c ∧ c ∈ Pair.documented_codes).
Proof.
  cbn. repeat split; try done.
  intros (c & [= <-] & Hc). unfold Pair.documented_codes in Hc.
  rewrite !elem_of_cons, elem_of_nil in Hc.
  destruct Hc as [?|[?|[?|[?|[]]]]]; discriminate.
Qed.

End PairFacts.

(** ** Billing status resolver *)
Section ResolverFacts.
Import Resolver.

(** The mapping read off the table of the specification: the entry of the
    provider's state, [unpaid] when it has none. *)
Lemma mapSubscriptionStatus_cases s :
  mapSubscriptionStatus s =
    if String.eqb s "active" then paid
    else if String.eqb s "trialing" then trialing
    else if String.eqb s "past_due" then past_due
    else unpaid.
Proof.
  unfold mapSubscriptionStatus.
  repeat (match goal with |- context [String.eqb s ?l] => destruct (String.eqb s l) end);
    reflexivity.
Qed.

(** C4. The resolver maps [active] to [paid], [trialing] to [trialing],
    [past_due] to [past_due], each of [canceled], [unpaid], [incomplete],
    [incomplete_expired], [paused] to [unpaid], and every state it does not
    recognize to [unpaid]; being a function of its argument alone, equal
    inputs give equal outputs. *)
Theorem mapSubscriptionStatus_contract :
  mapSubscriptionStatus "active" = paid
  ∧ mapSubscriptionStatus "trialing" = trialing
  ∧ mapSubscriptionStatus "past_due" = past_due
  ∧ mapSubscriptionStatus "canceled" = unpaid
  ∧ mapSubscriptionStatus "unpaid" = unpaid
  ∧ mapSubscriptionStatus "incomplete" = unpaid
  ∧ mapSubscriptionStatus "incomplete_expired" = unpaid
  ∧ mapSubscriptionStatus "paused" = unpaid
  ∧ (∀ s b, (s, b) ∈ contract → mapSubscriptionStatus s = b)
  ∧ (∀ s, recognized s = false → mapSubscriptionStatus s = unpaid)
  ∧ (∀ s1 s2, s1 = s2 → mapSubscriptionStatus s1 = mapSubscriptionStatus s2).
Proof.
  repeat split; try reflexivity.
  - intros s b Hin. unfold contract in Hin.
    rewrite !elem_of_cons, elem_of_nil in Hin.
    destruct Hin as [H|[H|[H|[H|[H|[H|[H|[H|[]]]]]]]]]; by inversion H.
  - intros s Hs. apply includes_false in Hs. cbn in Hs.
    rewrite !not_elem_of_cons in Hs. destruct Hs as (? & ? & ? & _).
    rewrite mapSubscriptionStatus_cases.
    destruct (String.eqb_spec s "active"); [congruence | ].
    destruct (String.eqb_spec s "trialing"); [congruence | ].
    destruct (String.eqb_spec s "past_due"); [congruence | done].
  - by intros s1 s2 ->.
Qed.

Lemma mapSubscriptionStatus_contract_witness :
  mapSubscriptionStatus "paused" = unpaid
  ∧ mapSubscriptionStatus "on_fire" = unpaid
  ∧ mapSubscriptionStatus "active" = mapSubscriptionStatus "active".
Proof.
  pose proof mapSubscriptionStatus_contract
    as (_ & _ & _ & _ & _ & _ & _ & _ & Htable & Hother & Hsame).
  split; [ | split].
  - apply (Htable "paused" unpaid). unfold contract. rewrite !elem_of_cons. tauto.
  - apply (Hother "on_fire"). reflexivity.
  - apply (Hsame "active" "active"). reflexivity.
Defined.

(** The billing function of netlify/functions carries the same mapping. *)
Lemma mapSubscriptionStatus_netlify_agrees s :
  mapSubscriptionStatus_netlify s = mapSubscriptionStatus s.
Proof. by rewrite mapSubscriptionStatus_cases. Qed.

(** The read-only status query differs on a trial only: it reports [paid]. *)
Lemma getAccountBillingStatus_vs_webhook s rest :
  getAccountBillingStatus (ListData (s :: rest)) =
    if String.eqb s "trialing" then paid else mapSubscriptionStatus s.
Proof.
  rewrite mapSubscriptionStatus_cases. unfold getAccountBillingStatus.
  destruct (String.eqb_spec s "trialing") as [->|]; [reflexivity | ].
  repeat (match goal with |- context [String.eqb s ?l] => destruct (String.eqb s l) end);
    reflexivity.
Qed.

Lemma getAccountBillingStatus_fails_closed :
  getAccountBillingStatus ListThrows = unpaid ∧ getAccountBillingStatus (ListData []) = unpaid.
Proof. done. Qed.

(** Through the resolver, pairing is open exactly to provider states
    [active] and [trialing]. *)
Lemma resolver_opens_gate s :
  Enforce.isBillingActive (to_string (mapSubscriptionStatus s)) = true
  ↔ s = "active" ∨ s = "trialing".
Proof.
  rewrite mapSubscriptionStatus_cases.
  destruct (String.eqb_spec s "active") as [->|]; [cbn; tauto | ].
  destruct (String.eqb_spec s "trialing") as [->|]; [cbn; tauto | ].
  destruct (String.eqb_spec s "past_due"); cbn; split; (discriminate || tauto).
Qed.

End ResolverFacts.

(** ** Health summary *)
Section RegistryFacts.
Import Registry.

Lemma get_incr st st' c :
  get st (incr st' c) = (if decide (st = st') then S (get st c) else get st c).
Proof. by destruct st, st'. Qed.

Lemma step_counts now summary s :
  counts (step now summary s) = incr (effectiveStatus now s) (counts summary).
Proof. reflexivity. Qed.

Lemma step_total now summary s : total (step now summary s) = total summary.
Proof. reflexivity. Qed.

(** The code's status of an entry is the one the specification reports. *)
Lemma reported_under_effective now st s :
  reported_under now st s = bool_decide (st = effectiveStatus now s).
Proof.
  unfold reported_under, effectiveStatus, isStale, getTime,
    STALENESS_THRESHOLD, HEARTBEAT_TIMEOUT_MS.
  destruct (Z.gtb_spec (now - default 0 (last_heartbeat s)) 120000).
  - by rewrite bool_decide_eq_true_2 by lia.
  - by rewrite bool_decide_eq_false_2 by lia.
Qed.

(** The loop adds to each counter the number of entries reported under it. *)
Lemma foldl_step_counts now st services : ∀ summary,
  get st (counts (foldl (step now) summary services))
  = (get st (counts summary) + expected_count now st services)%nat.
Proof.
  unfold expected_count.
  induction services as [|s rest IH]; intros summary; simpl.
  - lia.
  - rewrite IH, step_counts, get_incr, filter_cons, reported_under_effective.
    destruct (decide (st = effectiveStatus now s)) as [Heq|Hne].
    + rewrite bool_decide_eq_true_2 by done.
      rewrite decide_True by done. simpl. lia.
    + rewrite bool_decide_eq_false_2 by done.
      rewrite decide_False by done. lia.
Qed.

Lemma foldl_step_total now services : ∀ summary,
  total (foldl (step now) summary services) = total summary.
Proof.
  induction services as [|s rest IH]; intros summary; simpl; [done | ].
  by rewrite IH.
Qed.

Lemma counted_incr st c : counted (incr st c) = S (counted c).
Proof. destruct st; unfold counted; simpl; lia. Qed.

Lemma foldl_step_counted now services : ∀ summary,
  counted (counts (foldl (step now) summary services))
  = (counted (counts summary) + length services)%nat.
Proof.
  induction services as [|s rest IH]; intros summary; simpl; [lia | ].
  rewrite IH, step_counts, counted_incr. lia.
Qed.

(** C5. Staleness recomputation: in the summary of any list of registry
    entries, the counter of each status is the number of entries reported
    under it, where an entry whose [now - last_heartbeat] exceeds the two
    minutes' threshold is reported as offline whatever its stored status,
    and any other entry under its stored status.  So an entry stored as
    online and three minutes stale adds one to [offline] and nothing to
    [online]; every entry is counted once. *)
Theorem getHealthSummary_recomputes_staleness now services :
  let summary := getHealthSummary now services in
  (∀ st, get st (counts summary) = expected_count now st services)
  ∧ offline (counts summary)
    = length (filter (λ s, now - default 0 (last_heartbeat s) > 2 * 60 * 1000
                           ∨ status s = Offline) services)
  ∧ online (counts summary)
    = length (filter (λ s, ¬ now - default 0 (last_heartbeat s) > 2 * 60 * 1000
                           ∧ status s = Online) services)
  ∧ total summary = length services
  ∧ (online (counts summary) + degraded (counts summary)
     + offline (counts summary) + unknown (counts summary) = length services)%nat.
Proof.
  intros summary.
  assert (∀ st, get st (counts summary) = expected_count now st services) as Hall.
  { intros st. subst summary. unfold getHealthSummary.
    rewrite foldl_step_counts. by destruct st. }
  split; [exact Hall | ].
  split; [ | split; [ | split]].
  - change (offline (counts summary)) with (get Offline (counts summary)).
    rewrite Hall. unfold expected_count. f_equal.
    apply list_filter_iff. intros s. unfold reported_under, STALENESS_THRESHOLD.
    case_bool_decide; rewrite bool_decide_eq_true; [tauto | ].
    split; [intros ->; by right | intros [?|?]; [lia | done]].
  - change (online (counts summary)) with (get Online (counts summary)).
    rewrite Hall. unfold expected_count. f_equal.
    apply list_filter_iff. intros s. unfold reported_under, STALENESS_THRESHOLD.
    case_bool_decide; rewrite bool_decide_eq_true; [split; [done | tauto] | ].
    split; [intros ->; split; [lia | done] | by intros [_ ->]].
  - subst summary. unfold getHealthSummary. by rewrite foldl_step_total.
  - subst summary. unfold getHealthSummary.
    apply (foldl_step_counted now services).
Qed.

(** Scenario 6 of the specification. *)
Example health_summary_stale_online :
  counts (getHealthSummary 200000 [Samples.staleOnline; Samples.freshDegraded])
  = {| online := 0; degraded := 1; offline := 1; unknown := 0 |}.
Proof. reflexivity. Qed.

End RegistryFacts.

(** ** Rollout orchestration *)
Section RolloutFacts.
Import Rollouts.

Lemma is_terminal_Terminal e : is_terminal e = true ↔ Terminal e.
Proof.
  unfold is_terminal, Terminal. rewrite orb_true_iff.
  by rewrite !String.eqb_eq.
Qed.

Lemma is_failed_Failed e : is_failed e = true ↔ Failed e.
Proof. unfold is_failed, Failed. apply String.eqb_eq. Qed.

Lemma forallb_is_terminal es : forallb is_terminal es = true ↔ Forall Terminal es.
Proof.
  induction es as [|e es IH]; simpl.
  - split; [constructor | done].
  - rewrite andb_true_iff, Forall_cons, IH, is_terminal_Terminal. tauto.
Qed.

Lemma existsb_is_failed es : existsb is_failed es = true ↔ Exists Failed es.
Proof.
  induction es as [|e es IH]; simpl.
  - split; [done | by intros ?%Exists_nil].
  - rewrite orb_true_iff, Exists_cons, IH, is_failed_Failed. tauto.
Qed.

Lemma checkRolloutCompletion_executions f t_done t_upd rid db :
  rollout_executions (checkRolloutCompletion f t_done t_upd rid db) = rollout_executions db.
Proof.
  unfold checkRolloutCompletion. destruct (executions_select_fails f); [done | ].
  destruct (forallb _ _); [ | done]. by destruct (rollouts_update_refused f).
Qed.

(** What the recomputation does to the rollout it is asked about. *)
Lemma checkRolloutCompletion_rollout f t_done t_upd rid db r :
  rollouts db !! rid = Some r →
  rollouts (checkRolloutCompletion f t_done t_upd rid db) !! rid =
    if executions_select_fails f || rollouts_update_refused f then Some r
    else if forallb is_terminal (executions_of rid db)
    then Some (set_status
                 (if existsb is_failed (executions_of rid db) then "failed" else "completed")
                 (started_at r) (Some t_done) t_upd r)
    else Some r.
Proof.
  intros Hr. unfold checkRolloutCompletion.
  destruct (executions_select_fails f); [done | ]. cbn [orb].
  destruct (forallb is_terminal (executions_of rid db));
    destruct (rollouts_update_refused f); cbn [rollouts]; try done.
  by rewrite lookup_alter_eq, Hr.
Qed.

Lemma checkRolloutCompletion_others f t_done t_upd rid db k :
  k ≠ rid →
  rollouts (checkRolloutCompletion f t_done t_upd rid db) !! k = rollouts db !! k.
Proof.
  intros Hk. unfold checkRolloutCompletion.
  destruct (executions_select_fails f); [done | ].
  destruct (forallb is_terminal (executions_of rid db)); [ | done].
  destruct (rollouts_update_refused f); cbn [rollouts]; [done | ].
  by rewrite lookup_alter_ne.
Qed.

(** A call that returns has updated its one execution row and then run the
    recomputation on the updated table. *)
Lemma updateExecutionStatus_returns f now t_done t_upd rid lid st msg db row :
  (updateExecutionStatus f now t_done t_upd rid lid st msg db).2 = Returns row →
  ∃ e, filter (λ e, targets rid lid e = true) (rollout_executions db) = [e]
    ∧ row = apply_updates now st msg e
    ∧ (updateExecutionStatus f now t_done t_upd rid lid st msg db).1 =
        checkRolloutCompletion f t_done t_upd rid
          {| rollouts := rollouts db;
             rollout_executions :=
               (λ e, if targets rid lid e then apply_updates now st msg e else e)
               <$> rollout_executions db;
             next_id := next_id db |}.
Proof.
  unfold updateExecutionStatus.
  destruct (includes EXECUTION_STATUSES st); simpl; [ | done].
  destruct (filter _ (rollout_executions db)) as [|e [|e' rest]]; simpl; try done.
  intros [= <-]. by exists e.
Qed.

(** A call that throws has written nothing. *)
Lemma updateExecutionStatus_throws f now t_done t_upd rid lid st msg db :
  (updateExecutionStatus f now t_done t_upd rid lid st msg db).2 = Throws →
  (updateExecutionStatus f now t_done t_upd rid lid st msg db).1 = db.
Proof.
  unfold updateExecutionStatus.
  destruct (includes EXECUTION_STATUSES st); simpl; [ | done].
  by destruct (filter _ (rollout_executions db)) as [|e [|e' rest]].
Qed.

(** C6, as the code has it.  Of an [updateExecutionStatus] call on a stored
    rollout: a call that throws (no execution row, or more than one,
    matched; a status the column refuses) writes nothing, so the rollout
    keeps its status even when all of its executions are terminal.  A call
    that returns has updated one execution and run the recomputation; when
    the store answers the recomputation's read and accepts its update, all
    executions terminal gives the rollout the status [failed] if at least
    one execution failed and [completed] otherwise, with [completed_at]
    set, and some execution not terminal leaves the rollout row as it was;
    when the read fails or the update is refused, neither error is looked
    at and the call returns with the rollout row as it was.  Other rollouts
    are untouched. *)
Theorem updateExecutionStatus_aggregates f now t_done t_upd rid lid st msg db r :
  let res := updateExecutionStatus f now t_done t_upd rid lid st msg db in
  let execs := executions_of rid res.1 in
  rollouts db !! rid = Some r →
  (res.2 = Throws → res.1 = db)
  ∧ (∀ row, res.2 = Returns row →
       exec_status row = st
       ∧ row ∈ execs
       ∧ (executions_select_fails f = false → rollouts_update_refused f = false →
            (Forall Terminal execs → Exists Failed execs →
               ∃ r', rollouts res.1 !! rid = Some r'
                     ∧ status r' = "failed" ∧ completed_at r' = Some t_done)
            ∧ (Forall Terminal execs → ¬ Exists Failed execs →
                 ∃ r', rollouts res.1 !! rid = Some r'
                       ∧ status r' = "completed" ∧ completed_at r' = Some t_done)
            ∧ (¬ Forall Terminal execs → rollouts res.1 !! rid = Some r))
       ∧ (executions_select_fails f = true ∨ rollouts_update_refused f = true →
            rollouts res.1 !! rid = Some r))
  ∧ (∀ k, k ≠ rid → rollouts res.1 !! k = rollouts db !! k).
Proof.
  intros res execs Hr. split; [ | split].
  - apply updateExecutionStatus_throws.
  - intros row Hret.
    destruct (updateExecutionStatus_returns _ _ _ _ _ _ _ _ _ _ Hret) as (e & He & Hrow & Hdb).
    subst res execs. rewrite Hdb. clear Hdb Hret.
    set (db1 := {| rollouts := rollouts db; rollout_executions := _; next_id := _ |}).
    assert (executions_of rid (checkRolloutCompletion f t_done t_upd rid db1)
            = executions_of rid db1) as ->.
    { unfold executions_of. by rewrite checkRolloutCompletion_executions. }
    rewrite (checkRolloutCompletion_rollout f t_done t_upd rid db1 r Hr).
    split; [by subst row | ]. split.
    { assert (e ∈ filter (λ e, targets rid lid e = true) (rollout_executions db)) as Hin
        by (rewrite He; left).
      apply list_elem_of_filter in Hin as [Ht Hin]. unfold executions_of.
      apply list_elem_of_filter. split; [by subst row; apply andb_true_iff in Ht as [?%bool_decide_eq_true _] | ].
      cbn [rollout_executions db1]. apply list_elem_of_fmap. exists e. by rewrite Ht. }
    split.
    + intros -> ->. cbn [orb]. rewrite <- forallb_is_terminal, <- existsb_is_failed.
      destruct (forallb is_terminal (executions_of rid db1));
        destruct (existsb is_failed (executions_of rid db1));
        (repeat split; try done; try (intros; by eexists)).
    + intros [-> | ->]; [done | by rewrite orb_true_r].
  - intros k Hk. subst res. unfold updateExecutionStatus.
    destruct (negb (includes EXECUTION_STATUSES st)); [done | ].
    destruct (single _); cbn [fst]; [ | done].
    by rewrite checkRolloutCompletion_others.
Qed.

(** Three locations, two completed: the third failing makes the rollout
    fail. *)
Lemma updateExecutionStatus_aggregates_witness :
  ∃ r', rollouts (updateExecutionStatus no_faults 1004 1005 1006 1 "L3" "failed"
                    (Some "timeout") db3_two_done).1 !! 1 = Some r'
        ∧ status r' = "failed" ∧ completed_at r' = Some 1005.
Proof.
  assert (∃ r, rollouts db3_two_done !! 1 = Some r) as [r Hr]
    by (eexists; vm_compute; reflexivity).
  assert (∃ row, (updateExecutionStatus no_faults 1004 1005 1006 1 "L3" "failed"
                    (Some "timeout") db3_two_done).2 = Returns row) as [row Hrow]
    by (eexists; vm_compute; reflexivity).
  refine (proj1 (proj1 (proj2 (proj2 (proj1 (proj2
            (updateExecutionStatus_aggregates no_faults 1004 1005 1006 1 "L3" "failed"
               (Some "timeout") db3_two_done r Hr)) row Hrow))) eq_refl eq_refl) _ _).
  - vm_compute. repeat (constructor; [first [by left | by right] | ]). constructor.
  - vm_compute. do 2 apply Exists_cons_tl. apply Exists_cons_hd. reflexivity.
Defined.

(** The claim as stated fails, in two ways.  A rollout created over no
    location has all of its (zero) executions terminal, yet every
    execution-status update on it throws and it stays [pending].  And with
    two of three executions completed, a last report whose recomputation
    cannot read the executions returns normally, all three executions now
    terminal, with the rollout still [in_progress] and no [completed_at]. *)
Lemma terminal_executions_without_terminal_rollout :
  (Forall Terminal (executions_of 1 created_empty.1)
   ∧ (∀ lid st, updateExecutionStatus no_faults 1004 1005 1006 1 lid st None created_empty.1
                = (created_empty.1, Throws))
   ∧ status <$> rollouts created_empty.1 !! 1 = Some "pending")
  ∧ (let f := {| executions_insert_refused := false; executions_select_fails := true;
                 rollouts_update_refused := false |} in
     let res := updateExecutionStatus f 1004 1005 1006 1 "L3" "completed" None db3_two_done in
     (∃ row, res.2 = Returns row)
     ∧ Forall Terminal (executions_of 1 res.1)
     ∧ status <$> rollouts res.1 !! 1 = Some "in_progress"
     ∧ completed_at <$> rollouts res.1 !! 1 = Some None).
Proof.
  split.
  - split; [vm_compute; constructor | ]. split; [ | vm_compute; reflexivity].
    intros lid st. unfold updateExecutionStatus.
    destruct (negb (includes EXECUTION_STATUSES st)); reflexivity.
  - cbn zeta. split; [eexists; vm_compute; reflexivity | ].
    split; [ | split; vm_compute; reflexivity].
    vm_compute. repeat (constructor; [first [by left | by right] | ]). constructor.
Qed.

Example rollout_completed_completed_failed :
  status <$> rollouts (updateExecutionStatus no_faults 1004 1005 1006 1 "L3" "failed"
                         (Some "timeout") db3_two_done).1 !! 1 = Some "failed".
Proof. vm_compute. reflexivity. Qed.

Example rollout_completed_completed_completed :
  status <$> rollouts (updateExecutionStatus no_faults 1004 1005 1006 1 "L3" "completed" None
                         db3_two_done).1 !! 1 = Some "completed".
Proof. vm_compute. reflexivity. Qed.

Example rollout_two_done_still_in_progress :
  status <$> rollouts db3_two_done !! 1 = Some "in_progress".
Proof. vm_compute. reflexivity. Qed.

(** A call that matches no execution row throws and changes nothing. *)
Lemma updateExecutionStatus_no_row f now t_done t_upd rid lid st msg db :
  filter (λ e, targets rid lid e = true) (rollout_executions db) = [] →
  updateExecutionStatus f now t_done t_upd rid lid st msg db = (db, Throws).
Proof.
  intros Hnone. unfold updateExecutionStatus. rewrite Hnone.
  by destruct (includes EXECUTION_STATUSES st).
Qed.

Lemma targets_none rid lid (es : list Execution) :
  filter (λ e, rollout_id e = rid) es = [] →
  filter (λ e, targets rid lid e = true) es = [].
Proof.
  induction es as [|e es IH]; [done | ].
  intros Hnone. rewrite filter_cons in Hnone. rewrite filter_cons.
  destruct (decide (rollout_id e = rid)) as [Heq|Hne]; [done | ].
  rewrite decide_False; [by apply IH | ].
  unfold targets. by rewrite bool_decide_eq_false_2.
Qed.

(** A rollout without executions can never be completed by an execution
    update: there is no row to update, the call throws before the
    recomputation. *)
Lemma updateExecutionStatus_no_executions f now t_done t_upd rid lid st msg db :
  executions_of rid db = [] →
  updateExecutionStatus f now t_done t_upd rid lid st msg db = (db, Throws).
Proof.
  intros Hnone. apply updateExecutionStatus_no_row. by apply targets_none.
Qed.

Lemma is_due_iff now r :
  is_due now r = true ↔ status r = "scheduled" ∧ ∃ t, scheduled_at r = Some t ∧ t <= now.
Proof.
  unfold is_due. rewrite andb_true_iff, String.eqb_eq.
  destruct (scheduled_at r) as [t|].
  - rewrite Z.leb_le. split.
    + intros [? ?]. eauto.
    + intros [? (t' & [= <-] & ?)]. done.
  - split; [by intros [_ ?] | by intros [_ (t' & ? & _)]].
Qed.

Lemma getDueScheduledRollouts_elem now db r :
  r ∈ getDueScheduledRollouts now db
  ↔ (∃ k, rollouts db !! k = Some r)
    ∧ status r = "scheduled" ∧ ∃ t, scheduled_at r = Some t ∧ t <= now.
Proof.
  unfold getDueScheduledRollouts.
  rewrite list_elem_of_filter, is_due_iff, list_elem_of_fmap.
  split.
  - intros [Hdue ([k r'] & -> & Hin%elem_of_map_to_list)]. split; [by exists k | done].
  - intros [[k Hk] Hdue]. split; [done | ].
    exists (k, r). split; [done | by apply elem_of_map_to_list].
Qed.

Lemma startRollout_pending now rid db r :
  rollouts db !! rid = Some r → status r = "pending" →
  startRollout now rid db =
    ({| rollouts := <[rid := set_status "in_progress" (Some now) (completed_at r) now r]>
                      (rollouts db);
        rollout_executions := rollout_executions db;
        next_id := next_id db |},
     Returns (set_status "in_progress" (Some now) (completed_at r) now r)).
Proof. intros Hr Hs. unfold startRollout. by rewrite Hr, Hs. Qed.

Lemma startRollout_not_pending now rid db r :
  rollouts db !! rid = Some r → status r ≠ "pending" →
  startRollout now rid db = (db, Throws).
Proof.
  intros Hr Hs. unfold startRollout. rewrite Hr.
  by destruct (String.eqb_spec (status r) "pending").
Qed.

(** C7, as the code has it.  [getDueScheduledRollouts] returns exactly the
    stored rollouts in status [scheduled] whose [scheduled_at] is at most
    [now].  [startRollout] moves a [pending] rollout to [in_progress]; on a
    rollout in any other status, [scheduled] included, it throws and leaves
    the tables, hence the status, as they were. *)
Theorem startRollout_only_from_pending now rid db r :
  rollouts db !! rid = Some r →
  (status r = "scheduled" → (∃ t, scheduled_at r = Some t ∧ t <= now) →
     r ∈ getDueScheduledRollouts now db)
  ∧ (∀ r', r' ∈ getDueScheduledRollouts now db →
       status r' = "scheduled" ∧ ∃ t, scheduled_at r' = Some t ∧ t <= now)
  ∧ (status r = "pending" →
       ∃ r', (startRollout now rid db).2 = Returns r'
             ∧ rollouts (startRollout now rid db).1 !! rid = Some r'
             ∧ status r' = "in_progress" ∧ started_at r' = Some now)
  ∧ (status r ≠ "pending" → startRollout now rid db = (db, Throws)).
Proof.
  intros Hr. repeat split.
  - intros Hs Ht. apply getDueScheduledRollouts_elem. eauto.
  - by apply getDueScheduledRollouts_elem in H as (_ & ? & _).
  - by apply getDueScheduledRollouts_elem in H as (_ & _ & ?).
  - intros Hs. rewrite (startRollout_pending now rid db r Hr Hs). simpl.
    eexists. split; [reflexivity | ]. by rewrite lookup_insert_eq.
  - by apply startRollout_not_pending.
Qed.

Lemma db_sched_rollout :
  ∃ r, rollouts db_sched !! 1 = Some r ∧ status r = "scheduled" ∧ scheduled_at r = Some 5000.
Proof. eexists. split; [vm_compute; reflexivity | done]. Qed.

Lemma startRollout_only_from_pending_witness :
  startRollout 6000 1 db_sched = (db_sched, Throws).
Proof.
  eapply (startRollout_only_from_pending 6000 1 db_sched).
  - vm_compute. reflexivity.
  - discriminate.
Defined.

(** The claim as stated fails: a scheduled rollout that is due is returned
    by [getDueScheduledRollouts], yet [startRollout] throws on it and it
    stays [scheduled]. *)
Lemma scheduled_rollout_due_but_not_started :
  ∃ r, rollouts db_sched !! 1 = Some r
       ∧ status r = "scheduled"
       ∧ scheduled_at r = Some 5000
       ∧ r ∈ getDueScheduledRollouts 6000 db_sched
       ∧ startRollout 6000 1 db_sched = (db_sched, Throws)
       ∧ status <$> rollouts (startRollout 6000 1 db_sched).1 !! 1 = Some "scheduled"
       ∧ status <$> rollouts (startRollout 6000 1 db_sched).1 !! 1 ≠ Some "in_progress".
Proof.
  destruct db_sched_rollout as (r & Hr & Hs & Ht). exists r.
  assert (startRollout 6000 1 db_sched = (db_sched, Throws)) as Hstart.
  { apply (startRollout_not_pending _ _ _ r Hr). by rewrite Hs. }
  split; [done | ]. split; [done | ]. split; [done | ].
  split. { apply getDueScheduledRollouts_elem. split; [by exists 1 | ]. split; [done | ].
           exists 5000. split; [done | lia]. }
  split; [done | ].
  rewrite Hstart. cbn [fst]. rewrite Hr. cbn [fmap option_fmap option_map]. rewrite Hs.
  by split.
Qed.

Lemma createRollout_returns f now name org ty targets payload sched by_ db :
  includes ROLLOUT_TYPES ty = true →
  ∃ r, (createRollout f now name org ty targets payload sched by_ db).2 = Returns r
       ∧ id r = next_id db
       ∧ target_locations r = targets
       ∧ status r = match sched with Some _ => "scheduled" | None => "pending" end
       ∧ rollouts (createRollout f now name org ty targets payload sched by_ db).1 !! id r
         = Some r.
Proof.
  intros Hty. unfold createRollout. rewrite Hty. simpl.
  eexists. split; [reflexivity | ]. simpl. repeat split.
  destruct targets; destruct (executions_insert_refused f); simpl;
    by rewrite lookup_insert_eq.
Qed.

Lemma no_execution_of_fresh_key (es : list Execution) k :
  (∀ e, e ∈ es → rollout_id e < k) →
  filter (λ e, rollout_id e = k) es = [].
Proof.
  induction es as [|e es IH]; intros Hfresh; [done | ].
  rewrite filter_cons, decide_False.
  - apply IH. intros e' He'. apply Hfresh. by right.
  - assert (rollout_id e < k) by (apply Hfresh; by left). lia.
Qed.

(** C8, as the code has it.  Creating a rollout over an empty set of
    target locations is not special-cased: the creation succeeds, the
    rollout is stored as [pending] (or [scheduled] when a time is given),
    which is no terminal status, and no execution record is written.  With
    no execution row to update, every later execution-status update on it
    throws before the aggregation, so none can complete it. *)
Theorem createRollout_no_targets f now name org ty payload sched by_ db :
  includes ROLLOUT_TYPES ty = true →
  well_keyed db →
  let res := createRollout f now name org ty [] payload sched by_ db in
  ∃ r, res.2 = Returns r
       ∧ rollouts res.1 !! id r = Some r
       ∧ status r = match sched with Some _ => "scheduled" | None => "pending" end
       ∧ terminal_status (status r) = false
       ∧ rollout_executions res.1 = rollout_executions db
       ∧ executions_of (id r) res.1 = []
       ∧ ∀ f' now' t_done t_upd lid st msg,
           updateExecutionStatus f' now' t_done t_upd (id r) lid st msg res.1 = (res.1, Throws).
Proof.
  intros Hty [_ Hfresh] res.
  destruct (createRollout_returns f now name org ty [] payload sched by_ db Hty)
    as (r & Hret & Hid & _ & Hstatus & Hstored).
  fold res in Hret, Hstored. exists r.
  assert (rollout_executions res.1 = rollout_executions db) as Hsame.
  { subst res. unfold createRollout. by rewrite Hty. }
  assert (executions_of (id r) res.1 = []) as Hnone.
  { unfold executions_of. rewrite Hsame, Hid. by apply no_execution_of_fresh_key. }
  repeat split; try done.
  - rewrite Hstatus. by destruct sched.
  - intros. by apply updateExecutionStatus_no_executions.
Qed.

Lemma well_keyed_empty_db : well_keyed empty_db.
Proof.
  split.
  - intros k r Hk. unfold empty_db in Hk. cbn [rollouts] in Hk.
    by rewrite lookup_empty in Hk.
  - intros e He. by apply elem_of_nil in He.
Qed.

Lemma createRollout_no_targets_witness :
  ∃ r, created_empty.2 = Returns r
       ∧ status r = "pending"
       ∧ executions_of (id r) created_empty.1 = [].
Proof.
  destruct (createRollout_no_targets no_faults 1000 "Nowhere" "org-1" "menu_activation" "{}"
              None None empty_db) as (r & Hret & _ & Hs & _ & _ & Hnone & _).
  - reflexivity.
  - exact well_keyed_empty_db.
  - exists r. done.
Defined.

(** The claim as stated fails: a rollout created over no location is
    accepted and stored as [pending], not terminal, with no execution
    record. *)
Lemma empty_rollout_is_stored_pending :
  ∃ r, created_empty.2 = Returns r
       ∧ rollouts created_empty.1 !! id r = Some r
       ∧ target_locations r = []
       ∧ status r = "pending"
       ∧ terminal_status (status r) = false
       ∧ executions_of (id r) created_empty.1 = [].
Proof.
  destruct (createRollout_returns no_faults 1000 "Nowhere" "org-1" "menu_activation" [] "{}"
              None None empty_db eq_refl) as (r & Hret & Hid & Htl & Hs & Hstored).
  exists r. fold created_empty in Hret, Hstored.
  repeat split; try done.
  by rewrite Hs.
Qed.

End RolloutFacts.

(** ** Event mirror *)
Section EventsFacts.
Import Events.
Local Arguments includes : simpl never.

Lemma lookup_prop_absent k props : k ∉ props.*1 → lookup_prop k props = VUndefined.
Proof.
  induction props as [|[k' v] props IH]; simpl; [done | ].
  rewrite not_elem_of_cons. intros [Hne Hrest].
  destruct (String.eqb_spec k' k); [congruence | by apply IH].
Qed.

Lemma includes_value_truthy v : includes_value validServices v = true → truthy v = true.
Proof.
  destruct v as [| | | |s| |]; cbn [includes_value truthy]; try done.
  intros Hin%includes_elem_of. unfold validServices in Hin.
  rewrite !elem_of_cons, elem_of_nil in Hin.
  destruct Hin as [->|[->|[->|[->|[]]]]]; reflexivity.
Qed.

(** An entry that lacks a required field, or names no recognized service,
    is not valid. *)
Lemma invalid_entry_not_valid e : invalid_entry e → valid_entry e = false.
Proof.
  destruct e as [| | | | | |props]; try done.
  unfold invalid_entry, missing, unrecognized_service, valid_entry.
  intros [H|[H|[H|H]]].
  - by rewrite (lookup_prop_absent _ _ H).
  - rewrite (lookup_prop_absent _ _ H). simpl. by rewrite !andb_false_r.
  - rewrite (lookup_prop_absent _ _ H). simpl. by rewrite andb_false_r.
  - destruct (lookup_prop "source_service" props) as [| | | |s| |] eqn:Hs;
      simpl; rewrite ?andb_false_r; try done.
    apply andb_false_intro2. apply includes_false. by apply H.
Qed.

(** One turn of the loop on an entry that is not [null]. *)
Lemma validate_one_spec now_iso i e :
  nullish e = false →
  validate_one now_iso i e =
    if valid_entry e then Accept (to_row now_iso e)
    else Reject {| index := i;
                   error := if truthy (prop e "event_type")
                               && truthy (prop e "source_service")
                               && truthy (prop e "location_id")
                            then INVALID_SERVICE else MISSING_FIELDS |}.
Proof.
  intros Hnn. unfold validate_one, get. rewrite Hnn.
  destruct e as [| | | | | |props]; try done.
  unfold valid_entry, prop.
  destruct (truthy (lookup_prop "event_type" props)); simpl; [ | done].
  destruct (truthy (lookup_prop "location_id" props)) eqn:Hloc; simpl.
  - destruct (includes_value validServices (lookup_prop "source_service" props)) eqn:Hsvc.
    + by rewrite (includes_value_truthy _ Hsvc).
    + simpl. destruct (truthy (lookup_prop "source_service" props)); simpl; done.
  - rewrite orb_true_r, andb_false_r. done.
Qed.

Lemma validate_one_null now_iso i : validate_one now_iso i VNull = Crash.
Proof. reflexivity. Qed.

(** The loop over a batch without [null] entries: the valid entries are
    pushed in order, each other entry leaves an error carrying its index. *)
Lemma validate_spec now_iso events : ∀ i validEvents errors,
  Forall (λ e, nullish e = false) events →
  ∃ errs,
    validate now_iso i events validEvents errors =
      Some (validEvents ++ (to_row now_iso <$> filter (λ e, valid_entry e = true) events),
            errors ++ errs)
    ∧ (∀ k e, events !! k = Some e → valid_entry e = false →
         ∃ msg, {| index := i + k; error := msg |} ∈ errs)
    ∧ (∀ err, err ∈ errs →
         ∃ k e, index err = (i + k)%nat ∧ events !! k = Some e ∧ valid_entry e = false).
Proof.
  induction events as [|e rest IH]; intros i validEvents errors Hnn.
  - exists []. simpl. rewrite !app_nil_r. split; [done | ].
    split; [intros k e Hk; by rewrite lookup_nil in Hk | by intros err ?%elem_of_nil].
  - apply Forall_cons in Hnn as [He Hrest]. simpl.
    rewrite (validate_one_spec _ _ _ He), filter_cons.
    destruct (valid_entry e) eqn:Hv.
    + destruct (IH (S i) (validEvents ++ [to_row now_iso e]) errors Hrest)
        as (errs & Hrun & Hall & Honly).
      exists errs. rewrite Hrun, decide_True by done.
      rewrite fmap_cons, <- app_assoc. split; [done | ]. split.
      * intros [|k] e' Hk Hv'; simpl in Hk.
        { congruence. }
        destruct (Hall k e' Hk Hv') as [msg Hmsg]. exists msg.
        by replace (i + S k)%nat with (S i + k)%nat by lia.
      * intros err Herr. destruct (Honly err Herr) as (k & e' & Hidx & Hk & Hv').
        exists (S k), e'. split; [lia | done].
    + set (err0 := {| index := i; error := _ |}).
      destruct (IH (S i) validEvents (errors ++ [err0]) Hrest)
        as (errs & Hrun & Hall & Honly).
      exists (err0 :: errs). rewrite Hrun, decide_False by congruence.
      rewrite <- app_assoc. split; [done | ]. split.
      * intros [|k] e' Hk Hv'; simpl in Hk.
        { eexists. replace (i + 0)%nat with i by lia. apply list_elem_of_here. }
        destruct (Hall k e' Hk Hv') as [msg Hmsg]. exists msg.
        replace (i + S k)%nat with (S i + k)%nat by lia. by right.
      * intros err [->|Herr]%elem_of_cons.
        { exists 0%nat, e. split; [simpl; lia | done]. }
        destruct (Honly err Herr) as (k & e' & Hidx & Hk & Hv').
        exists (S k), e'. split; [lia | done].
Qed.

(** On a batch without [null] entries the handler works item by item:
    every entry that lacks a required field or names an unrecognized
    service gets an error with its index, and, provided the store takes the
    insert, every valid entry is stored. *)
Lemma post_events_per_item batch now_iso event_log :
  Forall (λ e, nullish e = false) batch →
  (∃ e, e ∈ batch ∧ valid_entry e = true) →
  ∃ errs,
    post_events true (Some (VArr batch)) now_iso false event_log =
      (event_log ++ (to_row now_iso <$> filter (λ e, valid_entry e = true) batch),
       Logged (length (filter (λ e, valid_entry e = true) batch))
              (if (0 <? length errs)%nat then Some errs else None))
    ∧ (∀ k e, batch !! k = Some e → invalid_entry e →
         ∃ msg, {| index := k; error := msg |} ∈ errs)
    ∧ (∀ e, e ∈ batch → valid_entry e = true →
         to_row now_iso e ∈ (post_events true (Some (VArr batch)) now_iso false event_log).1).
Proof.
  intros Hnn (e0 & Hin0 & Hv0).
  destruct (validate_spec now_iso batch 0 [] [] Hnn) as (errs & Hrun & Hall & _).
  simpl in Hrun.
  assert (post_events true (Some (VArr batch)) now_iso false event_log =
      (event_log ++ (to_row now_iso <$> filter (λ e, valid_entry e = true) batch),
       Logged (length (filter (λ e, valid_entry e = true) batch))
              (if (0 <? length errs)%nat then Some errs else None))) as Hpost.
  { unfold post_events. simpl. rewrite Hrun, length_fmap.
    assert (e0 ∈ filter (λ e, valid_entry e = true) batch) as Hmem
      by (by apply list_elem_of_filter).
    destruct (filter (λ e, valid_entry e = true) batch); [by apply elem_of_nil in Hmem | ].
    done. }
  exists errs. split; [exact Hpost | ]. split.
  - intros k e Hk Hinv. apply (Hall k e Hk). by apply invalid_entry_not_valid.
  - intros e Hin Hv. rewrite Hpost. simpl. apply elem_of_app. right.
    apply list_elem_of_fmap. exists e. split; [done | by apply list_elem_of_filter].
Qed.

Example post_events_mixed_batch :
  post_events true (Some (VArr [no_type_event; good_event; bad_service_event])) "t" false [] =
    ([to_row "t" good_event],
     Logged 1 (Some [{| index := 0; error := MISSING_FIELDS |};
                     {| index := 2; error := INVALID_SERVICE |}])).
Proof. reflexivity. Qed.

(** C10 at a batch holding a [null] entry.  [null] has no [event_type] and
    [good_event] is valid, yet reading [e.event_type] of [null] throws: the
    handler answers through its outer [catch] with status 500, no per-item
    error is reported and the valid entry is not stored.  The same happens
    wherever the [null] stands in the batch and when the body is [null]
    alone. *)
Theorem post_events_null_entry_rejects_batch now_iso insert_error event_log :
  missing "event_type" VNull
  ∧ valid_entry good_event = true
  ∧ post_events true (Some (VArr [VNull; good_event])) now_iso insert_error event_log
    = (event_log, Thrown)
  ∧ post_events true (Some (VArr [good_event; VNull])) now_iso insert_error event_log
    = (event_log, Thrown)
  ∧ post_events true (Some VNull) now_iso insert_error event_log = (event_log, Thrown)
  ∧ statusCode Thrown = 500.
Proof. repeat split. Qed.

End EventsFacts.

Arguments includes : simpl never.

(** ** Account-level gate, pre-flight and audit buffer *)
Section AccountGateFacts.
Import Enforce.

Lemma canPairDevice_code account :
  Pair.code (Pair.canPairDevice account) =
    if negb (isBillingActive (Pair.billing_status account)) then Some "BILLING_INACTIVE"
    else match max_devices (Pair.plan account) with
         | Limit m =>
             if Pair.device_count account >=? m then Some "DEVICE_LIMIT_EXCEEDED" else None
         | unlimited => None
         end.
Proof.
  unfold Pair.canPairDevice.
  change (includes ACTIVE_BILLING_STATUSES (Pair.billing_status account))
    with (isBillingActive (Pair.billing_status account)).
  destruct (isBillingActive (Pair.billing_status account)); cbn; [ | done].
  destruct (max_devices (Pair.plan account)) as [m|]; [ | done].
  by destruct (Pair.device_count account >=? m).
Qed.

Lemma canPairDevice_allowed_iff account :
  Pair.allowed (Pair.canPairDevice account) = true
  ↔ Pair.code (Pair.canPairDevice account) = None.
Proof.
  unfold Pair.canPairDevice.
  destruct (negb _); [done | ].
  destruct (max_devices (Pair.plan account)) as [m|]; [ | done].
  by destruct (Pair.device_count account >=? m).
Qed.

(** X1. The pre-flight predicate [canPairDevice] and the pairing itself
    decide alike as long as the device count is a safe integer: for every
    such account, [canPairDevice] allows exactly when [pairDevice]
    succeeds, and when they refuse they give the same code, although one
    compares [device_count >= max] and the other [device_count + 1 <= max].
    Past the safe integers they part: with [device_count] and the limit
    both 2^53 the sum [device_count + 1] is 2^53 again, so [pairDevice]
    succeeds where [canPairDevice] refuses. *)
Theorem canPairDevice_agrees_with_pairDevice t1 t2 t3 t4 req account logs :
  (- MAX_SAFE_INTEGER <= Pair.device_count account <= MAX_SAFE_INTEGER →
     Pair.allowed (Pair.canPairDevice account)
     = Pair.success (Pair.pairDevice t1 t2 t3 t4 req account logs).2
     ∧ Pair.code (Pair.canPairDevice account)
       = Pair.response_code (Pair.pairDevice t1 t2 t3 t4 req account logs).2)
  ∧ (Pair.billing_status account = "paid" →
     Pair.plan account = {| max_devices := Limit (MAX_SAFE_INTEGER + 1) |} →
     Pair.device_count account = MAX_SAFE_INTEGER + 1 →
     Pair.allowed (Pair.canPairDevice account) = false
     ∧ Pair.success (Pair.pairDevice t1 t2 t3 t4 req account logs).2 = true).
Proof.
  split.
  - intros Hsafe.
    assert (Pair.code (Pair.canPairDevice account)
            = Pair.response_code (Pair.pairDevice t1 t2 t3 t4 req account logs).2) as Hcode.
    { rewrite canPairDevice_code, pairDevice_code, plus_one_safe by done.
      destruct (isBillingActive (Pair.billing_status account)); cbn; [ | done].
      destruct (max_devices (Pair.plan account)) as [m|]; [ | done].
      destruct (Z.geb_spec (Pair.device_count account) m),
               (Z.leb_spec (Pair.device_count account + 1) m); (done || lia). }
    split; [ | exact Hcode].
    apply eq_true_iff_eq.
    rewrite canPairDevice_allowed_iff, pairDevice_success_iff. by rewrite Hcode.
  - intros Hpaid Hplan Hcount. split.
    + apply not_true_is_false. rewrite canPairDevice_allowed_iff, canPairDevice_code.
      by rewrite Hpaid, Hplan, Hcount.
    + rewrite pairDevice_success_iff, pairDevice_code. by rewrite Hpaid, Hplan, Hcount.
Qed.

Lemma canPairDevice_agrees_with_pairDevice_witness :
  Pair.code (Pair.canPairDevice Samples.atLimitAccount)
  = Pair.response_code (Pair.pairDevice 1 2 3 4 Samples.request Samples.atLimitAccount []).2.
Proof.
  apply (proj1 (canPairDevice_agrees_with_pairDevice 1 2 3 4 Samples.request
                  Samples.atLimitAccount [])).
  vm_compute. split; discriminate.
Defined.

(** X2. The audit trail of [pairDevice]: the log is only appended to; a
    pairing stopped at the billing gate leaves one entry, any other leaves
    three (billing check, limit check, outcome); the last entry is a
    [PAIR_DEVICE] entry whose result is [ALLOWED] exactly when the pairing
    succeeded, and every new entry records the account's billing status. *)
Theorem pairDevice_audit_trail t1 t2 t3 t4 req account logs :
  let r := Pair.pairDevice t1 t2 t3 t4 req account logs in
  ∃ new last_entry,
    r.1 = logs ++ new
    ∧ length new = (if isBillingActive (Pair.billing_status account) then 3 else 1)%nat
    ∧ last new = Some last_entry
    ∧ action last_entry = "PAIR_DEVICE"
    ∧ result last_entry = (if Pair.success r.2 then ALLOWED else BLOCKED)
    ∧ Forall (λ e, log_billing_status e = Pair.billing_status account
                   ∧ org_id e = Some (Pair.id account)) new.
Proof.
  unfold Pair.pairDevice, enforceBillingForPairing, enforceDeviceLimit, logEnforcementEvent.
  cbn [Pair.as_enforce billing_status plan id].
  destruct (isBillingActive (Pair.billing_status account)); cbn.
  - destruct (max_devices (Pair.plan account)) as [m|]; cbn.
    + destruct (plus_one (Pair.device_count account) <=? m); cbn;
        rewrite <- !app_assoc; cbn; eexists _, _;
        (split; [reflexivity | ]); repeat split; repeat constructor.
    + rewrite <- !app_assoc; cbn; eexists _, _;
        (split; [reflexivity | ]); repeat split; repeat constructor.
  - eexists _, _; (split; [reflexivity | ]); repeat split; repeat constructor.
Qed.

(** X3. [getEnforcementLogs]: the answer is always a suffix of the buffer;
    for a positive [limit] it holds the [min limit (length buffer)] latest
    entries, the newest last; with [limit] 0 it is the whole buffer, as
    [slice(-0)] is [slice(0)]. *)
Theorem getEnforcementLogs_latest limit (logs : Logs) :
  getEnforcementLogs limit logs `suffix_of` logs
  ∧ getEnforcementLogs 0 logs = logs
  ∧ (limit ≠ 0%nat →
       length (getEnforcementLogs limit logs) = (limit `min` length logs)%nat
       ∧ ∀ now log,
           last (getEnforcementLogs limit (logEnforcementEvent now log logs))
           = last (logEnforcementEvent now log logs)).
Proof.
  split; [ | split; [done | ]].
  - destruct limit; [done | apply suffix_drop].
  - intros Hpos. destruct limit as [|n]; [done | ]. cbn [getEnforcementLogs]. split.
    + rewrite length_drop. lia.
    + intros now log. unfold logEnforcementEvent. rewrite length_app. cbn [length].
      rewrite drop_app_le by lia. by rewrite !last_snoc.
Qed.

Lemma getEnforcementLogs_latest_witness :
  length (getEnforcementLogs 2 (logEnforcementEvent 1
            (location_log Samples.paidAccount Samples.openLocation ALLOWED None None None) []))
  = 1%nat.
Proof.
  apply (getEnforcementLogs_latest 2). lia.
Defined.

(** X4. Remaining slots agree with the limit checks and are never negative:
    [canAddDevice] holds exactly when the plan is unlimited or
    [getRemainingDeviceSlots] is positive; and at an active location whose
    setup fee is paid, under active billing, [enforceLocationPairing] allows
    the pairing exactly when [getLocationRemainingSlots] is positive. *)
Theorem remaining_slots_agree now account (location : Location) count logs :
  (canAddDevice account count = true
   ↔ getRemainingDeviceSlots account count = unlimited
     ∨ ∃ k, getRemainingDeviceSlots account count = Limit k ∧ 0 < k)
  ∧ (∀ k, getRemainingDeviceSlots account count = Limit k → 0 <= k)
  ∧ 0 <= getLocationRemainingSlots location count
  ∧ (isBillingActive (billing_status account) = true →
     active location = true → setup_fee_paid location = true →
     (allowed (enforceLocationPairing now account location count logs).2 = true
      ↔ 0 < getLocationRemainingSlots location count)).
Proof.
  unfold canAddDevice, getRemainingDeviceSlots, getLocationRemainingSlots.
  split; [ | split; [ | split]].
  - split.
    + destruct (max_devices (plan account)) as [m|]; [ | by left].
      intros Hlt%Z.ltb_lt. right. eexists. split; [done | lia].
    + destruct (max_devices (plan account)) as [m|]; [ | done].
      intros [?|(k & [= <-] & Hk)]; [done | ]. apply Z.ltb_lt. lia.
  - destruct (max_devices (plan account)) as [m|]; [ | done]. intros k [= <-]. lia.
  - lia.
  - intros Hb Ha Hf. unfold enforceLocationPairing. rewrite Hb, Ha, Hf. cbn.
    destruct (Z.geb_spec count (device_limit location)); cbn; split; (done || lia).
Qed.

Lemma remaining_slots_agree_witness :
  allowed (enforceLocationPairing 0 Samples.paidAccount Samples.openLocation 2 []).2 = true
  ↔ 0 < getLocationRemainingSlots Samples.openLocation 2.
Proof.
  apply (remaining_slots_agree 0 Samples.paidAccount Samples.openLocation 2 []);
    reflexivity.
Defined.

(** X5. [enforceDeviceLimit] on the count a new device would bring,
    [count + 1] as [pairDevice] computes it, throws exactly when
    [canAddDevice] refuses the current count, as long as the count is a
    safe integer; it never throws for an unlimited plan, and in every case
    writes one [CHECK_DEVICE_LIMIT] entry, recording the count it was
    given, whose result is [BLOCKED] exactly when it throws.  Past the safe
    integers the two part: at a count and a limit of 2^53 the rounded sum
    does not pass the limit, and the call does not throw, while
    [canAddDevice] refuses. *)
Theorem enforceDeviceLimit_throws_iff now account count logs :
  let r := enforceDeviceLimit now account (plus_one count) logs in
  (- MAX_SAFE_INTEGER <= count <= MAX_SAFE_INTEGER →
     ((∃ msg, r.2 = inr msg) ↔ canAddDevice account count = false)
     ∧ plus_one count = count + 1)
  ∧ (max_devices (plan account) = unlimited → r.2 = inl ())
  ∧ (∃ entry, r.1 = logs ++ [entry]
       ∧ action entry = "CHECK_DEVICE_LIMIT"
       ∧ log_device_count entry = Some (plus_one count)
       ∧ result entry = (if r.2 is inl _ then ALLOWED else BLOCKED))
  ∧ (max_devices (plan account) = Limit (MAX_SAFE_INTEGER + 1) →
     count = MAX_SAFE_INTEGER + 1 →
     r.2 = inl () ∧ canAddDevice account count = false).
Proof.
  unfold enforceDeviceLimit, canAddDevice, logEnforcementEvent.
  destruct (max_devices (plan account)) as [m|]; cbn.
  - split; [ | split; [done | split]].
    + intros Hsafe. rewrite (plus_one_safe count Hsafe). split; [ | done].
      destruct (Z.leb_spec (count + 1) m), (Z.ltb_spec count m); try lia; cbn.
      * split; [by intros [? ?] | done].
      * split; [done | by eexists].
    + destruct (plus_one count <=? m); cbn; eexists; repeat split.
    + intros [= ->] ->. done.
  - split; [ | split; [done | split; [ | done]]].
    + intros Hsafe. split; [ | by apply plus_one_safe].
      split; [by intros [? ?] | done].
    + eexists. repeat split.
Qed.

Lemma enforceDeviceLimit_throws_iff_witness :
  ∃ msg, (enforceDeviceLimit 0 Samples.paidAccount (plus_one 3) []).2 = inr msg.
Proof.
  apply (proj1 (enforceDeviceLimit_throws_iff 0 Samples.paidAccount 3 [])).
  - vm_compute. split; discriminate.
  - reflexivity.
Defined.

(** X6. The account-level billing gate fails closed: it allows exactly the
    statuses [paid] and [trialing]; each status listed as blocked, and any
    string it does not know, is refused with [BILLING_INACTIVE]; allowed or
    not, the call writes exactly one [PAIR_DEVICE] entry telling the
    decision. *)
Theorem enforceBillingForPairing_fails_closed now account logs :
  let r := enforceBillingForPairing now account logs in
  (allowed r.2 = true ↔ billing_status account = "paid" ∨ billing_status account = "trialing")
  ∧ (allowed r.2 = false → code r.2 = Some "BILLING_INACTIVE" ∧ is_Some (message r.2))
  ∧ (billing_status account ∈ BLOCKED_BILLING_STATUSES → allowed r.2 = false)
  ∧ ∃ entry, r.1 = logs ++ [entry]
      ∧ action entry = "PAIR_DEVICE"
      ∧ log_billing_status entry = billing_status account
      ∧ result entry = (if allowed r.2 then ALLOWED else BLOCKED).
Proof.
  intros r. subst r. rewrite enforceBillingForPairing_decision.
  unfold enforceBillingForPairing, logEnforcementEvent.
  pose proof (isBillingActive_iff (billing_status account)) as Hiff.
  destruct (isBillingActive (billing_status account)) eqn:Hb; cbn.
  - split; [tauto | ]. split; [done | ]. split.
    + unfold BLOCKED_BILLING_STATUSES. rewrite !elem_of_cons, elem_of_nil.
      intros Hin. destruct Hiff as [Hiff _]. specialize (Hiff eq_refl).
      destruct Hiff as [Heq|Heq]; rewrite Heq in Hin;
        destruct Hin as [?|[?|[?|[]]]]; discriminate.
    + eexists. repeat split.
  - split; [split; [done | intros H; by apply Hiff in H] | ].
    split; [intros _; split; [done | by eexists] | ]. split; [done | ].
    eexists. repeat split.
Qed.

Lemma enforceBillingForPairing_fails_closed_witness :
  allowed (enforceBillingForPairing 0 Samples.unpaidAccount []).2 = false.
Proof.
  apply (enforceBillingForPairing_fails_closed 0 Samples.unpaidAccount []).
  unfold BLOCKED_BILLING_STATUSES. cbn. rewrite !elem_of_cons. tauto.
Defined.

End AccountGateFacts.

(** ** Device heartbeats and the offline check *)
Section OfflineFacts.
Import Heartbeat.

(** X7. A device that has never sent a heartbeat is offline.  After a
    heartbeat handled at time [t] the device is not offline as long as no
    more than three intervals (180 s) have passed, and offline after that;
    the verdict on any other device is what it was. *)
Theorem checkDeviceOffline_after_heartbeat (seen : gmap string Z) t t_reply p info now other :
  let seen' := (handleHeartbeat seen t t_reply p info).1 in
  (seen !! other = None → checkDeviceOffline seen now other = true)
  ∧ (now - t <= 180000 → checkDeviceOffline seen' now (device_id p) = false)
  ∧ (now - t > 180000 → checkDeviceOffline seen' now (device_id p) = true)
  ∧ (other ≠ device_id p →
       checkDeviceOffline seen' now other = checkDeviceOffline seen now other).
Proof.
  unfold checkDeviceOffline, handleHeartbeat,
    HEARTBEAT_INTERVAL_SECONDS, MISSED_BEATS_BEFORE_OFFLINE. cbn [fst].
  repeat split.
  - by intros ->.
  - intros Hle. rewrite lookup_insert_eq, Z.gtb_ltb. apply Z.ltb_ge. lia.
  - intros Hgt. rewrite lookup_insert_eq. rewrite Z.gtb_ltb. apply Z.ltb_lt. lia.
  - intros Hne. by rewrite lookup_insert_ne.
Qed.

Lemma checkDeviceOffline_after_heartbeat_witness :
  checkDeviceOffline (handleHeartbeat ∅ 1000 1001 Samples.beat None).1 181000
    (device_id Samples.beat) = false
  ∧ checkDeviceOffline (handleHeartbeat ∅ 1000 1001 Samples.beat None).1 181001
      (device_id Samples.beat) = true.
Proof.
  split.
  - apply (checkDeviceOffline_after_heartbeat ∅ 1000 1001 Samples.beat None 181000 "x"). lia.
  - apply (checkDeviceOffline_after_heartbeat ∅ 1000 1001 Samples.beat None 181001 "x"). lia.
Defined.

End OfflineFacts.

(** ** Billing webhook *)
Section WebhookFacts.
Import Webhook.

Variable constructEvent : Z → string → string → string → option StripeEvent.

Lemma update_where_Some matches change orgs :
  (∀ o, o ∈ orgs → matches o = true → current_plan (change o) ∈ PLANS) →
  update_where false matches change orgs
  = Some ((λ o, if matches o then change o else o) <$> orgs).
Proof.
  intros Hplans. unfold update_where.
  replace (forallb _ orgs) with true; [done | ]. symmetry.
  apply forallb_forall. intros o Hin%list_elem_of_In.
  destruct (matches o) eqn:Hm; [ | done]. simpl.
  apply includes_elem_of. by apply Hplans.
Qed.

Lemma update_where_inv store_error matches change orgs orgs' :
  update_where store_error matches change orgs = Some orgs' →
  store_error = false
  ∧ orgs' = (λ o, if matches o then change o else o) <$> orgs
  ∧ ∀ o, o ∈ orgs → matches o = true → current_plan (change o) ∈ PLANS.
Proof.
  unfold update_where. destruct store_error; [done | ].
  destruct (forallb _ orgs) eqn:Hall; [ | done]. intros [= <-].
  split; [done | ]. split; [done | ].
  intros o Hin%list_elem_of_In Hm.
  rewrite forallb_forall in Hall. specialize (Hall o Hin). rewrite Hm in Hall.
  by apply includes_elem_of.
Qed.

Lemma of_customer_iff c o : of_customer c o = true ↔ stripe_customer_id o = Some c.
Proof.
  unfold of_customer. destruct (stripe_customer_id o) as [c'|]; [ | done].
  rewrite String.eqb_eq. split; [by intros -> | by intros [= ->]].
Qed.

Lemma or_string_plan_cases x :
  or_string x "starter" ∈ PLANS ∨ or_string x "starter" ∉ PLANS.
Proof. destruct (decide (or_string x "starter" ∈ PLANS)); tauto. Qed.

(** What a verified request comes down to. *)
Lemma handleStripeWebhook_verified env t_verify now store_error req orgs sig secret event :
  stripe_signature req = Some sig → sig ≠ "" →
  getWebhookSecret env = Some secret →
  constructEvent t_verify (rawBody req) sig secret = Some event →
  handleStripeWebhook constructEvent env t_verify now store_error req orgs =
    match dispatch now store_error event orgs with
    | Some orgs' => (orgs', Received)
    | None => (orgs, HandlerFailed)
    end.
Proof.
  intros Hsig Hne Hsecret Hevent. unfold handleStripeWebhook.
  rewrite Hsig. destruct (String.eqb_spec sig ""); [done | ].
  by rewrite Hsecret, Hevent.
Qed.

Lemma toISOString_Some seconds ms :
  toISOString seconds = Some ms
  ↔ ∃ s, seconds = Some s ∧ ms = s * 1000 ∧ - MAX_TIME_VALUE <= ms <= MAX_TIME_VALUE.
Proof.
  unfold toISOString. destruct seconds as [s|].
  - destruct (Z.leb_spec (- MAX_TIME_VALUE) (s * 1000)),
             (Z.leb_spec (s * 1000) MAX_TIME_VALUE); cbn [andb]; split.
    all: try (intros [= <-]; exists s; split; [done | split; [done | lia]]).
    all: try done.
    all: try (intros (s' & [= <-] & -> & ?); (done || lia)).
  - split; [done | by intros (s & ? & _)].
Qed.

(** X8. A subscription created or updated at the provider, whose period
    end is a time a [Date] can hold, is synced to every organization of
    that customer, and to no other: such a row gets the platform status
    [mapSubscriptionStatus] gives for the provider's status, the raw status
    and the period end, and from then on the pairing gate's billing check
    passes for it exactly when the provider's status is [active] or
    [trialing].  No row is added or removed.  When the period end is absent
    or beyond the range of [Date], building the update throws: the answer
    is 500 and nothing is synced. *)
Theorem subscription_change_syncs env t_verify now req orgs sig secret event subscription c :
  stripe_signature req = Some sig → sig ≠ "" →
  getWebhookSecret env = Some secret →
  constructEvent t_verify (rawBody req) sig secret = Some event →
  event = SubscriptionCreated subscription ∨ event = SubscriptionUpdated subscription →
  reference_id (sub_customer subscription) = Some c →
  or_string (metadata_get (sub_metadata subscription) "plan") "starter" ∈ PLANS →
  let r := handleStripeWebhook constructEvent env t_verify now false req orgs in
  (∀ seconds, sub_current_period_end subscription = Some seconds →
     - MAX_TIME_VALUE <= seconds * 1000 <= MAX_TIME_VALUE →
     r.2 = Received
     ∧ length r.1 = length orgs
     ∧ ∀ i o, orgs !! i = Some o →
         ∃ o', r.1 !! i = Some o'
           ∧ id o' = id o ∧ stripe_customer_id o' = stripe_customer_id o
           ∧ (stripe_customer_id o ≠ Some c → o' = o)
           ∧ (stripe_customer_id o = Some c →
                billing_status o'
                = Resolver.to_string (Resolver.mapSubscriptionStatus (sub_status subscription))
                ∧ subscription_status o' = Some (sub_status subscription)
                ∧ current_period_end o' = Some (seconds * 1000)
                ∧ (Enforce.isBillingActive (billing_status o') = true
                   ↔ sub_status subscription = "active"
                     ∨ sub_status subscription = "trialing")))
  ∧ ((sub_current_period_end subscription = None
      ∨ ∃ seconds, sub_current_period_end subscription = Some seconds
                   ∧ ¬ (- MAX_TIME_VALUE <= seconds * 1000 <= MAX_TIME_VALUE)) →
     r = (orgs, HandlerFailed)).
Proof.
  intros Hsig Hne Hsecret Hevent Hkind Hc Hplan r. subst r.
  rewrite (handleStripeWebhook_verified _ _ _ _ _ _ _ _ _ Hsig Hne Hsecret Hevent).
  assert (dispatch now false event orgs = handleSubscriptionChange now false subscription orgs)
    as -> by (by destruct Hkind as [-> | ->]).
  unfold handleSubscriptionChange. rewrite Hc. split.
  - intros seconds Hsec Hrange.
    assert (toISOString (sub_current_period_end subscription) = Some (seconds * 1000)) as ->.
    { apply toISOString_Some. by exists seconds. }
    rewrite update_where_Some by done. cbn [fst snd].
    split; [done | ]. split; [by rewrite length_fmap | ].
    intros i o Hi. rewrite list_lookup_fmap, Hi. cbn.
    eexists. split; [reflexivity | ].
    destruct (of_customer c o) eqn:Hm.
    + apply of_customer_iff in Hm. cbn.
      split; [done | ]. split; [done | ]. split; [done | ]. intros _.
      split; [done | ]. split; [done | ]. split; [done | ]. apply resolver_opens_gate.
    + split; [done | ]. split; [done | ]. split; [done | ].
      intros Hyes%of_customer_iff. congruence.
  - intros Hbad.
    destruct (toISOString (sub_current_period_end subscription)) as [ms|] eqn:Hms; [ | done].
    apply toISOString_Some in Hms as (s & Hs & -> & Hrange). exfalso.
    destruct Hbad as [Hnone | (s' & Hs' & Hout)]; [congruence | ].
    rewrite Hs in Hs'. injection Hs' as <-. by apply Hout.
Qed.

(** X9. A lapse at the provider closes the gate and nothing else.  After a
    verified [customer.subscription.deleted] event every organization of
    that customer is [unpaid], its subscription [canceled]; after a
    verified [invoice.payment_failed] event every organization of that
    customer is [past_due].  In both cases the location gate then refuses
    it any new pairing with [BILLING_INACTIVE] whatever the location and
    the count, its plan and its customer are what they were, and
    organizations of other customers are left as they were. *)
Theorem lapse_closes_gate env t_verify now req orgs sig secret event c :
  stripe_signature req = Some sig → sig ≠ "" →
  getWebhookSecret env = Some secret →
  constructEvent t_verify (rawBody req) sig secret = Some event →
  (∃ subscription, event = SubscriptionDeleted subscription
                   ∧ reference_id (sub_customer subscription) = Some c)
  ∨ (∃ invoice, event = InvoicePaymentFailed invoice
                ∧ reference_id (invoice_customer invoice) = Some c ∧ c ≠ "") →
  checked orgs →
  let r := handleStripeWebhook constructEvent env t_verify now false req orgs in
  r.2 = Received
  ∧ length r.1 = length orgs
  ∧ ∀ i o, orgs !! i = Some o →
      ∃ o', r.1 !! i = Some o'
        ∧ (stripe_customer_id o ≠ Some c → o' = o)
        ∧ (stripe_customer_id o = Some c →
             (∀ subscription, event = SubscriptionDeleted subscription →
                billing_status o' = "unpaid" ∧ subscription_status o' = Some "canceled")
             ∧ (∀ invoice, event = InvoicePaymentFailed invoice →
                  billing_status o' = "past_due"
                  ∧ subscription_status o' = subscription_status o)
             ∧ current_plan o' = current_plan o
             ∧ stripe_customer_id o' = stripe_customer_id o
             ∧ ∀ t plan location count logs,
                 Enforce.code (Enforce.enforceLocationPairing t (gate_account o' plan)
                                 location count logs).2
                 = Some "BILLING_INACTIVE").
Proof.
  intros Hsig Hne Hsecret Hevent Hkind Hchecked r. subst r.
  rewrite (handleStripeWebhook_verified _ _ _ _ _ _ _ _ _ Hsig Hne Hsecret Hevent).
  assert (∀ o, o ∈ orgs → current_plan o ∈ PLANS) as Hplans.
  { intros o Hin. unfold checked in Hchecked. rewrite Forall_forall in Hchecked.
    by apply Hchecked. }
  assert (∀ o' plan t location count logs,
            billing_status o' = "unpaid" ∨ billing_status o' = "past_due" →
            Enforce.code (Enforce.enforceLocationPairing t (gate_account o' plan)
                            location count logs).2 = Some "BILLING_INACTIVE") as Hgate.
  { intros o' plan t location count logs Hs. unfold Enforce.enforceLocationPairing.
    cbn [gate_account Enforce.billing_status].
    by destruct Hs as [-> | ->]. }
  destruct Hkind as [(subscription & -> & Hc) | (invoice & -> & Hc & Hcne)];
    cbn [dispatch].
  - unfold handleSubscriptionDeleted. rewrite Hc.
    rewrite update_where_Some by (intros o Hin _; cbn; by apply Hplans). cbn [fst snd].
    split; [done | ]. split; [by rewrite length_fmap | ].
    intros i o Hi. rewrite list_lookup_fmap, Hi. cbn. eexists. split; [reflexivity | ].
    destruct (of_customer c o) eqn:Hm.
    + apply of_customer_iff in Hm. split; [done | ]. intros _.
      split; [done | ]. split; [done | ]. split; [done | ]. split; [done | ].
      intros. apply Hgate. by left.
    + split; [done | ]. intros Hyes%of_customer_iff. congruence.
  - unfold handlePaymentFailed. rewrite Hc. destruct (String.eqb_spec c ""); [done | ].
    rewrite update_where_Some by (intros o Hin _; cbn; by apply Hplans). cbn [fst snd].
    split; [done | ]. split; [by rewrite length_fmap | ].
    intros i o Hi. rewrite list_lookup_fmap, Hi. cbn. eexists. split; [reflexivity | ].
    destruct (of_customer c o) eqn:Hm.
    + apply of_customer_iff in Hm. split; [done | ]. intros _.
      split; [done | ]. split; [done | ]. split; [done | ]. split; [done | ].
      intros. apply Hgate. by right.
    + split; [done | ]. intros Hyes%of_customer_iff. congruence.
Qed.

Lemma dispatch_store_error now event orgs orgs' :
  dispatch now true event orgs = Some orgs' → orgs' = orgs.
Proof.
  destruct event as [session|sub|sub|sub|invoice|type]; cbn.
  - unfold handleCheckoutCompleted.
    destruct (metadata_get _ _) as [o|]; [ | congruence].
    destruct (String.eqb o ""); [congruence | done].
  - unfold handleSubscriptionChange. destruct (reference_id _); [ | done].
    by destruct (toISOString _).
  - unfold handleSubscriptionChange. destruct (reference_id _); [ | done].
    by destruct (toISOString _).
  - unfold handleSubscriptionDeleted. by destruct (reference_id _).
  - unfold handlePaymentFailed. destruct (reference_id _) as [c|]; [ | congruence].
    destruct (String.eqb c ""); [congruence | done].
  - congruence.
Qed.


Lemma set_if_idem {A} (new old : option A) : set_if new (set_if new old) = set_if new old.
Proof. by destruct new. Qed.

Lemma update_where_replay matches change1 change2 orgs orgs1 :
  (∀ o, matches (change1 o) = matches o) →
  (∀ o, change2 (change1 o) = change2 o) →
  update_where false matches change1 orgs = Some orgs1 →
  update_where false matches change2 orgs1 = update_where false matches change2 orgs.
Proof.
  intros Hm Hc Hup. apply update_where_inv in Hup as (_ & -> & _).
  unfold update_where.
  assert (∀ o, (if matches (if matches o then change1 o else o)
                then change2 (if matches o then change1 o else o)
                else (if matches o then change1 o else o))
               = if matches o then change2 o else o) as Hstep.
  { intros o. destruct (matches o) eqn:Ho; [by rewrite Hm, Ho, Hc | by rewrite Ho]. }
  assert (∀ o, negb (matches (if matches o then change1 o else o))
               || includes PLANS (current_plan (change2 (if matches o then change1 o else o)))
               = negb (matches o) || includes PLANS (current_plan (change2 o))) as Hchk.
  { intros o. destruct (matches o) eqn:Ho; [by rewrite Hm, Ho, Hc | by rewrite Ho]. }
  induction orgs as [|o orgs IH]; [done | ].
  rewrite !fmap_cons. cbn [forallb]. rewrite Hchk, Hstep.
  destruct (negb (matches o) || includes PLANS (current_plan (change2 o))); [ | done].
  cbn [andb]. destruct (forallb _ orgs), (forallb _ (_ <$> orgs)); try done.
  by injection IH as ->.
Qed.

Lemma dispatch_replay now1 now2 event orgs orgs1 :
  dispatch now1 false event orgs = Some orgs1 →
  dispatch now2 false event orgs1 = dispatch now2 false event orgs.
Proof.
  destruct event as [session|sub|sub|sub|invoice|type]; cbn [dispatch].
  - unfold handleCheckoutCompleted.
    destruct (metadata_get _ "organization_id") as [o|]; [ | by intros [= <-]].
    destruct (String.eqb o ""); [by intros [= <-] | ].
    apply update_where_replay; [done | ]. intros o'. cbn. by rewrite !set_if_idem.
  - unfold handleSubscriptionChange. destruct (reference_id _) as [c|]; [ | done].
    destruct (toISOString _) as [periodEnd|]; [ | done]. by apply update_where_replay.
  - unfold handleSubscriptionChange. destruct (reference_id _) as [c|]; [ | done].
    destruct (toISOString _) as [periodEnd|]; [ | done]. by apply update_where_replay.
  - unfold handleSubscriptionDeleted. destruct (reference_id _) as [c|]; [ | done].
    by apply update_where_replay.
  - unfold handlePaymentFailed. destruct (reference_id _) as [c|]; [ | by intros [= <-]].
    destruct (String.eqb c ""); [by intros [= <-] | ].
    by apply update_where_replay.
  - by intros [= <-].
Qed.

Lemma update_where_plan_only matches change1 change2 orgs :
  (∀ o, current_plan (change1 o) = current_plan (change2 o)) →
  is_Some (update_where false matches change1 orgs) →
  is_Some (update_where false matches change2 orgs).
Proof.
  intros Hplan. unfold update_where.
  replace (forallb (λ o, negb (matches o) || includes PLANS (current_plan (change2 o))) orgs)
    with (forallb (λ o, negb (matches o) || includes PLANS (current_plan (change1 o))) orgs).
  - destruct (forallb _ orgs); [by eexists | by intros [? ?]].
  - induction orgs as [|o orgs IH]; [done | ]. cbn. by rewrite Hplan, IH.
Qed.

Lemma dispatch_any_time now1 now2 event orgs :
  is_Some (dispatch now1 false event orgs) → is_Some (dispatch now2 false event orgs).
Proof.
  destruct event as [session|sub|sub|sub|invoice|type]; cbn [dispatch].
  - unfold handleCheckoutCompleted.
    destruct (metadata_get _ "organization_id") as [o|]; [ | done].
    destruct (String.eqb o ""); [done | ]. by apply update_where_plan_only.
  - unfold handleSubscriptionChange. destruct (reference_id _) as [c|]; [ | done].
    destruct (toISOString _) as [periodEnd|]; [ | done]. by apply update_where_plan_only.
  - unfold handleSubscriptionChange. destruct (reference_id _) as [c|]; [ | done].
    destruct (toISOString _) as [periodEnd|]; [ | done]. by apply update_where_plan_only.
  - unfold handleSubscriptionDeleted. destruct (reference_id _) as [c|]; [ | done].
    by apply update_where_plan_only.
  - unfold handlePaymentFailed. destruct (reference_id _) as [c|]; [ | done].
    destruct (String.eqb c ""); [done | ]. by apply update_where_plan_only.
  - done.
Qed.

(** X11. Redelivery is harmless.  When a delivery of an event has been
    handled and the same event is delivered again, in the same request or
    in one signed anew, and the second delivery verifies, then the table
    and the answer are what handling the second delivery alone would have
    given: a retried event never undoes or duplicates anything.  When the
    second delivery does not verify, as a replay of the first request does
    once its signature is older than the verifier's tolerance, it is
    answered 400 and the table stays as the first delivery left it. *)
Theorem webhook_redelivery_idempotent env t1 now1 t2 now2 req1 req2 orgs sig1 sig2 secret
    event :
  getWebhookSecret env = Some secret →
  stripe_signature req1 = Some sig1 → sig1 ≠ "" →
  stripe_signature req2 = Some sig2 → sig2 ≠ "" →
  constructEvent t1 (rawBody req1) sig1 secret = Some event →
  let once := handleStripeWebhook constructEvent env t1 now1 false req1 orgs in
  (constructEvent t2 (rawBody req2) sig2 secret = Some event →
     handleStripeWebhook constructEvent env t2 now2 false req2 once.1
     = handleStripeWebhook constructEvent env t2 now2 false req2 orgs)
  ∧ (constructEvent t2 (rawBody req2) sig2 secret = None →
     handleStripeWebhook constructEvent env t2 now2 false req2 once.1
     = (once.1, InvalidSignature)).
Proof.
  intros Hsecret Hsig1 Hne1 Hsig2 Hne2 Hev1 once. split.
  - intros Hev2. subst once.
    rewrite (handleStripeWebhook_verified _ _ _ _ _ _ _ _ _ Hsig1 Hne1 Hsecret Hev1).
    destruct (dispatch now1 false event orgs) as [orgs1|] eqn:Hd; cbn [fst]; [ | done].
    rewrite !(handleStripeWebhook_verified _ _ _ _ _ _ _ _ _ Hsig2 Hne2 Hsecret Hev2).
    rewrite (dispatch_replay _ _ _ _ _ Hd).
    destruct (dispatch_any_time now1 now2 event orgs) as [orgs2 ->]; [by eexists | done].
  - intros Hnone. unfold handleStripeWebhook at 1. rewrite Hsig2.
    destruct (String.eqb_spec sig2 ""); [done | ]. by rewrite Hsecret, Hnone.
Qed.

Lemma checked_update matches change orgs orgs' :
  (∀ o, id (change o) = id o) →
  (∀ o, billing_status (change o) ∈ BILLING_STATUSES) →
  checked orgs →
  update_where false matches change orgs = Some orgs' →
  checked orgs' ∧ id <$> orgs' = id <$> orgs.
Proof.
  intros Hid Hbs Hck Hup. apply update_where_inv in Hup as (_ & -> & Hok).
  split.
  - unfold checked in *. rewrite Forall_fmap. rewrite Forall_forall in Hck.
    apply Forall_forall. intros o Hin. cbn.
    destruct (matches o) eqn:Hm; [ | by apply Hck].
    split; [by apply Hok | apply Hbs].
  - rewrite <- list_fmap_compose. apply list_fmap_ext. intros i o _. cbn.
    by destruct (matches o).
Qed.

Lemma mapped_status_checked s :
  Resolver.to_string (Resolver.mapSubscriptionStatus s) ∈ BILLING_STATUSES.
Proof.
  unfold BILLING_STATUSES. rewrite !elem_of_cons.
  destruct (Resolver.mapSubscriptionStatus s); cbn; tauto.
Qed.

(** X12. Whatever arrives, the webhook keeps the organizations table well
    formed: it never adds or removes an organization nor changes an id,
    and if every row satisfied the [CHECK] constraints on [current_plan]
    and [billing_status] before, every row does after. *)
Theorem webhook_preserves_organizations env t_verify now store_error req orgs :
  checked orgs →
  let r := handleStripeWebhook constructEvent env t_verify now store_error req orgs in
  checked r.1 ∧ id <$> r.1 = id <$> orgs.
Proof.
  intros Hck r. subst r. unfold handleStripeWebhook.
  destruct (stripe_signature req) as [sig|]; [ | done].
  destruct (String.eqb sig ""); [done | ].
  destruct (getWebhookSecret env) as [secret|]; [ | done].
  destruct (constructEvent _ _ _ _) as [event|]; [ | done].
  destruct (dispatch now store_error event orgs) as [orgs'|] eqn:Hd; [ | done].
  cbn [fst]. destruct store_error.
  { apply dispatch_store_error in Hd. by subst. }
  assert (∀ s, s ∈ ["paid"; "unpaid"; "past_due"] → s ∈ BILLING_STATUSES) as Hlit.
  { intros s. unfold BILLING_STATUSES. rewrite !elem_of_cons, !elem_of_nil. tauto. }
  destruct event as [session|sub|sub|sub|invoice|type]; cbn [dispatch] in Hd.
  - unfold handleCheckoutCompleted in Hd.
    destruct (metadata_get _ "organization_id") as [o|]; [ | by injection Hd as <-].
    destruct (String.eqb o ""); [by injection Hd as <- | ].
    eapply checked_update; [ | | done | exact Hd]; [done | ].
    intros o'. cbn. apply Hlit. rewrite !elem_of_cons. tauto.
  - unfold handleSubscriptionChange in Hd. destruct (reference_id _) as [c|]; [ | done].
    destruct (toISOString _) as [periodEnd|]; [ | done].
    eapply checked_update; [ | | done | exact Hd]; [done | ].
    intros o'. cbn. apply mapped_status_checked.
  - unfold handleSubscriptionChange in Hd. destruct (reference_id _) as [c|]; [ | done].
    destruct (toISOString _) as [periodEnd|]; [ | done].
    eapply checked_update; [ | | done | exact Hd]; [done | ].
    intros o'. cbn. apply mapped_status_checked.
  - unfold handleSubscriptionDeleted in Hd. destruct (reference_id _) as [c|]; [ | done].
    eapply checked_update; [ | | done | exact Hd]; [done | ].
    intros o'. cbn. apply Hlit. rewrite !elem_of_cons. tauto.
  - unfold handlePaymentFailed in Hd.
    destruct (reference_id _) as [c|]; [ | by injection Hd as <-].
    destruct (String.eqb c ""); [by injection Hd as <- | ].
    eapply checked_update; [ | | done | exact Hd]; [done | ].
    intros o'. cbn. apply Hlit. rewrite !elem_of_cons. tauto.
  - by injection Hd as <-.
Qed.

End WebhookFacts.

Lemma samples_checked : Webhook.checked [WebhookSamples.acme; WebhookSamples.bistro].
Proof.
  unfold Webhook.checked, Webhook.PLANS, Webhook.BILLING_STATUSES.
  repeat constructor; cbn; rewrite !elem_of_cons; tauto.
Qed.

Lemma subscription_change_syncs_witness :
  (Webhook.handleStripeWebhook WebhookSamples.verifier WebhookSamples.testEnv 20 20 false
     (WebhookSamples.signed "past_due") [WebhookSamples.acme; WebhookSamples.bistro]).2
  = Webhook.Received.
Proof.
  apply (proj1 (subscription_change_syncs WebhookSamples.verifier WebhookSamples.testEnv 20 20
           (WebhookSamples.signed "past_due") [WebhookSamples.acme; WebhookSamples.bistro]
           "t=1,v1=ok" "whsec_test"
           (Webhook.SubscriptionUpdated (WebhookSamples.acme_subscription "past_due"))
           (WebhookSamples.acme_subscription "past_due") "cus_acme"
           eq_refl ltac:(discriminate) eq_refl eq_refl (or_intror eq_refl) eq_refl
           ltac:(cbn; unfold Webhook.PLANS; rewrite !elem_of_cons; tauto)) 1800000000).
  - reflexivity.
  - unfold Webhook.MAX_TIME_VALUE. lia.
Defined.

Lemma lapse_closes_gate_witness :
  (Webhook.handleStripeWebhook WebhookSamples.verifier WebhookSamples.testEnv 20 20 false
     (WebhookSamples.signed "deleted") [WebhookSamples.acme; WebhookSamples.bistro]).2
  = Webhook.Received.
Proof.
  apply (lapse_closes_gate WebhookSamples.verifier WebhookSamples.testEnv 20 20
           (WebhookSamples.signed "deleted") [WebhookSamples.acme; WebhookSamples.bistro]
           "t=1,v1=ok" "whsec_test"
           (Webhook.SubscriptionDeleted (WebhookSamples.acme_subscription "canceled"))
           "cus_acme").
  - reflexivity.
  - discriminate.
  - reflexivity.
  - reflexivity.
  - left. eexists. split; reflexivity.
  - exact samples_checked.
Defined.


(** A first delivery in time, and a replay of the same request an hour
    later, past the tolerance. *)
Lemma webhook_redelivery_idempotent_witness :
  Webhook.handleStripeWebhook WebhookSamples.verifier WebhookSamples.testEnv 3600000 3600000
    false (WebhookSamples.signed "deleted")
    (Webhook.handleStripeWebhook WebhookSamples.verifier WebhookSamples.testEnv 20 20 false
       (WebhookSamples.signed "deleted") [WebhookSamples.acme; WebhookSamples.bistro]).1
  = ((Webhook.handleStripeWebhook WebhookSamples.verifier WebhookSamples.testEnv 20 20 false
        (WebhookSamples.signed "deleted") [WebhookSamples.acme; WebhookSamples.bistro]).1,
     Webhook.InvalidSignature).
Proof.
  apply (proj2 (webhook_redelivery_idempotent WebhookSamples.verifier WebhookSamples.testEnv
                  20 20 3600000 3600000 (WebhookSamples.signed "deleted")
                  (WebhookSamples.signed "deleted")
                  [WebhookSamples.acme; WebhookSamples.bistro] "t=1,v1=ok" "t=1,v1=ok"
                  "whsec_test"
                  (Webhook.SubscriptionDeleted (WebhookSamples.acme_subscription "canceled"))
                  eq_refl eq_refl ltac:(discriminate) eq_refl ltac:(discriminate) eq_refl)).
  reflexivity.
Defined.

Lemma webhook_preserves_organizations_witness :
  Webhook.id <$> (Webhook.handleStripeWebhook WebhookSamples.verifier WebhookSamples.testEnv 20
                    20 false (WebhookSamples.signed "failed")
                    [WebhookSamples.acme; WebhookSamples.bistro]).1
  = ["org-acme"; "org-bistro"].
Proof.
  apply (webhook_preserves_organizations WebhookSamples.verifier WebhookSamples.testEnv 20 20
           false (WebhookSamples.signed "failed")
           [WebhookSamples.acme; WebhookSamples.bistro]).
  exact samples_checked.
Defined.

Example webhook_payment_failed_marks_past_due :
  Webhook.billing_status <$>
    (Webhook.handleStripeWebhook WebhookSamples.verifier WebhookSamples.testEnv 20 20 false
       (WebhookSamples.signed "failed") [WebhookSamples.acme; WebhookSamples.bistro]).1
  = ["past_due"; "trialing"].
Proof. reflexivity. Qed.

(** ** Service registry *)
Section ServiceRegistryFacts.
Import ServiceRegistry.

Lemma has_key_true k r : has_key k r = true ↔ key r = k.
Proof. unfold has_key. apply bool_decide_eq_true. Qed.

Lemma has_key_false k r : has_key k r = false ↔ key r ≠ k.
Proof. unfold has_key. apply bool_decide_eq_false. Qed.

Lemma upsert_keys new rows :
  key <$> upsert new rows =
    if decide (key new ∈ key <$> rows) then key <$> rows else (key <$> rows) ++ [key new].
Proof.
  induction rows as [|r rows IH]; cbn [upsert].
  - case_decide as Hin; [by apply elem_of_nil in Hin | done].
  - destruct (has_key (key new) r) eqn:Hk.
    + apply has_key_true in Hk. clear IH. rewrite !fmap_cons.
      rewrite decide_True by (rewrite Hk; left). by rewrite Hk.
    + apply has_key_false in Hk. rewrite !fmap_cons, IH.
      destruct (decide (key new ∈ key <$> rows)) as [Hin|Hnin].
      * rewrite decide_True by (by right). done.
      * rewrite decide_False; [done | ].
        intros [?|?]%elem_of_cons; [congruence | done].
Qed.

Lemma upsert_unique new rows : unique rows → unique (upsert new rows).
Proof.
  unfold unique. rewrite upsert_keys. intros Hnd.
  destruct (decide (key new ∈ key <$> rows)); [done | ].
  apply NoDup_app. split; [done | ]. split; [ | apply NoDup_singleton].
  intros k Hk ->%list_elem_of_singleton. done.
Qed.

Lemma upsert_other new rows k :
  k ≠ key new →
  filter (λ r, has_key k r = true) (upsert new rows) = filter (λ r, has_key k r = true) rows.
Proof.
  intros Hne. induction rows as [|r rows IH]; simpl.
  - rewrite filter_cons, decide_False; [done | ].
    rewrite has_key_true. congruence.
  - destruct (has_key (key new) r) eqn:Hk.
    + apply has_key_true in Hk. rewrite !filter_cons.
      rewrite !decide_False; [done | | ]; rewrite has_key_true; congruence.
    + rewrite !filter_cons, IH. done.
Qed.

Lemma filter_absent k rows :
  k ∉ key <$> rows → filter (λ r, has_key k r = true) rows = [].
Proof.
  induction rows as [|r rows IH]; [done | ].
  rewrite fmap_cons, not_elem_of_cons. intros [Hne Hrest].
  rewrite filter_cons, decide_False; [by apply IH | ].
  rewrite has_key_true. congruence.
Qed.

Lemma upsert_same new rows :
  unique rows →
  filter (λ r, has_key (key new) r = true) (upsert new rows) = [new].
Proof.
  unfold unique. induction rows as [|r rows IH]; simpl; intros Hnd.
  - rewrite filter_cons, decide_True by (by apply has_key_true). done.
  - apply NoDup_cons in Hnd as [Hnotin Hnd].
    destruct (has_key (key new) r) eqn:Hk.
    + apply has_key_true in Hk.
      rewrite filter_cons, decide_True by (by apply has_key_true).
      rewrite filter_absent; [done | by rewrite <- Hk].
    + rewrite filter_cons, decide_False by (by rewrite Hk). by apply IH.
Qed.

Lemma upsert_again new1 new2 rows :
  key new1 = key new2 → upsert new2 (upsert new1 rows) = upsert new2 rows.
Proof.
  intros Hk. induction rows as [|r rows IH]; simpl.
  - by rewrite (proj2 (has_key_true (key new2) new1)).
  - rewrite Hk. destruct (has_key (key new2) r) eqn:Hr; simpl.
    + by rewrite (proj2 (has_key_true (key new2) new1)).
    + by rewrite Hr, IH.
Qed.

(** What an accepted heartbeat stores. *)
Lemma post_heartbeat_recorded k env body now store_error rows row ts :
  (post_heartbeat k env body now store_error rows).2 = Recorded row ts →
  ts = now
  ∧ (post_heartbeat k env body now store_error rows).1 = upsert row rows
  ∧ last_heartbeat row = Some now
  ∧ ∃ b, body = Some b
      ∧ service b = Some (service_id row) ∧ service_id row ∈ validServices
      ∧ body_location_id b = Some (location_id row) ∧ location_id row ≠ ""
      ∧ instance_id row
        = or_string (body_instance_id b) (service_id row +:+ "-" +:+ location_id row)
      ∧ parse_status (or_string (body_status b) "online") = Some (status row).
Proof.
  unfold post_heartbeat.
  destruct (validateServiceKey k env); [ | done]. cbn [negb].
  destruct body as [b|]; [ | done].
  destruct (service b) as [s|] eqn:Hs; [ | done].
  destruct (body_location_id b) as [l|] eqn:Hl; [ | by rewrite orb_true_r].
  cbn [falsy default from_option]. unfold id.
  destruct (String.eqb_spec s ""); [done | ].
  destruct (String.eqb_spec l ""); [done | ]. cbn [orb].
  destruct (includes validServices s) eqn:Hin; [ | done]. cbn [negb].
  destruct (parse_status _) as [st|] eqn:Hst; [ | done].
  destruct store_error; [done | ]. cbn [fst snd]. intros [= <- <-].
  split; [done | ]. split; [done | ]. split; [done | ].
  exists b. cbn. rewrite Hs, Hl. repeat split; try done.
  by apply includes_elem_of.
Qed.

(** X13. Heartbeats upsert: after an accepted heartbeat the table, if it
    had at most one row per (service, location, instance) before, still has,
    holds exactly one row under the heartbeat's key, that row carrying
    [last_heartbeat = now], and keeps every row under another key as it
    was.  Sending the same heartbeat again adds no row: the outcome is that
    of the later heartbeat alone. *)
Theorem heartbeat_upsert_idempotent k env body now1 now2 rows row ts :
  unique rows →
  (post_heartbeat k env body now1 false rows).2 = Recorded row ts →
  let rows1 := (post_heartbeat k env body now1 false rows).1 in
  unique rows1
  ∧ filter (λ r, has_key (key row) r = true) rows1 = [row]
  ∧ last_heartbeat row = Some now1 ∧ ts = now1
  ∧ (∀ k', k' ≠ key row →
       filter (λ r, has_key k' r = true) rows1 = filter (λ r, has_key k' r = true) rows)
  ∧ (post_heartbeat k env body now2 false rows1).1 = (post_heartbeat k env body now2 false rows).1
  ∧ length (post_heartbeat k env body now2 false rows1).1 = length rows1.
Proof.
  intros Huniq Hrec rows1.
  destruct (post_heartbeat_recorded _ _ _ _ _ _ _ _ Hrec) as (-> & Hrows & Hlast & _).
  subst rows1. rewrite Hrows.
  split; [by apply upsert_unique | ].
  split; [by apply upsert_same | ].
  split; [done | ]. split; [done | ].
  split; [intros k' Hk'; by apply upsert_other | ].
  (* the second heartbeat *)
  revert Hrec. unfold post_heartbeat.
  destruct (validateServiceKey k env); [ | done]. cbn [negb].
  destruct body as [b|]; [ | done].
  destruct (falsy (service b) || falsy (body_location_id b)); [done | ].
  destruct (negb (includes validServices _)); [done | ].
  destruct (parse_status _) as [st|]; [ | done]. cbn [fst snd]. intros [= <-].
  split.
  - by apply upsert_again.
  - rewrite upsert_again by done.
    assert (length (key <$> upsert {| service_id := default "" (service b);
              location_id := default "" (body_location_id b);
              instance_id := or_string (body_instance_id b)
                (default "" (service b) +:+ "-" +:+ default "" (body_location_id b));
              base_url := or_null (body_base_url b); status := st;
              version := or_null (body_version b); last_heartbeat := Some now2;
              metadata := or_string (body_metadata b) "{}"; updated_at := now2 |} rows)
            = length (key <$> upsert {| service_id := default "" (service b);
              location_id := default "" (body_location_id b);
              instance_id := or_string (body_instance_id b)
                (default "" (service b) +:+ "-" +:+ default "" (body_location_id b));
              base_url := or_null (body_base_url b); status := st;
              version := or_null (body_version b); last_heartbeat := Some now1;
              metadata := or_string (body_metadata b) "{}"; updated_at := now1 |} rows)) as Hlen.
    { rewrite !upsert_keys. cbn [key service_id location_id instance_id]. done. }
    by rewrite !length_fmap in Hlen.
Qed.

(** X14. What POST /heartbeat refuses leaves the registry untouched: a
    missing or wrong service key is answered 401 whatever the body (and no
    key is right while none is configured); a body without [service] or
    [location_id] is answered 400, as is a service outside the three known
    kinds; a status outside the four the table admits is answered 500.
    Unless the answer is 200, no row is written. *)
Theorem heartbeat_rejections k env body now store_error rows :
  let r := post_heartbeat k env body now store_error rows in
  ((∀ row ts, r.2 ≠ Recorded row ts) → r.1 = rows)
  ∧ (env = None ∨ k ≠ env ∨ falsy k = true → r = (rows, InvalidServiceKey))
  ∧ (validateServiceKey k env = true →
     ∀ b, body = Some b →
       (falsy (service b) = true ∨ falsy (body_location_id b) = true →
          r = (rows, MissingFields))
       ∧ (∀ s, service b = Some s → s ≠ "" → s ∉ validServices →
            falsy (body_location_id b) = false → r = (rows, InvalidServiceType))
       ∧ (∀ s st, service b = Some s → s ∈ validServices →
            falsy (body_location_id b) = false →
            body_status b = Some st → st ≠ "" → parse_status st = None →
            r = (rows, FailedToRecord))).
Proof.
  intros r. split; [ | split].
  - subst r. unfold post_heartbeat.
    destruct (negb (validateServiceKey k env)); [done | ].
    destruct body as [b|]; [ | done].
    destruct (falsy (service b) || falsy (body_location_id b)); [done | ].
    destruct (negb (includes validServices _)); [done | ].
    destruct (parse_status _) as [st|]; [ | done].
    destruct store_error; [done | ]. cbn [snd]. intros Hno. by edestruct Hno.
  - intros Hbad. subst r. unfold post_heartbeat.
    replace (validateServiceKey k env) with false; [done | ].
    unfold validateServiceKey, falsy in *. destruct k as [k'|], env as [v|]; try done.
    destruct (String.eqb_spec k' ""); [done | ]. cbn.
    destruct (String.eqb_spec k' v) as [->|]; [ | done].
    destruct Hbad as [?|[?|?]]; done.
  - intros Hkey b ->. subst r. unfold post_heartbeat. rewrite Hkey. cbn [negb].
    split; [ | split].
    + intros [-> | ->]; [done | by rewrite orb_true_r].
    + intros s Hs Hne Hnot Hloc. rewrite Hloc. unfold falsy at 1. rewrite Hs.
      destruct (String.eqb_spec s ""); [done | ]. cbn [orb default from_option]. unfold id.
      by rewrite (proj2 (includes_false _ _) Hnot).
    + intros s st Hs Hin Hloc Hst Hne Hparse. rewrite Hloc. unfold falsy at 1. rewrite Hs.
      assert (s ≠ "") as Hs_ne.
      { intros ->. unfold validServices in Hin. rewrite !elem_of_cons, elem_of_nil in Hin.
        destruct Hin as [?|[?|[?|[]]]]; discriminate. }
      destruct (String.eqb_spec s ""); [done | ]. cbn [orb default from_option]. unfold id.
      rewrite (proj2 (includes_elem_of _ _) Hin). cbn [negb].
      unfold or_string, falsy. rewrite Hst.
      destruct (String.eqb_spec st ""); [done | ]. cbn [default from_option]. unfold id.
      by rewrite Hparse.
Qed.

Lemma sweepable_iff t_cutoff r :
  sweepable t_cutoff r = true
  ↔ status r ≠ Registry.Offline
    ∧ ∃ t, last_heartbeat r = Some t ∧ t < t_cutoff - 120000.
Proof.
  unfold sweepable, Registry.HEARTBEAT_TIMEOUT_MS.
  rewrite andb_true_iff, negb_true_iff, bool_decide_eq_false.
  destruct (last_heartbeat r) as [t|].
  - rewrite Z.ltb_lt. split.
    + intros [? ?]. eauto.
    + intros [? (t' & [= <-] & ?)]. done.
  - split; [by intros [_ ?] | by intros [_ (t' & ? & _)]].
Qed.

Lemma sweepable_mark_offline t_cutoff t_upd r : sweepable t_cutoff (mark_offline t_upd r) = false.
Proof. unfold sweepable. cbn. by rewrite bool_decide_eq_true_2. Qed.

(** X15. The staleness sweep: every row that is not offline and whose last
    heartbeat is more than two minutes before the sweep's clock becomes
    offline (its heartbeat time kept); every other row, a row without any
    heartbeat included, is left as it was; the rows returned are exactly
    the ones changed; keys are untouched.  Sweeping again at the same clock
    changes nothing and returns no row. *)
Theorem sweep_marks_stale_offline t_cutoff t_upd t_upd' rows :
  let r := updateStaleServices t_cutoff t_upd rows in
  key <$> r.1 = key <$> rows
  ∧ (∀ i row, rows !! i = Some row →
       ∃ row', r.1 !! i = Some row'
         ∧ (status row ≠ Registry.Offline →
            (∃ t, last_heartbeat row = Some t ∧ t < t_cutoff - 120000) →
            status row' = Registry.Offline ∧ updated_at row' = t_upd
            ∧ last_heartbeat row' = last_heartbeat row ∧ row' ∈ r.2)
         ∧ (status row = Registry.Offline ∨ last_heartbeat row = None
            ∨ (∃ t, last_heartbeat row = Some t ∧ t_cutoff - 120000 <= t) →
            row' = row))
  ∧ (∀ row', row' ∈ r.2 → row' ∈ r.1 ∧ status row' = Registry.Offline)
  ∧ updateStaleServices t_cutoff t_upd' r.1 = (r.1, []).
Proof.
  intros r. subst r. unfold updateStaleServices. cbn [fst snd].
  split; [ | split; [ | split]].
  - rewrite <- list_fmap_compose. apply list_fmap_ext. intros i row _. cbn.
    by destruct (sweepable t_cutoff row).
  - intros i row Hi. rewrite list_lookup_fmap, Hi. cbn. eexists. split; [reflexivity | ].
    destruct (sweepable t_cutoff row) eqn:Hsw.
    + split.
      * intros _ _. repeat split. apply list_elem_of_fmap. exists row.
        split; [done | ]. apply list_elem_of_filter. split; [done | ].
        by eapply list_elem_of_lookup_2.
      * apply sweepable_iff in Hsw as (Hne & t & Ht & Hlt).
        intros [?|[?|(t' & Ht' & ?)]]; [done | congruence | ].
        rewrite Ht in Ht'. injection Ht' as <-. lia.
    + split; [ | done]. intros Hne Ht.
      assert (sweepable t_cutoff row = true) by (by apply sweepable_iff). congruence.
  - intros row' (row & -> & Hin)%list_elem_of_fmap.
    apply list_elem_of_filter in Hin as [Hsw Hin]. split; [ | done].
    apply list_elem_of_fmap. exists row. by rewrite Hsw.
  - f_equal.
    + rewrite <- list_fmap_compose. apply list_fmap_ext. intros i row _. cbn.
      destruct (sweepable t_cutoff row) eqn:Hsw; [ | by rewrite Hsw].
      by rewrite sweepable_mark_offline.
    + replace (filter _ _) with (@nil Row); [done | ]. symmetry.
      induction rows as [|row rows IH]; [done | ].
      rewrite fmap_cons, filter_cons, decide_False; [done | ].
      destruct (sweepable t_cutoff row) eqn:Hsw; [ | by rewrite Hsw].
      by rewrite sweepable_mark_offline.
Qed.

Lemma reported_under_swept now st name_of t_cutoff t_upd row :
  t_cutoff <= now →
  Registry.reported_under now st
    (to_service name_of (if sweepable t_cutoff row then mark_offline t_upd row else row))
  = Registry.reported_under now st (to_service name_of row).
Proof.
  intros Hle. destruct (sweepable t_cutoff row) eqn:Hsw; [ | done].
  apply sweepable_iff in Hsw as (_ & t & Ht & Hlt).
  unfold Registry.reported_under, Registry.STALENESS_THRESHOLD. cbn. rewrite Ht. cbn.
  by rewrite !bool_decide_eq_true_2 by lia.
Qed.

Lemma counts_ext (c1 c2 : Registry.Counts) :
  (∀ st, Registry.get st c1 = Registry.get st c2) → c1 = c2.
Proof.
  intros H. destruct c1, c2.
  pose proof (H Registry.Online). pose proof (H Registry.Degraded).
  pose proof (H Registry.Offline). pose proof (H Registry.Unknown).
  cbn in *. congruence.
Qed.

(** X16. The sweep is an optimization only: the health summary computed at
    or after the sweep's clock has the same counters and the same total
    whether or not the sweep has run. *)
Theorem sweep_keeps_health_summary t_cutoff t_upd now name_of rows :
  t_cutoff <= now →
  let swept := (updateStaleServices t_cutoff t_upd rows).1 in
  Registry.counts (Registry.getHealthSummary now (to_service name_of <$> swept))
  = Registry.counts (Registry.getHealthSummary now (to_service name_of <$> rows))
  ∧ Registry.total (Registry.getHealthSummary now (to_service name_of <$> swept))
    = Registry.total (Registry.getHealthSummary now (to_service name_of <$> rows)).
Proof.
  intros Hle swept. subst swept. unfold updateStaleServices. cbn [fst]. split.
  - apply counts_ext. intros st. unfold Registry.getHealthSummary.
    rewrite !foldl_step_counts. f_equal. unfold Registry.expected_count.
    induction rows as [|row rows IH]; [done | ].
    rewrite !fmap_cons, !filter_cons, reported_under_swept by done.
    destruct (decide _); cbn [length]; by rewrite IH.
  - unfold Registry.getHealthSummary. rewrite !foldl_step_total. cbn.
    by rewrite !length_fmap.
Qed.




Lemma getService_upsert row rows :
  unique rows →
  getService (service_id row) (location_id row) (instance_id row) (upsert row rows) = Some row.
Proof.
  intros Huniq. unfold getService.
  change (service_id row, location_id row, instance_id row) with (key row).
  by rewrite upsert_same.
Qed.

Lemma removed_key_gone k (l : list Row) :
  filter (λ r, has_key k r = true) (filter (λ r, has_key k r = false) l) = [].
Proof.
  induction l as [|r rs IH]; [done | ].
  rewrite (filter_cons (λ r, has_key k r = false)).
  destruct (decide (has_key k r = false)) as [Hf|Hf]; [ | done].
  rewrite filter_cons, decide_False; [done | congruence].
Qed.

Lemma other_key_kept k k' (l : list Row) :
  k' ≠ k →
  filter (λ r, has_key k' r = true) (filter (λ r, has_key k r = false) l)
  = filter (λ r, has_key k' r = true) l.
Proof.
  intros Hne. induction l as [|r rs IH]; [done | ].
  rewrite (filter_cons (λ r, has_key k r = false)).
  destruct (decide (has_key k r = false)) as [Hf|Hf].
  - by rewrite !filter_cons, IH.
  - rewrite IH, (filter_cons _ r), decide_False; [done | ].
    apply not_false_iff_true in Hf. apply has_key_true in Hf.
    rewrite has_key_true. congruence.
Qed.

Lemma unique_filter (P : Row → Prop) `{∀ r, Decision (P r)} (l : list Row) :
  unique l → unique (filter P l).
Proof.
  unfold unique. induction l as [|r rs IH]; [done | ].
  rewrite fmap_cons. intros [Hnotin Hu]%NoDup_cons.
  rewrite filter_cons. destruct (decide _); [ | by apply IH].
  rewrite fmap_cons. apply NoDup_cons. split; [ | by apply IH].
  intros (r' & Hk & Hin)%list_elem_of_fmap. apply list_elem_of_filter in Hin as [_ Hin].
  apply Hnotin. apply list_elem_of_fmap. by exists r'.
Qed.

(** X18. Register, look up, deregister: once a heartbeat is accepted,
    [getService] under its key returns the row just written; after
    [deregisterService] of that key it returns nothing, while the rows of
    every other key are still found as before and the table still has one
    row per key. *)
Theorem register_lookup_deregister k env body now store_error rows row ts :
  unique rows →
  (post_heartbeat k env body now store_error rows).2 = Recorded row ts →
  let rows1 := (post_heartbeat k env body now store_error rows).1 in
  let rows2 := (deregisterService (service_id row) (location_id row) (instance_id row) rows1).1 in
  getService (service_id row) (location_id row) (instance_id row) rows1 = Some row
  ∧ getService (service_id row) (location_id row) (instance_id row) rows2 = None
  ∧ (∀ s l i, (s, l, i) ≠ key row → getService s l i rows2 = getService s l i rows)
  ∧ unique rows2.
Proof.
  intros Huniq Hrec rows1 rows2.
  destruct (post_heartbeat_recorded _ _ _ _ _ _ _ _ Hrec) as (_ & Hrows & _).
  subst rows2 rows1. rewrite Hrows. unfold deregisterService. cbn [fst].
  change (service_id row, location_id row, instance_id row) with (key row).
  split; [by apply getService_upsert | ]. split; [ | split].
  - unfold getService.
    change (service_id row, location_id row, instance_id row) with (key row).
    by rewrite removed_key_gone.
  - intros s l i Hne. unfold getService.
    by rewrite other_key_kept, upsert_other.
  - apply unique_filter. by apply upsert_unique.
Qed.

End ServiceRegistryFacts.

Lemma unique_old_row : ServiceRegistry.unique [ServiceRegistry.old_row].
Proof. unfold ServiceRegistry.unique. cbn. apply NoDup_singleton. Qed.

Lemma heartbeat_upsert_idempotent_witness :
  length (ServiceRegistry.post_heartbeat (Some "s3cret") (Some "s3cret")
            (Some (ServiceRegistry.kds_beat (Some "degraded"))) 11000 false
            ServiceRegistry.after_first_beat.1).1
  = length ServiceRegistry.after_first_beat.1.
Proof.
  eapply (heartbeat_upsert_idempotent (Some "s3cret") (Some "s3cret")
            (Some (ServiceRegistry.kds_beat (Some "degraded"))) 1000 11000
            [ServiceRegistry.old_row]).
  - exact unique_old_row.
  - reflexivity.
Defined.

Lemma heartbeat_rejections_witness :
  ServiceRegistry.post_heartbeat (Some "s3cret") None
    (Some (ServiceRegistry.kds_beat None)) 1000 false [ServiceRegistry.old_row]
  = ([ServiceRegistry.old_row], ServiceRegistry.InvalidServiceKey).
Proof.
  apply (heartbeat_rejections (Some "s3cret") None (Some (ServiceRegistry.kds_beat None))
           1000 false [ServiceRegistry.old_row]).
  left. reflexivity.
Defined.

Lemma sweep_marks_stale_offline_witness :
  ServiceRegistry.updateStaleServices 200000 200002
    (ServiceRegistry.updateStaleServices 200000 200001 [ServiceRegistry.old_row]).1
  = ((ServiceRegistry.updateStaleServices 200000 200001 [ServiceRegistry.old_row]).1, []).
Proof.
  apply (sweep_marks_stale_offline 200000 200001 200002 [ServiceRegistry.old_row]).
Defined.

Lemma sweep_keeps_health_summary_witness :
  Registry.counts (Registry.getHealthSummary 200000
    (ServiceRegistry.to_service (λ _, None)
       <$> (ServiceRegistry.updateStaleServices 200000 200001 [ServiceRegistry.old_row]).1))
  = Registry.counts (Registry.getHealthSummary 200000
      (ServiceRegistry.to_service (λ _, None) <$> [ServiceRegistry.old_row])).
Proof.
  apply (sweep_keeps_health_summary 200000 200001 200000 (λ _, None) [ServiceRegistry.old_row]).
  lia.
Defined.


Lemma register_lookup_deregister_witness :
  ∃ row, ServiceRegistry.after_first_beat.2 = ServiceRegistry.Recorded row 1000
    ∧ ServiceRegistry.getService (ServiceRegistry.service_id row)
        (ServiceRegistry.location_id row) (ServiceRegistry.instance_id row)
        ServiceRegistry.after_first_beat.1
      = Some row.
Proof.
  eexists. split; [reflexivity | ].
  refine (proj1 (register_lookup_deregister (Some "s3cret") (Some "s3cret")
            (Some (ServiceRegistry.kds_beat (Some "degraded"))) 1000 false
            [ServiceRegistry.old_row] _ 1000 unique_old_row eq_refl)).
Defined.

(** ** Rollout orchestration: creation, guards, rollback *)
Section RolloutOpsFacts.
Import Rollouts.

Lemma new_executions_locations now rid k targets :
  location_id <$> new_executions now rid k targets = targets.
Proof.
  revert k. induction targets as [|l rest IH]; intros k; [done | ].
  cbn. by rewrite IH.
Qed.

Lemma new_executions_Forall now rid k targets :
  Forall (λ e, rollout_id e = rid ∧ exec_status e = "pending"
               ∧ exec_started_at e = None ∧ exec_completed_at e = None
               ∧ k <= exec_id e < k + Z.of_nat (length targets))
         (new_executions now rid k targets).
Proof.
  revert k. induction targets as [|l rest IH]; intros k; [constructor | ].
  cbn [new_executions]. rewrite length_cons, Nat2Z.inj_succ. constructor.
  - cbn [rollout_id exec_status exec_started_at exec_completed_at exec_id].
    repeat split; lia.
  - eapply Forall_impl; [apply IH | ]. cbn beta. intros e (? & ? & ? & ? & ?).
    repeat split; try done; lia.
Qed.

Lemma filter_all {A} (P : A → Prop) `{∀ x, Decision (P x)} (l : list A) :
  Forall P l → filter P l = l.
Proof.
  induction 1 as [|x l Hx _ IH]; [done | ].
  by rewrite filter_cons, decide_True, IH.
Qed.

Lemma filter_none {A} (P : A → Prop) `{∀ x, Decision (P x)} (l : list A) :
  Forall (λ x, ¬ P x) l → filter P l = [].
Proof.
  induction 1 as [|x l Hx _ IH]; [done | ].
  by rewrite filter_cons, decide_False, IH.
Qed.

(** The tables after a creation that is accepted. *)
Lemma createRollout_tables f now name org ty targets payload sched by_ db :
  includes ROLLOUT_TYPES ty = true →
  let res := createRollout f now name org ty targets payload sched by_ db in
  rollouts res.1 = <[next_id db :=
      {| id := next_id db; name := name; organization_id := org; rollout_type := ty;
         target_locations := targets; payload := payload;
         status := match sched with Some _ => "scheduled" | None => "pending" end;
         scheduled_at := sched; started_at := None; completed_at := None;
         created_by := by_; created_at := now; updated_at := now |}]> (rollouts db)
  ∧ rollout_executions res.1
    = rollout_executions db
      ++ (if executions_insert_refused f then []
          else new_executions now (next_id db) (next_id db + 1) targets)
  ∧ next_id db < next_id res.1.
Proof.
  intros Hty res. subst res. unfold createRollout. rewrite Hty. cbn [negb].
  destruct (Z.ltb_spec 0 (Z.of_nat (length targets))) as [Hpos|Hzero].
  - destruct (executions_insert_refused f); cbn.
    + rewrite app_nil_r. repeat split. lia.
    + repeat split. lia.
  - destruct targets as [|l rest]; [ | cbn [length] in Hzero; lia].
    cbn. destruct (executions_insert_refused f); rewrite app_nil_r; repeat split; lia.
Qed.

Lemma createRollout_effect f now name org ty targets payload sched by_ db :
  includes ROLLOUT_TYPES ty = true →
  well_keyed db →
  let res := createRollout f now name org ty targets payload sched by_ db in
  ∃ r, res.2 = Returns r
    ∧ id r = next_id db
    ∧ rollouts res.1 !! id r = Some r
    ∧ target_locations r = targets
    ∧ (executions_insert_refused f = false →
         location_id <$> executions_of (id r) res.1 = targets
         ∧ Forall (λ e, exec_status e = "pending"
                        ∧ exec_started_at e = None ∧ exec_completed_at e = None)
                  (executions_of (id r) res.1))
    ∧ (executions_insert_refused f = true →
         executions_of (id r) res.1 = []
         ∧ rollout_executions res.1 = rollout_executions db
         ∧ ∀ f' t t_done t_upd lid st msg,
             updateExecutionStatus f' t t_done t_upd (id r) lid st msg res.1
             = (res.1, Throws))
    ∧ (∀ k, k ≠ id r →
         executions_of k res.1 = executions_of k db
         ∧ rollouts res.1 !! k = rollouts db !! k)
    ∧ well_keyed res.1.
Proof.
  intros Hty [Hkeys Hfresh] res.
  destruct (createRollout_returns f now name org ty targets payload sched by_ db Hty)
    as (r & Hret & Hid & Htargets & _ & Hstored).
  destruct (createRollout_tables f now name org ty targets payload sched by_ db Hty)
    as (Hrollouts & Hexecs & Hnext).
  fold res in Hret, Hstored, Hrollouts, Hexecs, Hnext.
  pose proof (new_executions_Forall now (next_id db) (next_id db + 1) targets) as Hnew.
  exists r. split; [done | ]. split; [done | ]. split; [done | ]. split; [done | ].
  assert (Forall (λ e, rollout_id e = next_id db)
            (if executions_insert_refused f then []
             else new_executions now (next_id db) (next_id db + 1) targets)) as Hadded.
  { destruct (executions_insert_refused f); [constructor | ].
    eapply Forall_impl; [exact Hnew | ]. by intros e (? & _). }
  assert (executions_of (id r) res.1
          = if executions_insert_refused f then []
            else new_executions now (next_id db) (next_id db + 1) targets) as Hmine.
  { unfold executions_of. rewrite Hexecs, filter_app, Hid.
    rewrite no_execution_of_fresh_key by done. by apply filter_all. }
  split.
  { intros Hok. rewrite Hok in Hmine. rewrite Hmine, new_executions_locations.
    split; [done | ]. eapply Forall_impl; [exact Hnew | ]. by intros e (_ & ? & ? & ? & _). }
  split.
  { intros Hno. rewrite Hno in Hmine, Hexecs. rewrite app_nil_r in Hexecs.
    split; [done | ]. split; [done | ].
    intros. by apply updateExecutionStatus_no_executions. }
  split.
  - intros k Hk. split.
    + unfold executions_of. rewrite Hexecs, filter_app.
      rewrite (filter_none _ (if executions_insert_refused f then [] else _));
        [by rewrite app_nil_r | ].
      eapply Forall_impl; [exact Hadded | ]. intros e He. cbn beta in *. congruence.
    + rewrite Hrollouts. apply lookup_insert_ne. congruence.
  - split.
    + intros k r' Hk. rewrite Hrollouts in Hk.
      destruct (decide (k = next_id db)) as [->|Hne].
      * rewrite lookup_insert_eq in Hk. injection Hk as <-. cbn. split; [done | lia].
      * rewrite lookup_insert_ne in Hk by done.
        destruct (Hkeys k r' Hk). split; [done | lia].
    + intros e He. rewrite Hexecs in He.
      apply elem_of_app in He as [He|He].
      * specialize (Hfresh e He). lia.
      * rewrite Forall_forall in Hadded. rewrite (Hadded e He). lia.
Qed.

(** X19. [createRollout] writes the executions of a rollout all or not at
    all, and returns either way.  The call returns the new rollout, stored
    under a fresh key with the targets given.  When the store accepts the
    insert of the executions there is one execution per target location, in
    the order given, each [pending] and without timestamps.  When the store
    refuses that insert, whose result the service never reads, the rollout
    has no execution at all, and every execution report on it throws: it
    can never be completed.  In both cases the executions and rollouts
    already stored are untouched, and the keys stay well formed. *)
Theorem createRollout_executions_all_or_none f now name org ty targets payload sched by_ db :
  includes ROLLOUT_TYPES ty = true →
  well_keyed db →
  let res := createRollout f now name org ty targets payload sched by_ db in
  ∃ r, res.2 = Returns r
    ∧ id r = next_id db
    ∧ rollouts res.1 !! id r = Some r
    ∧ target_locations r = targets
    ∧ (executions_insert_refused f = false →
         location_id <$> executions_of (id r) res.1 = targets
         ∧ Forall (λ e, exec_status e = "pending"
                        ∧ exec_started_at e = None ∧ exec_completed_at e = None)
                  (executions_of (id r) res.1))
    ∧ (executions_insert_refused f = true →
         executions_of (id r) res.1 = []
         ∧ rollout_executions res.1 = rollout_executions db
         ∧ ∀ f' t t_done t_upd lid st msg,
             updateExecutionStatus f' t t_done t_upd (id r) lid st msg res.1
             = (res.1, Throws))
    ∧ (∀ k, k ≠ id r →
         executions_of k res.1 = executions_of k db
         ∧ rollouts res.1 !! k = rollouts db !! k)
    ∧ well_keyed res.1.
Proof. apply createRollout_effect. Qed.

Lemma cancelRollout_inv now rid db :
  cancelRollout now rid db =
    match rollouts db !! rid with
    | Some r =>
        if bool_decide (status r = "pending" ∨ status r = "scheduled") then
          ({| rollouts :=
                <[rid := set_status "rolled_back" (started_at r) (completed_at r) now r]>
                  (rollouts db);
              rollout_executions := rollout_executions db;
              next_id := next_id db |},
           Returns (set_status "rolled_back" (started_at r) (completed_at r) now r))
        else (db, Throws)
    | None => (db, Throws)
    end.
Proof.
  unfold cancelRollout. destruct (rollouts db !! rid) as [r|]; [ | done].
  destruct (includes ["pending"; "scheduled"] (status r)) eqn:Hin.
  - apply includes_elem_of in Hin. rewrite !elem_of_cons, elem_of_nil in Hin.
    rewrite bool_decide_eq_true_2; [done | tauto].
  - apply includes_false in Hin. rewrite !not_elem_of_cons in Hin.
    rewrite bool_decide_eq_false_2; [done | tauto].
Qed.

(** X20. [cancelRollout] works from [pending] and [scheduled] only: there
    it marks the rollout [rolled_back], leaves its executions alone, and
    the rollout can then neither be started nor come due; from any other
    status, and on an unknown id, it throws and changes nothing. *)
Theorem cancelRollout_guards now rid db :
  (∀ r, rollouts db !! rid = Some r →
     (status r = "pending" ∨ status r = "scheduled" →
        let res := cancelRollout now rid db in
        ∃ r', res.2 = Returns r'
          ∧ rollouts res.1 !! rid = Some r'
          ∧ status r' = "rolled_back"
          ∧ rollout_executions res.1 = rollout_executions db
          ∧ (∀ t, startRollout t rid res.1 = (res.1, Throws))
          ∧ (∀ t, cancelRollout t rid res.1 = (res.1, Throws))
          ∧ (∀ t, r' ∉ getDueScheduledRollouts t res.1))
     ∧ (status r ≠ "pending" → status r ≠ "scheduled" →
          cancelRollout now rid db = (db, Throws)))
  ∧ (rollouts db !! rid = None →
       cancelRollout now rid db = (db, Throws) ∧ startRollout now rid db = (db, Throws)).
Proof.
  split.
  - intros r Hr. split.
    + intros Hs res. subst res. rewrite cancelRollout_inv, Hr.
      rewrite bool_decide_eq_true_2 by done. cbn [fst snd].
      set (db1 := {| rollouts := _; rollout_executions := _; next_id := _ |}).
      assert (rollouts db1 !! rid
              = Some (set_status "rolled_back" (started_at r) (completed_at r) now r)) as Hr1
        by apply lookup_insert_eq.
      eexists. split; [reflexivity | ].
      split; [done | ]. split; [done | ]. split; [done | ].
      split; [ | split].
      * intros t. eapply startRollout_not_pending; [exact Hr1 | done].
      * intros t. rewrite cancelRollout_inv, Hr1.
        rewrite bool_decide_eq_false_2; [done | ]. cbn. by intros [?|?].
      * intros t Hdue. apply getDueScheduledRollouts_elem in Hdue as (_ & Hst & _). done.
    + intros H1 H2. rewrite cancelRollout_inv, Hr.
      rewrite bool_decide_eq_false_2; [done | tauto].
  - intros Hnone. rewrite cancelRollout_inv, Hnone. unfold startRollout. by rewrite Hnone.
Qed.

Lemma cancelRollout_guards_witness :
  ∃ r', (cancelRollout 7000 1 db_sched).2 = Returns r' ∧ status r' = "rolled_back".
Proof.
  destruct db_sched_rollout as (r & Hr & Hs & _).
  destruct (proj1 (proj1 (cancelRollout_guards 7000 1 db_sched) r Hr) (or_intror Hs))
    as (r' & Hret & _ & Hst & _).
  by exists r'.
Defined.

(** X21. A rollout is started once: after a [startRollout] that returns,
    the rollout is [in_progress] with [started_at] set, a second start
    throws and leaves [started_at] as it was, and so does a cancel. *)
Theorem startRollout_once t1 t2 rid db r1 :
  (startRollout t1 rid db).2 = Returns r1 →
  let db1 := (startRollout t1 rid db).1 in
  rollouts db1 !! rid = Some r1
  ∧ status r1 = "in_progress" ∧ started_at r1 = Some t1
  ∧ rollout_executions db1 = rollout_executions db
  ∧ startRollout t2 rid db1 = (db1, Throws)
  ∧ cancelRollout t2 rid db1 = (db1, Throws).
Proof.
  unfold startRollout at 1 2.
  destruct (rollouts db !! rid) as [r|] eqn:Hr; [ | done].
  destruct (String.eqb_spec (status r) "pending") as [Hs|]; [ | done].
  cbn [fst snd]. intros [= <-].
  set (db1 := {| rollouts := _; rollout_executions := _; next_id := _ |}).
  assert (rollouts db1 !! rid
          = Some (set_status "in_progress" (Some t1) (completed_at r) t1 r)) as Hr1
    by apply lookup_insert_eq.
  split; [done | ]. repeat split.
  - eapply startRollout_not_pending; [exact Hr1 | done].
  - rewrite cancelRollout_inv, Hr1.
    rewrite bool_decide_eq_false_2; [done | ]. cbn. by intros [?|?].
Qed.

Lemma startRollout_once_witness :
  ∃ r1, (startRollout 1001 1 (createRollout no_faults 1000 "Menu v2" "org-1" "menu_activation"
                                ["L1"; "L2"; "L3"] "{}" None None empty_db).1).2 = Returns r1
        ∧ status r1 = "in_progress".
Proof.
  eexists. split; [vm_compute; reflexivity | ].
  refine (proj1 (proj2 (startRollout_once 1001 1002 1
            (createRollout no_faults 1000 "Menu v2" "org-1" "menu_activation"
               ["L1"; "L2"; "L3"] "{}" None None empty_db).1 _ _))).
  vm_compute. reflexivity.
Defined.

(** X22. [rollbackRollout] has no guard on the state: for any stored
    rollout, whatever its status, it creates and returns a new [pending]
    rollout under a fresh key, named after the original, of the same
    organization and type, targeting the same locations, with the rollback
    payload.  Neither the update that marks the original nor the insert of
    the new executions has its result read: when the store accepts them the
    original is [rolled_back] (its targets, payload and timestamps kept)
    and the new rollout has one pending execution per target; when the
    store refuses the update the original is left exactly as it was, and
    when it refuses the insert the new rollout has no execution; the call
    returns all the same.  The original's executions are untouched.  On an
    unknown id the call throws and changes nothing. *)
Theorem rollbackRollout_creates_inverse rollback_payload f t_mark t_create rid by_ db :
  well_keyed db → typed db →
  let res := rollbackRollout rollback_payload f t_mark t_create rid by_ db in
  (∀ r, rollouts db !! rid = Some r →
     ∃ r_new r',
       res.2 = Returns r_new
       ∧ id r_new = next_id db ∧ id r_new ≠ rid
       ∧ rollouts res.1 !! id r_new = Some r_new
       ∧ status r_new = "pending"
       ∧ name r_new = "Rollback: " +:+ name r
       ∧ organization_id r_new = organization_id r
       ∧ rollout_type r_new = rollout_type r
       ∧ target_locations r_new = target_locations r
       ∧ payload r_new = rollback_payload (payload r) rid
       ∧ (executions_insert_refused f = false →
            location_id <$> executions_of (id r_new) res.1 = target_locations r
            ∧ Forall (λ e, exec_status e = "pending") (executions_of (id r_new) res.1))
       ∧ (executions_insert_refused f = true → executions_of (id r_new) res.1 = [])
       ∧ rollouts res.1 !! rid = Some r'
       ∧ (rollouts_update_refused f = false →
            status r' = "rolled_back"
            ∧ target_locations r' = target_locations r ∧ payload r' = payload r
            ∧ started_at r' = started_at r ∧ completed_at r' = completed_at r)
       ∧ (rollouts_update_refused f = true → r' = r)
       ∧ executions_of rid res.1 = executions_of rid db)
  ∧ (rollouts db !! rid = None → res = (db, Throws)).
Proof.
  intros Hwk Hty res. split.
  - intros r Hr. subst res. unfold rollbackRollout, getRollout. rewrite Hr.
    set (db0 := if rollouts_update_refused f then db else _).
    set (r0 := if rollouts_update_refused f then r
               else set_status "rolled_back" (started_at r) (completed_at r) t_mark r).
    assert (rollouts db0 !! rid = Some r0 ∧ next_id db0 = next_id db
            ∧ rollout_executions db0 = rollout_executions db
            ∧ (∀ k, k ≠ rid → rollouts db0 !! k = rollouts db !! k)) as (Hr0 & Hn0 & He0 & Ho0).
    { subst db0 r0. destruct (rollouts_update_refused f); [done | ].
      cbn [rollouts next_id rollout_executions]. split; [by rewrite lookup_alter_eq, Hr | ].
      split; [done | ]. split; [done | ]. intros k Hk. by rewrite lookup_alter_ne. }
    assert (id r0 = id r) as Hid0 by (subst r0; by destruct (rollouts_update_refused f)).
    assert (well_keyed db0) as Hwk0.
    { destruct Hwk as [Hkeys Hfresh]. split.
      - intros k x Hk. rewrite Hn0. destruct (decide (k = rid)) as [->|Hne].
        + rewrite Hr0 in Hk. injection Hk as <-. rewrite Hid0. by apply (Hkeys rid r).
        + rewrite Ho0 in Hk by done. by apply Hkeys.
      - intros e He. rewrite Hn0. rewrite He0 in He. by apply Hfresh. }
    assert (includes ROLLOUT_TYPES (rollout_type r) = true) as Htype
      by (apply includes_elem_of; by apply (Hty rid r)).
    destruct (createRollout_effect f t_create ("Rollback: " +:+ name r) (organization_id r)
                (rollout_type r) (target_locations r) (rollback_payload (payload r) rid)
                None by_ db0 Htype Hwk0)
      as (r_new & Hret & Hid & Hstored & _ & Hok & Hno & Hother & _).
    assert (id r_new ≠ rid) as Hne.
    { rewrite Hid, Hn0. destruct Hwk as [Hkeys _]. destruct (Hkeys rid r Hr). lia. }
    destruct (Hother rid (not_eq_sym Hne)) as [Hexecs Hroll].
    exists r_new, r0.
    split; [done | ]. split; [by rewrite Hid, Hn0 | ]. split; [done | ]. split; [done | ].
    assert (r_new = {| id := next_id db0; name := "Rollback: " +:+ name r;
              organization_id := organization_id r; rollout_type := rollout_type r;
              target_locations := target_locations r;
              payload := rollback_payload (payload r) rid; status := "pending";
              scheduled_at := None; started_at := None; completed_at := None;
              created_by := by_; created_at := t_create; updated_at := t_create |}) as Hnew.
    { revert Hret. unfold createRollout. rewrite Htype. cbn [negb snd]. by intros [= <-]. }
    split; [by rewrite Hnew | ]. split; [by rewrite Hnew | ]. split; [by rewrite Hnew | ].
    split; [by rewrite Hnew | ]. split; [by rewrite Hnew | ]. split; [by rewrite Hnew | ].
    split.
    { intros Hf. destruct (Hok Hf) as [Hlocs Hpend]. split; [done | ].
      eapply Forall_impl; [exact Hpend | ]. by intros e (? & _). }
    split. { intros Hf. by destruct (Hno Hf). }
    split; [by rewrite Hroll | ].
    split. { intros Hf. subst r0. by rewrite Hf. }
    split. { intros Hf. subst r0. by rewrite Hf. }
    rewrite Hexecs. unfold executions_of. by rewrite He0.
  - intros Hnone. subst res. unfold rollbackRollout, getRollout. by rewrite Hnone.
Qed.

Lemma targets_iff rid lid e :
  targets rid lid e = true ↔ rollout_id e = rid ∧ location_id e = lid.
Proof.
  unfold targets. by rewrite andb_true_iff, bool_decide_eq_true, String.eqb_eq.
Qed.

Lemma filter_targets rid lid db :
  filter (λ e, targets rid lid e = true) (rollout_executions db)
  = filter (λ e, location_id e = lid) (executions_of rid db).
Proof.
  unfold executions_of. rewrite list_filter_filter. apply list_filter_iff.
  intros e. rewrite targets_iff. tauto.
Qed.

Lemma filter_location_count lid (es : list Execution) :
  length (filter (λ e, location_id e = lid) es)
  = length (filter (λ l, l = lid) (location_id <$> es)).
Proof.
  induction es as [|e es IH]; [done | ].
  rewrite fmap_cons, !filter_cons.
  destruct (decide (location_id e = lid)); cbn [length]; by rewrite IH.
Qed.

(** X23. A location listed twice among the targets is a trap.  When the
    executions are written, the creation writes two rows for it, so every
    later execution report for that location matches two rows and throws at
    [.single()]; the request is rolled back, so after the report the tables
    are what they were: the two rows are still there and every execution
    of the rollout is still [pending], the rollout's row is unchanged, and
    with it the rollout can never become all-terminal through reports. *)
Theorem duplicate_target_blocks_reports f now name org ty targets payload sched by_ db lid :
  includes ROLLOUT_TYPES ty = true →
  well_keyed db →
  executions_insert_refused f = false →
  (1 < length (filter (λ l, l = lid) targets))%nat →
  let res := createRollout f now name org ty targets payload sched by_ db in
  ∀ f' t t_done t_upd st msg,
    let after := updateExecutionStatus f' t t_done t_upd (next_id db) lid st msg res.1 in
    after.2 = Throws
    ∧ after.1 = res.1
    ∧ Forall (λ e, exec_status e = "pending") (executions_of (next_id db) after.1)
    ∧ length (filter (λ e, location_id e = lid) (executions_of (next_id db) after.1))
      = length (filter (λ l, l = lid) targets).
Proof.
  intros Hty Hwk Hf Hdup res f' t t_done t_upd st msg.
  destruct (createRollout_effect f now name org ty targets payload sched by_ db Hty Hwk)
    as (r & _ & Hid & _ & _ & Hok & _). fold res in Hok. rewrite Hid in Hok.
  destruct (Hok Hf) as [Hlocs Hpend].
  assert (Forall (λ e, exec_status e = "pending") (executions_of (next_id db) res.1)) as Hp.
  { eapply Forall_impl; [exact Hpend | ]. by intros e (? & _). }
  pose proof (filter_location_count lid (executions_of (next_id db) res.1)) as Hlen.
  rewrite Hlocs in Hlen.
  assert (updateExecutionStatus f' t t_done t_upd (next_id db) lid st msg res.1
          = (res.1, Throws)) as Hthrows.
  { unfold updateExecutionStatus. rewrite filter_targets.
    destruct (negb (includes EXECUTION_STATUSES st)); [done | ].
    destruct (filter (λ e, location_id e = lid) (executions_of (next_id db) res.1))
      as [|e1 [|e2 rest]]; cbn [length] in Hlen; [lia | lia | done]. }
  cbn zeta. rewrite Hthrows. cbn [fst snd]. done.
Qed.

Lemma duplicate_target_blocks_reports_witness :
  updateExecutionStatus no_faults 1002 1002 1002 1 "L1" "completed" None
    (createRollout no_faults 1000 "Twice" "org-1" "menu_activation" ["L1"; "L2"; "L1"] "{}"
       None None empty_db).1
  = ((createRollout no_faults 1000 "Twice" "org-1" "menu_activation" ["L1"; "L2"; "L1"] "{}"
        None None empty_db).1, Throws).
Proof.
  destruct (duplicate_target_blocks_reports no_faults 1000 "Twice" "org-1" "menu_activation"
              ["L1"; "L2"; "L1"] "{}" None None empty_db "L1" eq_refl well_keyed_empty_db
              eq_refl) with (f' := no_faults) (t := 1002) (t_done := 1002) (t_upd := 1002)
              (st := "completed") (msg := @None string) as (Ht & Hdb & _).
  - vm_compute. lia.
  - apply injective_projections; [exact Hdb | exact Ht].
Defined.

Lemma filter_unique_location lid (es : list Execution) :
  NoDup (location_id <$> es) → lid ∈ location_id <$> es →
  ∃ e, filter (λ e, location_id e = lid) es = [e].
Proof.
  induction es as [|e es IH]; [by intros _ ?%elem_of_nil | ].
  rewrite fmap_cons. intros [Hnotin Hnd]%NoDup_cons Hin.
  rewrite filter_cons. destruct (decide (location_id e = lid)) as [Heq|Hne].
  - exists e. f_equal. apply filter_none. apply Forall_forall. intros e' He' Heq'.
    apply Hnotin. rewrite Heq, <- Heq'. apply list_elem_of_fmap. by exists e'.
  - apply elem_of_cons in Hin as [?|Hin]; [congruence | ]. by apply IH.
Qed.

Lemma reported_location t lid st e : location_id (reported t lid st e) = location_id e.
Proof. unfold reported. by destruct (String.eqb _ _). Qed.

Lemma reported_locations t lid st (es : list Execution) :
  location_id <$> (reported t lid st <$> es) = location_id <$> es.
Proof.
  rewrite <- list_fmap_compose. apply list_fmap_ext. intros i e _. apply reported_location.
Qed.

(** An accepted report: the one matching row is rewritten, then the
    recomputation runs. *)
Lemma updateExecutionStatus_unique_row f t rid lid st db :
  NoDup (location_id <$> executions_of rid db) →
  lid ∈ location_id <$> executions_of rid db →
  includes EXECUTION_STATUSES st = true →
  ∃ db1,
    (updateExecutionStatus f t t t rid lid st None db).1 = checkRolloutCompletion f t t rid db1
    ∧ rollouts db1 = rollouts db
    ∧ executions_of rid db1 = reported t lid st <$> executions_of rid db.
Proof.
  intros Hnd Hin Hst. unfold updateExecutionStatus. rewrite Hst, filter_targets. cbn [negb].
  destruct (filter_unique_location lid _ Hnd Hin) as [e ->]. cbn [single fst].
  eexists. split; [reflexivity | ]. split; [done | ].
  unfold executions_of. cbn [rollout_executions].
  induction (rollout_executions db) as [|x xs IH]; [done | ].
  rewrite fmap_cons, !filter_cons.
  assert (rollout_id (if targets rid lid x then apply_updates t st None x else x)
          = rollout_id x) as Hrid by (by destruct (targets rid lid x)).
  rewrite Hrid. destruct (decide (rollout_id x = rid)) as [Heq|Hne]; [ | exact IH].
  rewrite fmap_cons, IH. f_equal. unfold reported, targets.
  by rewrite bool_decide_eq_true_2.
Qed.

Lemma checkRolloutCompletion_executions_of f t rid db :
  executions_of rid (checkRolloutCompletion f t t rid db) = executions_of rid db.
Proof. unfold executions_of. by rewrite checkRolloutCompletion_executions. Qed.

Lemma checkRolloutCompletion_keeps f t rid db r :
  rollouts db !! rid = Some r →
  ∃ r', rollouts (checkRolloutCompletion f t t rid db) !! rid = Some r'
        ∧ started_at r' = started_at r.
Proof.
  intros Hr. rewrite (checkRolloutCompletion_rollout f t t rid db r Hr).
  destruct (_ || _); [by exists r | ].
  destruct (forallb _ _); eexists; split; reflexivity.
Qed.

(** The executions and the rollout row through a run of reports. *)
Lemma report_all_executions rid reports : ∀ t db r,
  rollouts db !! rid = Some r →
  NoDup (location_id <$> executions_of rid db) →
  well_addressed rid db reports →
  executions_of rid (report_all t rid reports db)
  = apply_reports t reports (executions_of rid db)
  ∧ ∃ r', rollouts (report_all t rid reports db) !! rid = Some r'
          ∧ started_at r' = started_at r.
Proof.
  unfold well_addressed.
  induction reports as [|[lid st f] rest IH]; intros t db r Hr Hnd Hall.
  - split; [done | by exists r].
  - apply Forall_cons in Hall as [[Hin Hst] Hrest].
    cbn [rep_location rep_status] in Hin, Hst.
    cbn [report_all apply_reports rep_location rep_status rep_faults].
    destruct (updateExecutionStatus_unique_row f t rid lid st db Hnd Hin Hst)
      as (db1 & -> & Hroll & Hexecs).
    pose proof (checkRolloutCompletion_executions_of f t rid db1) as Hex.
    rewrite Hexecs in Hex. rewrite <- Hroll in Hr.
    destruct (checkRolloutCompletion_keeps f t rid db1 r Hr) as (r1 & Hr1 & Hstart1).
    destruct (IH (t + 1) (checkRolloutCompletion f t t rid db1) r1 Hr1)
      as (Hfinal & r' & Hr' & Hs').
    + by rewrite Hex, reported_locations.
    + rewrite Hex, reported_locations. exact Hrest.
    + split; [by rewrite Hfinal, Hex | ]. exists r'. split; [done | congruence].
Qed.

Lemma forallb_is_terminal_false (es : list Execution) e :
  e ∈ es → is_terminal e = false → forallb is_terminal es = false.
Proof.
  induction es as [|x xs IH]; [by intros ?%elem_of_nil | ].
  intros [->|Hin]%elem_of_cons Hnt; cbn [forallb].
  - by rewrite Hnt.
  - rewrite IH by done. apply andb_false_r.
Qed.

(** While an execution that no report names is not terminal, no report
    changes the rollout's row. *)
Lemma report_all_rollout_kept rid reports : ∀ t db r e0,
  rollouts db !! rid = Some r →
  NoDup (location_id <$> executions_of rid db) →
  well_addressed rid db reports →
  e0 ∈ executions_of rid db → is_terminal e0 = false →
  location_id e0 ∉ rep_location <$> reports →
  rollouts (report_all t rid reports db) !! rid = Some r.
Proof.
  unfold well_addressed.
  induction reports as [|[lid st f] rest IH]; intros t db r e0 Hr Hnd Hall He0 Hnt Hnotin;
    [done | ].
  apply Forall_cons in Hall as [[Hin Hst] Hrest].
  cbn [rep_location rep_status] in Hin, Hst.
  rewrite fmap_cons, not_elem_of_cons in Hnotin. cbn [rep_location] in Hnotin.
  destruct Hnotin as [Hne Hnotin].
  cbn [report_all rep_location rep_status rep_faults].
  destruct (updateExecutionStatus_unique_row f t rid lid st db Hnd Hin Hst)
    as (db1 & -> & Hroll & Hexecs).
  pose proof (checkRolloutCompletion_executions_of f t rid db1) as Hex.
  rewrite Hexecs in Hex.
  assert (e0 ∈ reported t lid st <$> executions_of rid db) as He0'.
  { apply list_elem_of_fmap. exists e0. split; [ | done]. unfold reported.
    destruct (String.eqb_spec (location_id e0) lid); [congruence | done]. }
  rewrite <- Hroll in Hr.
  apply (IH (t + 1) _ r e0).
  - rewrite (checkRolloutCompletion_rollout f t t rid db1 r Hr), Hexecs.
    rewrite (forallb_is_terminal_false _ e0 He0' Hnt). by destruct (_ || _).
  - by rewrite Hex, reported_locations.
  - rewrite Hex, reported_locations. exact Hrest.
  - by rewrite Hex.
  - done.
  - done.
Qed.

Lemma report_all_app rid reports1 reports2 : ∀ t db,
  report_all t rid (reports1 ++ reports2) db
  = report_all (t + Z.of_nat (length reports1)) rid reports2 (report_all t rid reports1 db).
Proof.
  induction reports1 as [|rep rest IH]; intros t db.
  - cbn. by rewrite Z.add_0_r.
  - cbn [app report_all]. rewrite IH, length_cons, Nat2Z.inj_succ. f_equal. lia.
Qed.

Lemma report_all_no_executions rid reports : ∀ t db,
  executions_of rid db = [] → report_all t rid reports db = db.
Proof.
  induction reports as [|rep rest IH]; intros t db Hnone; [done | ].
  cbn [report_all]. rewrite updateExecutionStatus_no_executions by done. by apply IH.
Qed.

Lemma reported_other t lid st (es : list Execution) :
  lid ∉ location_id <$> es → reported t lid st <$> es = es.
Proof.
  induction es as [|e es IH]; [done | ].
  rewrite !fmap_cons, not_elem_of_cons. intros [Hne Hrest]. rewrite IH by done.
  f_equal. unfold reported. destruct (String.eqb_spec (location_id e) lid); congruence.
Qed.

Lemma apply_reports_cons_other reports : ∀ t e es,
  location_id e ∉ rep_location <$> reports →
  apply_reports t reports (e :: es) = e :: apply_reports t reports es.
Proof.
  induction reports as [|[lid st f] rest IH]; intros t e es Hnotin; [done | ].
  rewrite fmap_cons, not_elem_of_cons in Hnotin. cbn [rep_location] in Hnotin.
  destruct Hnotin as [Hne Hrest].
  cbn [apply_reports rep_location rep_status]. rewrite fmap_cons.
  replace (reported t lid st e) with e.
  - by apply IH.
  - unfold reported. destruct (String.eqb_spec (location_id e) lid); congruence.
Qed.

(** Reports in the order of the executions leave each execution with the
    status reported for it. *)
Lemma apply_reports_statuses (es : list Execution) : ∀ t reports,
  NoDup (location_id <$> es) →
  rep_location <$> reports = location_id <$> es →
  exec_status <$> apply_reports t reports es = rep_status <$> reports.
Proof.
  induction es as [|e es IH]; intros t [|[lid st f] rest] Hnd Hlocs; try done.
  rewrite !fmap_cons in Hlocs. cbn [rep_location] in Hlocs. injection Hlocs as -> Hlocs.
  rewrite fmap_cons in Hnd. apply NoDup_cons in Hnd as [Hnotin Hnd].
  cbn [apply_reports rep_location rep_status]. rewrite !fmap_cons.
  rewrite reported_other by done.
  rewrite apply_reports_cons_other.
  - rewrite fmap_cons. cbn [rep_status]. f_equal.
    + unfold reported. by rewrite String.eqb_refl.
    + by apply IH.
  - by rewrite reported_location, Hlocs.
Qed.

Lemma apply_reports_locations reports : ∀ t (es : list Execution),
  location_id <$> apply_reports t reports es = location_id <$> es.
Proof.
  induction reports as [|[lid st f] rest IH]; intros t es; [done | ].
  cbn [apply_reports]. by rewrite IH, reported_locations.
Qed.

Lemma apply_reports_app reports1 reports2 : ∀ t (es : list Execution),
  apply_reports t (reports1 ++ reports2) es
  = apply_reports (t + Z.of_nat (length reports1)) reports2 (apply_reports t reports1 es).
Proof.
  induction reports1 as [|rep rest IH]; intros t es.
  - cbn. by rewrite Z.add_0_r.
  - cbn [app apply_reports]. rewrite IH, length_cons, Nat2Z.inj_succ. f_equal. lia.
Qed.

Lemma forallb_is_terminal_statuses (es : list Execution) :
  Forall (λ o, o = "completed" ∨ o = "failed") (exec_status <$> es) →
  forallb is_terminal es = true.
Proof.
  induction es as [|e es IH]; [done | ].
  rewrite fmap_cons. intros [Hhd Htl]%Forall_cons. cbn [forallb].
  rewrite IH by done. unfold is_terminal.
  destruct Hhd as [-> | ->]; reflexivity.
Qed.

Lemma existsb_is_failed_statuses (es : list Execution) :
  existsb is_failed es = bool_decide ("failed" ∈ exec_status <$> es).
Proof.
  induction es as [|e es IH].
  - cbn. rewrite bool_decide_eq_false_2; [done | apply not_elem_of_nil].
  - rewrite fmap_cons. cbn [existsb]. rewrite IH. unfold is_failed.
    destruct (String.eqb_spec (exec_status e) "failed") as [Heq|Hne]; cbn [orb].
    + symmetry. apply bool_decide_eq_true_2. rewrite Heq. left.
    + apply bool_decide_ext. rewrite elem_of_cons. split; [tauto | ].
      intros [?|?]; [congruence | done].
Qed.

(** X24. The whole life of a rollout.  Created without a schedule over
    distinct locations, started, then reported on once per location, in
    order, each report [completed] or [failed].  Its [started_at] is the
    clock of the start throughout.  When the executions were written:
    each execution ends with the status reported for it; if the store
    answers the last report's recomputation, the rollout ends [failed]
    when some report was [failed] and [completed] otherwise, with
    [completed_at] the clock of the last report; if that read fails or
    that update is refused, the rollout is left [in_progress] without
    [completed_at], all of its executions terminal.  When the insert of the
    executions was refused, every report throws and the rollout stays
    [in_progress].  In every case the rollout can be neither started nor
    cancelled afterwards. *)
Theorem rollout_lifecycle f now name org ty targets payload by_ db t1 t2 init final :
  includes ROLLOUT_TYPES ty = true →
  well_keyed db →
  NoDup targets →
  rep_location <$> (init ++ [final]) = targets →
  Forall (λ rep, rep_status rep = "completed" ∨ rep_status rep = "failed") (init ++ [final]) →
  let rid := next_id db in
  let db1 := (createRollout f now name org ty targets payload None by_ db).1 in
  let db2 := (startRollout t1 rid db1).1 in
  let db3 := report_all t2 rid (init ++ [final]) db2 in
  let outcomes := rep_status <$> (init ++ [final]) in
  ∃ r, rollouts db3 !! rid = Some r
    ∧ started_at r = Some t1
    ∧ (executions_insert_refused f = false →
         exec_status <$> executions_of rid db3 = outcomes
         ∧ (accepted final →
              status r = (if bool_decide ("failed" ∈ outcomes) then "failed" else "completed")
              ∧ completed_at r = Some (t2 + Z.of_nat (length init)))
         ∧ (¬ accepted final → status r = "in_progress" ∧ completed_at r = None))
    ∧ (executions_insert_refused f = true →
         db3 = db2 ∧ status r = "in_progress" ∧ completed_at r = None)
    ∧ (∀ t, startRollout t rid db3 = (db3, Throws))
    ∧ (∀ t, cancelRollout t rid db3 = (db3, Throws)).
Proof.
  intros Hty Hwk Hnd Hlocs Hout rid db1 db2 db3 outcomes.
  destruct (createRollout_effect f now name org ty targets payload None by_ db Hty Hwk)
    as (r0 & Hret & Hid & Hstored & _ & Hok & Hno & _ & _).
  destruct (createRollout_tables f now name org ty targets payload None by_ db Hty)
    as (Htab & _ & _).
  rewrite Hid in Hstored, Hok, Hno. fold rid db1 in Hstored, Hok, Hno, Htab.
  rewrite Htab, lookup_insert_eq in Hstored. injection Hstored as Hr0.
  assert (rollouts db1 !! rid = Some r0) as Hstored
    by (rewrite Htab, <- Hr0; apply lookup_insert_eq).
  assert (status r0 = "pending" ∧ completed_at r0 = None) as [Hpending Hnotdone]
    by (by rewrite <- Hr0).
  pose proof (startRollout_pending t1 rid db1 r0 Hstored Hpending) as Hstart.
  set (r2 := set_status "in_progress" (Some t1) (completed_at r0) t1 r0) in Hstart.
  assert (rollouts db2 !! rid = Some r2) as Hr2.
  { subst db2. rewrite Hstart. apply lookup_insert_eq. }
  assert (executions_of rid db2 = executions_of rid db1) as Hex2.
  { subst db2. by rewrite Hstart. }
  assert (∀ r, rollouts db3 !! rid = Some r → status r ≠ "pending" → status r ≠ "scheduled" →
               (∀ t, startRollout t rid db3 = (db3, Throws))
               ∧ (∀ t, cancelRollout t rid db3 = (db3, Throws))) as Hclosed.
  { intros r Hr Hnp Hns. split; intros t.
    - by eapply startRollout_not_pending.
    - rewrite cancelRollout_inv, Hr. rewrite bool_decide_eq_false_2; [done | tauto]. }
  destruct (executions_insert_refused f) eqn:Hf.
  { (* no execution was written *)
    destruct (Hno eq_refl) as (Hnone & _ & _).
    assert (db3 = db2) as Hsame.
    { subst db3. apply report_all_no_executions. by rewrite Hex2. }
    exists r2. rewrite Hsame at 1. split; [done | ]. split; [done | ].
    split; [done | ]. split; [by rewrite <- Hnotdone | ].
    apply (Hclosed r2); [by rewrite Hsame | done | done]. }
  destruct (Hok eq_refl) as [Hlocs1 Hpend].
  set (es := executions_of rid db2).
  assert (location_id <$> es = targets) as Hlocs2 by (subst es; by rewrite Hex2).
  assert (NoDup (location_id <$> es)) as Hnd2 by (by rewrite Hlocs2).
  assert (well_addressed rid db2 (init ++ [final])) as Hwa.
  { unfold well_addressed. fold es. rewrite Hlocs2, <- Hlocs. apply Forall_forall.
    intros rep Hin. split.
    - apply list_elem_of_fmap. by exists rep.
    - rewrite Forall_forall in Hout. destruct (Hout rep Hin) as [-> | ->]; reflexivity. }
  apply Forall_app in Hwa as [Hwa_init Hwa_final].
  apply Forall_cons in Hwa_final as [[Hin_final Hst_final] _]. fold es in Hin_final.
  (* the reports before the last *)
  set (db_prev := report_all t2 rid init db2).
  destruct (report_all_executions rid init t2 db2 r2 Hr2 Hnd2 Hwa_init) as (Hex_prev & _).
  fold db_prev es in Hex_prev.
  assert (rollouts db_prev !! rid = Some r2) as Hr_prev.
  { apply list_elem_of_fmap in Hin_final as (e0 & Hloc0 & He0).
    apply (report_all_rollout_kept rid init t2 db2 r2 e0 Hr2 Hnd2 Hwa_init He0).
    - subst es. rewrite Hex2 in He0. rewrite Forall_forall in Hpend.
      destruct (Hpend e0 He0) as (Hp & _). unfold is_terminal. by rewrite Hp.
    - rewrite <- Hloc0. rewrite <- Hlocs, fmap_app in Hnd.
      apply NoDup_app in Hnd as (_ & Hdisj & _). intros Hin. apply (Hdisj _ Hin). left. }
  (* the last report *)
  set (t3 := t2 + Z.of_nat (length init)).
  assert (db3 = (updateExecutionStatus (rep_faults final) t3 t3 t3 rid (rep_location final)
                   (rep_status final) None db_prev).1) as Hdb3.
  { subst db3. by rewrite report_all_app. }
  destruct (updateExecutionStatus_unique_row (rep_faults final) t3 rid (rep_location final)
              (rep_status final) db_prev) as (dbx & Hstep & Hrollx & Hexx).
  { by rewrite Hex_prev, apply_reports_locations. }
  { by rewrite Hex_prev, apply_reports_locations. }
  { done. }
  rewrite Hstep in Hdb3.
  assert (executions_of rid dbx = apply_reports t2 (init ++ [final]) es) as Hexx'.
  { by rewrite Hexx, Hex_prev, apply_reports_app. }
  assert (exec_status <$> executions_of rid dbx = outcomes) as Hstat.
  { rewrite Hexx'. apply apply_reports_statuses; [done | by rewrite Hlocs2]. }
  assert (executions_of rid db3 = executions_of rid dbx) as Hex3
    by (rewrite Hdb3; apply checkRolloutCompletion_executions_of).
  rewrite <- Hrollx in Hr_prev.
  pose proof (checkRolloutCompletion_rollout (rep_faults final) t3 t3 rid dbx r2 Hr_prev) as Hr3.
  rewrite <- Hdb3 in Hr3.
  rewrite forallb_is_terminal_statuses in Hr3
    by (rewrite Hstat; subst outcomes; by apply Forall_fmap).
  rewrite existsb_is_failed_statuses, Hstat in Hr3.
  unfold accepted.
  destruct (executions_select_fails (rep_faults final)) eqn:Hsel;
    [ | destruct (rollouts_update_refused (rep_faults final)) eqn:Hupd]; cbn [orb] in Hr3.
  - exists r2. split; [done | ]. split; [done | ].
    split; [ | split; [done | by apply (Hclosed r2)]].
    intros _. split; [by rewrite Hex3 | ]. split; [by intros [? _] | ].
    intros _. split; [done | by rewrite <- Hnotdone].
  - exists r2. split; [done | ]. split; [done | ].
    split; [ | split; [done | by apply (Hclosed r2)]].
    intros _. split; [by rewrite Hex3 | ]. split; [by intros [_ ?] | ].
    intros _. split; [done | by rewrite <- Hnotdone].
  - eexists. split; [exact Hr3 | ]. split; [done | ].
    split; [ | split; [done | ]].
    + intros _. split; [by rewrite Hex3 | ]. split; [done | ]. by intros [].
    + apply (Hclosed _ Hr3); cbn [status set_status]; by destruct (bool_decide _).
Qed.

Lemma rollout_lifecycle_witness :
  ∃ r, rollouts
         (report_all 1002 1
            ([ {| rep_location := "L1"; rep_status := "completed"; rep_faults := no_faults |};
               {| rep_location := "L2"; rep_status := "failed"; rep_faults := no_faults |} ]
             ++ [ {| rep_location := "L3"; rep_status := "completed";
                     rep_faults := no_faults |} ])
            (startRollout 1001 1
               (createRollout no_faults 1000 "Menu v2" "org-1" "menu_activation"
                  ["L1"; "L2"; "L3"] "{}" None None empty_db).1).1) !! 1 = Some r
       ∧ started_at r = Some 1001.
Proof.
  destruct (rollout_lifecycle no_faults 1000 "Menu v2" "org-1" "menu_activation"
              ["L1"; "L2"; "L3"] "{}" None empty_db 1001 1002
              [ {| rep_location := "L1"; rep_status := "completed"; rep_faults := no_faults |};
                {| rep_location := "L2"; rep_status := "failed"; rep_faults := no_faults |} ]
              {| rep_location := "L3"; rep_status := "completed"; rep_faults := no_faults |})
    as (r & Hr & Hs & _).
  - reflexivity.
  - exact well_keyed_empty_db.
  - apply (bool_decide_unpack _). vm_compute. reflexivity.
  - reflexivity.
  - repeat (constructor; [first [by left | by right] | ]). constructor.
  - exists r. split; [exact Hr | exact Hs].
Defined.

Lemma createRollout_executions_all_or_none_witness :
  ∃ r, (createRollout no_faults 1000 "Menu v2" "org-1" "menu_activation"
          ["L1"; "L2"; "L3"] "{}" None None empty_db).2 = Returns r
       ∧ id r = 1.
Proof.
  destruct (createRollout_executions_all_or_none no_faults 1000 "Menu v2" "org-1"
              "menu_activation" ["L1"; "L2"; "L3"] "{}" None None empty_db)
    as (r & Hret & Hid & _).
  - reflexivity.
  - exact well_keyed_empty_db.
  - exists r. split; [exact Hret | exact Hid].
Defined.

Lemma db_sched_well_keyed : well_keyed db_sched.
Proof.
  destruct (createRollout_effect no_faults 1000 "Night menu" "org-1" "menu_activation" ["L1"]
              "{}" (Some 5000) None empty_db eq_refl well_keyed_empty_db)
    as (_ & _ & _ & _ & _ & _ & _ & _ & H).
  exact H.
Qed.

Lemma db_sched_typed : typed db_sched.
Proof.
  intros k r Hk. unfold db_sched in Hk.
  destruct (createRollout_tables no_faults 1000 "Night menu" "org-1" "menu_activation" ["L1"]
              "{}" (Some 5000) None empty_db eq_refl) as (Hroll & _).
  rewrite Hroll in Hk. apply lookup_insert_Some in Hk as [[_ <-] | [_ Hk]].
  - apply includes_elem_of. reflexivity.
  - unfold empty_db in Hk. cbn [rollouts] in Hk. by rewrite lookup_empty in Hk.
Qed.

Lemma rollbackRollout_creates_inverse_witness :
  ∃ r_new, (rollbackRollout (λ p _, p) no_faults 8000 8001 1 None db_sched).2 = Returns r_new
           ∧ status r_new = "pending"
           ∧ name r_new = "Rollback: Night menu".
Proof.
  destruct db_sched_rollout as (r & Hr & _).
  destruct (proj1 (rollbackRollout_creates_inverse (λ p _, p) no_faults 8000 8001 1 None
                     db_sched db_sched_well_keyed db_sched_typed) r Hr)
    as (r_new & r' & Hret & _ & _ & _ & Hs & Hname & _).
  exists r_new. split; [exact Hret | ]. split; [exact Hs | ].
  rewrite Hname. revert Hr. vm_compute. by intros [= <-].
Defined.

End RolloutOpsFacts.

(** ** The location service *)
Section LocationsFacts.

Import Locations.

Lemma update_single_lookup err lid change db k :
  locations (update_single err lid change db).1 !! k
  = if err then locations db !! k
    else if decide (k = lid) then change <$> locations db !! lid
    else locations db !! k.
Proof.
  unfold update_single. destruct err; [done | ].
  destruct (locations db !! lid) as [r|] eqn:Hr; cbn [fst locations].
  - destruct (decide (k = lid)) as [->|Hne].
    + by rewrite lookup_insert_eq.
    + by rewrite lookup_insert_ne.
  - destruct (decide (k = lid)) as [->|Hne]; [by rewrite Hr | done].
Qed.

Lemma update_single_consistent err lid change db :
  (∀ r, Enforce.loc_id (location (change r)) = Enforce.loc_id (location r)) →
  (∀ r, (Enforce.active (location r) = true → Enforce.setup_fee_paid (location r) = true) →
        Enforce.active (location (change r)) = true →
        Enforce.setup_fee_paid (location (change r)) = true) →
  (∀ r, Enforce.device_limit (location r) = PLAN_DEVICE_LIMITS (Enforce.plan_tier (location r)) →
        Enforce.device_limit (location (change r))
        = PLAN_DEVICE_LIMITS (Enforce.plan_tier (location (change r)))) →
  consistent db → consistent (update_single err lid change db).1.
Proof.
  intros Hid Hpaid Hlim Hc k r Hk. rewrite update_single_lookup in Hk.
  destruct err; [by apply Hc | ].
  destruct (decide (k = lid)) as [->|Hne]; [ | by apply Hc].
  destruct (locations db !! lid) as [r0|] eqn:Hr0; [ | done].
  injection Hk as <-. destruct (Hc lid r0 Hr0) as (H1 & H2 & H3).
  split; [by rewrite Hid | ]. split; [by apply Hpaid | by apply Hlim].
Qed.

Lemma perform_consistent op db : consistent db → consistent (perform op db).
Proof.
  intros Hc. destruct op as [now new_id err input | now err lid | now err lid tier | now err lid];
    cbn [perform].
  - unfold createLocation.
    destruct (err || bool_decide (is_Some (locations db !! new_id))); [done | ].
    cbn [fst]. intros k r Hk. cbn [locations] in Hk.
    apply lookup_insert_Some in Hk as [[<- <-] | [_ Hk]]; [ | by apply Hc].
    cbn. done.
  - apply update_single_consistent; [done | done | done | done].
  - apply update_single_consistent; [done | | done | done].
    intros r Hr. cbn. exact Hr.
  - apply update_single_consistent; [done | | done | done].
    intros r _. cbn. discriminate.
Qed.

Lemma perform_all_consistent ops : ∀ db, consistent db → consistent (perform_all ops db).
Proof.
  induction ops as [|op ops IH]; intros db Hc; [done | ].
  apply IH. by apply perform_consistent.
Qed.

Lemma no_locations_consistent : consistent no_locations.
Proof. intros k r Hk. unfold no_locations in Hk. cbn in Hk. by rewrite lookup_empty in Hk. Qed.

(** X25. Whatever sequence of creations, activations, plan changes and
    deactivations the service performs, with the store refusing any of
    them, every location stays stored under its id, active only with its
    setup fee paid, and with the device limit of its plan tier (3, 25 or
    999).  In such a state [canAddDevice] never answers
    [SETUP_FEE_NOT_PAID], and it allows exactly the known, active
    locations holding fewer devices than their tier's limit. *)
Theorem locations_stay_consistent ops db :
  consistent db →
  let db' := perform_all ops db in
  consistent db'
  ∧ ∀ locationId,
      reason (canAddDevice locationId db') ≠ Some "SETUP_FEE_NOT_PAID"
      ∧ (allowed (canAddDevice locationId db') = true ↔
           ∃ r, locations db' !! locationId = Some r
                ∧ Enforce.active (location r) = true
                ∧ getLocationDeviceCount locationId db'
                  < PLAN_DEVICE_LIMITS (Enforce.plan_tier (location r))).
Proof.
  intros Hc db'. pose proof (perform_all_consistent ops db Hc) as Hc'. fold db' in Hc'.
  split; [exact Hc' | ]. intros lid. unfold canAddDevice, getLocation.
  destruct (locations db' !! lid) as [r|] eqn:Hr.
  - destruct (Hc' lid r Hr) as (_ & Hpaid & Hlim).
    destruct (Enforce.active (location r)) eqn:Hact; cbn [negb].
    + rewrite Hpaid by done. cbn [negb]. rewrite Hlim.
      destruct (Z.geb_spec (getLocationDeviceCount lid db')
                  (PLAN_DEVICE_LIMITS (Enforce.plan_tier (location r)))) as [Hge|Hlt];
        cbn [allowed reason].
      * split; [done | ]. split; [done | ]. intros (r' & [= <-] & _ & Hlt). lia.
      * split; [done | ]. split; [ | done]. intros _. exists r.
        split; [done | ]. split; [done | exact Hlt].
    + cbn [allowed reason]. split; [done | ]. split; [done | ].
      intros (r' & [= <-] & Hact' & _). congruence.
  - cbn [allowed reason]. split; [done | ]. split; [done | ]. by intros (r' & ? & _).
Qed.

Lemma locations_stay_consistent_witness :
  allowed (canAddDevice "loc-1"
             (perform_all [Create 100 "loc-1" false downtown; Activate 200 false "loc-1"]
                no_locations)) = true.
Proof.
  apply (proj2 (locations_stay_consistent
                  [Create 100 "loc-1" false downtown; Activate 200 false "loc-1"]
                  no_locations no_locations_consistent) "loc-1").
  eexists. split; [vm_compute; reflexivity | ]. split; [reflexivity | ].
  vm_compute. reflexivity.
Defined.

(** X26. The location service and the enforcement gate judge a stored
    location alike.  For an account whose billing is active,
    [canAddDevice] of the service and [enforceLocationPairing] of the gate,
    given the stored location and its device count, allow or refuse
    together, and a refusal carries the same code in both.  When billing
    is not active the gate refuses with [BILLING_INACTIVE] whatever the
    service answers: the service does not look at billing. *)
Theorem canAddDevice_agrees_with_gate now account logs locationId db r :
  locations db !! locationId = Some r →
  let gate := (Enforce.enforceLocationPairing now account (location r)
                 (getLocationDeviceCount locationId db) logs).2 in
  (Enforce.isBillingActive (Enforce.billing_status account) = true →
     allowed (canAddDevice locationId db) = Enforce.allowed gate
     ∧ reason (canAddDevice locationId db) = Enforce.code gate)
  ∧ (Enforce.isBillingActive (Enforce.billing_status account) = false →
     Enforce.allowed gate = false ∧ Enforce.code gate = Some "BILLING_INACTIVE").
Proof.
  intros Hr gate. subst gate. unfold canAddDevice, getLocation, Enforce.enforceLocationPairing.
  rewrite Hr. split; intros ->; cbn [negb]; [ | done].
  destruct (Enforce.active (location r)); cbn [negb]; [ | done].
  destruct (Enforce.setup_fee_paid (location r)); cbn [negb]; [ | done].
  by destruct (getLocationDeviceCount locationId db >=? Enforce.device_limit (location r)).
Qed.

(** X27. A location is created closed: after a [createLocation] that
    returns, [canAddDevice] refuses it with [LOCATION_INACTIVE] however few
    devices it holds; [activateLocationAfterPayment] then opens it up to
    the limit of its plan tier; and [deactivateLocation] closes it again,
    the setup fee staying paid. *)
Theorem new_location_closed_until_paid t1 t2 t3 new_id input db row :
  (createLocation t1 new_id false input db).2 = Some row →
  let db1 := (createLocation t1 new_id false input db).1 in
  let db2 := (activateLocationAfterPayment t2 false new_id db1).1 in
  let db3 := (deactivateLocation t3 false new_id db2).1 in
  let limit := PLAN_DEVICE_LIMITS (default Enforce.starter (in_plan_tier input)) in
  Enforce.loc_id (location row) = new_id
  ∧ canAddDevice new_id db1 = {| allowed := false; reason := Some "LOCATION_INACTIVE" |}
  ∧ canAddDevice new_id db2
    = (if getLocationDeviceCount new_id db >=? limit
       then {| allowed := false; reason := Some "DEVICE_LIMIT_REACHED" |}
       else {| allowed := true; reason := None |})
  ∧ canAddDevice new_id db3 = {| allowed := false; reason := Some "LOCATION_INACTIVE" |}
  ∧ (∃ r, locations db3 !! new_id = Some r
          ∧ Enforce.setup_fee_paid (location r) = true
          ∧ Enforce.device_limit (location r) = limit)
  ∧ (∀ k, k ≠ new_id → locations db3 !! k = locations db !! k).
Proof.
  unfold createLocation at 1 2. cbn [orb].
  destruct (bool_decide (is_Some (locations db !! new_id))); [done | ].
  cbn [fst snd]. intros [= <-]. cbn zeta.
  set (db1 := {| locations := <[new_id := _]> (locations db); devices := devices db |}).
  split; [done | ]. split.
  { unfold canAddDevice, getLocation. cbn [locations db1]. by rewrite lookup_insert_eq. }
  unfold activateLocationAfterPayment, deactivateLocation.
  set (act := λ r : Row, _). set (deact := λ r : Row, _).
  assert (∀ k, locations (update_single false new_id act db1).1 !! k
               = if decide (k = new_id) then act <$> locations db1 !! new_id
                 else locations db1 !! k) as Hl2
    by (intros k; exact (update_single_lookup false new_id _ _ k)).
  assert (∀ k, locations (update_single false new_id deact
                            (update_single false new_id act db1).1).1 !! k
               = if decide (k = new_id)
                 then deact <$> locations (update_single false new_id act db1).1 !! new_id
                 else locations (update_single false new_id act db1).1 !! k) as Hl3
    by (intros k; exact (update_single_lookup false new_id _ _ k)).
  assert (locations db1 !! new_id = Some _) as Hr1 by apply lookup_insert_eq.
  assert (∀ db', devices db' = devices db →
            getLocationDeviceCount new_id db' = getLocationDeviceCount new_id db) as Hdev
    by (intros db' Hd; unfold getLocationDeviceCount; by rewrite Hd).
  assert (devices (update_single false new_id act db1).1 = devices db) as Hd2.
  { unfold update_single. rewrite Hr1. done. }
  assert (devices (update_single false new_id deact
                     (update_single false new_id act db1).1).1 = devices db) as Hd3.
  { unfold update_single at 1. specialize (Hl2 new_id).
    rewrite decide_True, Hr1 in Hl2 by done. cbn [fmap option_fmap option_map] in Hl2.
    rewrite Hl2. exact Hd2. }
  split.
  { unfold canAddDevice, getLocation. rewrite Hl2, decide_True, Hr1 by done.
    cbn [fmap option_fmap option_map act location with_fields Enforce.active
         Enforce.setup_fee_paid Enforce.device_limit negb].
    by rewrite (Hdev _ Hd2). }
  split.
  { unfold canAddDevice, getLocation. rewrite Hl3, decide_True, Hl2, decide_True, Hr1 by done.
    done. }
  split.
  { eexists. split; [rewrite Hl3, decide_True, Hl2, decide_True, Hr1 by done; reflexivity | ].
    done. }
  intros k Hk. rewrite Hl3, decide_False, Hl2, decide_False by done.
  cbn [locations db1]. by rewrite lookup_insert_ne.
Qed.

Lemma new_location_closed_until_paid_witness :
  canAddDevice "loc-1" (createLocation 100 "loc-1" false downtown no_locations).1
  = {| allowed := false; reason := Some "LOCATION_INACTIVE" |}.
Proof.
  refine (proj1 (proj2 (new_location_closed_until_paid 100 200 300 "loc-1" downtown
                          no_locations _ _))).
  vm_compute. reflexivity.
Defined.

Lemma canAddDevice_agrees_with_gate_witness :
  ∃ r, locations (perform_all [Create 100 "loc-1" false downtown; Activate 200 false "loc-1"]
                    no_locations) !! "loc-1" = Some r
       ∧ reason (canAddDevice "loc-1"
                   (perform_all [Create 100 "loc-1" false downtown; Activate 200 false "loc-1"]
                      no_locations))
         = Enforce.code (Enforce.enforceLocationPairing 0 Samples.paidAccount (location r)
                           (getLocationDeviceCount "loc-1"
                              (perform_all [Create 100 "loc-1" false downtown;
                                            Activate 200 false "loc-1"] no_locations)) []).2.
Proof.
  eexists. split; [vm_compute; reflexivity | ].
  refine (proj2 (proj1 (canAddDevice_agrees_with_gate 0 Samples.paidAccount [] "loc-1"
                          (perform_all [Create 100 "loc-1" false downtown;
                                        Activate 200 false "loc-1"] no_locations) _ _) _)).
  - vm_compute. reflexivity.
  - reflexivity.
Defined.

End LocationsFacts.

(** ** The event log under ingestion *)
Section EventLogFacts.

Import Events.

Lemma validate_one_accept now_iso i e row :
  validate_one now_iso i e = Accept row → well_formed_row row.
Proof.
  unfold validate_one, get. destruct (nullish e); [done | ].
  destruct (truthy (prop e "event_type")) eqn:Htype; cbn [negb orb]; [ | done].
  destruct (truthy (prop e "source_service")); cbn [negb orb]; [ | done].
  destruct (truthy (prop e "location_id")) eqn:Hloc; cbn [negb]; [ | done].
  destruct (includes_value validServices (prop e "source_service")) eqn:Hsvc; cbn [negb];
    [ | done].
  intros [= <-]. unfold well_formed_row, to_row. cbn [event_type location_id source_service].
  split; [done | ]. split; [done | ].
  unfold includes_value in Hsvc. destruct (prop e "source_service") as [| | | |s| |]; try done.
  exists s. split; [done | by apply includes_elem_of].
Qed.

Lemma validate_accounting now_iso events : ∀ i validEvents errors validEvents' errors',
  validate now_iso i events validEvents errors = Some (validEvents', errors') →
  ∃ rows errs,
    validEvents' = validEvents ++ rows ∧ errors' = errors ++ errs
    ∧ Forall well_formed_row rows
    ∧ (length rows + length errs = length events)%nat.
Proof.
  induction events as [|e rest IH]; intros i v errs v' errs' Hrun; cbn [validate] in Hrun.
  - injection Hrun as <- <-. exists [], []. by rewrite !app_nil_r.
  - destruct (validate_one now_iso i e) as [|err|row] eqn:Hone; [done | | ].
    + destruct (IH _ _ _ _ _ Hrun) as (rows & errs0 & -> & -> & Hwf & Hlen).
      exists rows, (err :: errs0). rewrite <- app_assoc. split; [done | ]. split; [done | ].
      split; [done | ]. cbn [length]. lia.
    + destruct (IH _ _ _ _ _ Hrun) as (rows & errs0 & -> & -> & Hwf & Hlen).
      exists (row :: rows), errs0. rewrite <- app_assoc. split; [done | ]. split; [done | ].
      split; [ | cbn [length]; lia].
      constructor; [by eapply validate_one_accept | done].
Qed.

(** X28. The ingestion only ever appends to [event_log], and only rows it
    accepted.  Whatever the service key, the body, the clock and the
    store's answer: the rows already logged stay as they are, in place;
    every answer other than 201 leaves the log unchanged; a 201 appends at
    least one row, as many as it reports in [logged], each with a type and
    a location that hold something and a recognized source service; for a
    batch, [logged] and the reported errors add up to the batch's size,
    and a body that is not an array is a batch of one. *)
Theorem post_events_append_only service_key_ok body now_iso insert_error event_log :
  let res := post_events service_key_ok body now_iso insert_error event_log in
  ∃ rows,
    res.1 = event_log ++ rows
    ∧ Forall well_formed_row rows
    ∧ match res.2 with
      | Logged logged errors =>
          logged = length rows ∧ (0 < logged)%nat
          ∧ service_key_ok = true ∧ insert_error = false
          ∧ (∀ items, body = Some (VArr items) →
               (logged + length (default [] errors) = length items)%nat)
          ∧ (∀ v, body = Some v → (∀ items, v ≠ VArr items) → logged = 1%nat ∧ errors = None)
      | _ => rows = []
      end.
Proof.
  intros res. subst res. unfold post_events.
  destruct service_key_ok; cbn [negb]; [ | exists []; by rewrite app_nil_r].
  destruct body as [body|]; [ | exists []; by rewrite app_nil_r].
  destruct (validate now_iso 0 _ [] []) as [[validEvents errors]|] eqn:Hrun;
    [ | exists []; by rewrite app_nil_r].
  destruct (validate_accounting _ _ _ _ _ _ _ Hrun) as (rows & errs & -> & -> & Hwf & Hlen).
  rewrite !app_nil_l in *.
  destruct (Nat.eqb_spec (length rows) 0) as [Hz|Hnz]; [exists []; by rewrite app_nil_r | ].
  destruct insert_error; [exists []; by rewrite app_nil_r | ].
  exists rows. cbn [fst snd]. split; [done | ]. split; [done | ].
  assert (length (default [] (if (0 <? length errs)%nat then Some errs else None))
          = length errs) as Herrs.
  { destruct errs; reflexivity. }
  split; [done | ]. split; [lia | ]. split; [done | ]. split; [done | ]. split.
  - intros items [= ->]. rewrite Herrs. exact Hlen.
  - intros v [= ->] Hnot.
    assert (length rows + length errs = 1)%nat as Hone.
    { rewrite Hlen. destruct v; try reflexivity. by destruct (Hnot items). }
    destruct errs as [|err errs]; cbn [length] in Hone |- *; [ | lia].
    split; [lia | reflexivity].
Qed.

End EventLogFacts.

(** ** The read-only status query against the webhook's mapping *)
Section StatusQueryFacts.

Import Resolver.

(** X29. The read-only status query fails closed and opens the pairing
    gate to the same provider states as the webhook.  Its answer passes
    [isBillingActive] exactly when the provider lists a subscription whose
    status is [active] or [trialing]: a failing request and an empty list
    give [unpaid].  On every listed status the gate judges the query's
    answer as it judges the webhook's, although the answers differ on a
    trial, and the query never answers [trialing] or [canceled]. *)
Theorem status_query_agrees_with_webhook_at_gate subs :
  (Enforce.isBillingActive (to_string (getAccountBillingStatus subs)) = true
   ↔ ∃ s rest, subs = ListData (s :: rest) ∧ (s = "active" ∨ s = "trialing"))
  ∧ (∀ s rest, subs = ListData (s :: rest) →
       Enforce.isBillingActive (to_string (getAccountBillingStatus subs))
       = Enforce.isBillingActive (to_string (mapSubscriptionStatus s)))
  ∧ getAccountBillingStatus subs ≠ trialing
  ∧ getAccountBillingStatus subs ≠ canceled.
Proof.
  destruct subs as [|[|s rest]].
  - split; [ | done]. split; [discriminate | by intros (? & ? & ? & _)].
  - split; [ | done]. split; [discriminate | by intros (? & ? & ? & _)].
  - assert (Enforce.isBillingActive (to_string (getAccountBillingStatus (ListData (s :: rest))))
            = Enforce.isBillingActive (to_string (mapSubscriptionStatus s))) as Hgate.
    { rewrite getAccountBillingStatus_vs_webhook.
      by destruct (String.eqb_spec s "trialing") as [->|]. }
    split; [ | split].
    + rewrite Hgate, resolver_opens_gate. split.
      * intros Hs. by exists s, rest.
      * by intros (s' & rest' & [= <- _] & Hs).
    + intros s' rest' [= <- _]. exact Hgate.
    + rewrite getAccountBillingStatus_vs_webhook, mapSubscriptionStatus_cases.
      destruct (String.eqb s "trialing"); [done | ].
      destruct (String.eqb s "active"); [done | ].
      by destruct (String.eqb s "past_due").
Qed.

End StatusQueryFacts.
